(** * Tuya Cloud -> MQTT bridge: a shallow embedding of [bridge.py]

    The development follows the source file top to bottom:
    - [Py]        the Python values the bridge handles (what [resp.json()]
                  can return) and the few built-ins the code applies to them;
    - [PyLib]     the library calls whose code is not part of the repository
                  ([hashlib], [hmac], [json.dumps], [repr]), as an interface;
    - [Urllib]    [urlencode], and [sorted] on the pairs it is given;
    - [Client]    class [TuyaOpenAPI]: [connect], [get], [_request];
    - [Shadow]    [fetch_shadow_v2], [pick_boolean], [pick_battery];
    - [Bridge]    the body of the [while True] loop of [main];
    - [Env]       the configuration read from the process environment;
    - [Mqtt]      [mqtt_connect] and [publish_discovery].

    Python [str] values are represented by their UTF-8 encoding (a Rocq
    [string] is a sequence of bytes): concatenation, comparison, percent
    encoding and hashing are then byte-exact; [strip] takes off the
    white space of Unicode, [upper] and [lower] are given where the code
    applies them.  A [str] with a lone surrogate has no UTF-8 encoding
    ([encode] raises [UnicodeEncodeError] on it) and is not represented.
    A [float] is a binary64 of [SpecFloat], the clock readings included.
    Calls to the logger only format text and are left out. *)

From Stdlib Require Import ZArith QArith Qpower Lqa Floats.SpecFloat Ascii String.
From stdpp Require Import base tactics option list strings sorting pretty gmap.

Set Warnings "-register-all".
Close Scope Q_scope.
Local Open Scope string_scope.
Local Open Scope list_scope.
Local Open Scope Z_scope.

(** ** Python values *)

Module Py.

Inductive exn : Set :=
| AttributeError | TypeError | ValueError | OverflowError | RecursionError.

Inductive result (A : Type) : Type :=
| Ok (a : A)
| Raise (e : exn).
Arguments Ok {A} a.
Arguments Raise {A} e.

Definition rbind {A B} (m : result A) (k : A -> result B) : result B :=
  match m with Ok a => k a | Raise e => Raise e end.

(** [None], [bool], [int], [float], [str], [list], [dict].  A [dict] keeps
    its items in order, most recent binding of a key first. *)
Inductive pyobj : Type :=
| PNone
| PBool (b : bool)
| PInt (z : Z)
| PFloat (f : spec_float)
| PStr (s : string)
| PList (l : list pyobj)
| PDict (d : list (pyobj * pyobj)).

Abbreviation pydict := (list (pyobj * pyobj)).

(** [bool(x)] *)
Definition truthy (x : pyobj) : bool :=
  match x with
  | PNone => false
  | PBool b => b
  | PInt z => negb (z =? 0)
  | PFloat (S754_zero _) => false
  | PFloat _ => true
  | PStr s => negb (String.eqb s "")
  | PList l => match l with [] => false | _ => true end
  | PDict d => match d with [] => false | _ => true end
  end.

(** [k in d] and [d[k]] for a [str] key [k]. *)
Fixpoint lookup_str (k : string) (d : pydict) : option pyobj :=
  match d with
  | [] => None
  | (PStr k', v) :: d' => if String.eqb k k' then Some v else lookup_str k d'
  | _ :: d' => lookup_str k d'
  end.

(** [x.get(k, default)]: only a [dict] has the method. *)
Definition get_default (x : pyobj) (k : string) (default : pyobj)
  : result pyobj :=
  match x with
  | PDict d => Ok (from_option id default (lookup_str k d))
  | _ => Raise AttributeError
  end.

(** [x.get(k)] *)
Definition get (x : pyobj) (k : string) : result pyobj := get_default x k PNone.

Definition isinstance_dict (x : pyobj) : bool :=
  match x with PDict _ => true | _ => false end.
Definition isinstance_list (x : pyobj) : bool :=
  match x with PList _ => true | _ => false end.
Definition isinstance_str (x : pyobj) : bool :=
  match x with PStr _ => true | _ => false end.
(** [isinstance(x, (bool, int))]; [bool] is a subclass of [int]. *)
Definition isinstance_bool_int (x : pyobj) : bool :=
  match x with PBool _ | PInt _ => true | _ => false end.
(** [isinstance(x, (int, float))] *)
Definition isinstance_int_float (x : pyobj) : bool :=
  match x with PBool _ | PInt _ | PFloat _ => true | _ => false end.

(** A [list] or a [dict] cannot be a dictionary key. *)
Definition hashable (x : pyobj) : bool :=
  match x with PList _ | PDict _ => false | _ => true end.

(** The value of a finite float is [(-1)^s * m * 2^e]; [int(f)] drops the
    fractional part, and raises on [nan] and on the infinities. *)
Definition trunc_float (s : bool) (m : positive) (e : Z) : Z :=
  let a := if 0 <=? e then Z.pos m * 2 ^ e else Z.pos m / 2 ^ (- e) in
  if s then - a else a.

Definition int_ (x : pyobj) : result Z :=
  match x with
  | PBool b => Ok (if b then 1 else 0)
  | PInt z => Ok z
  | PFloat (S754_zero _) => Ok 0
  | PFloat (S754_finite s m e) => Ok (trunc_float s m e)
  | PFloat S754_nan => Raise ValueError
  | PFloat (S754_infinity _) => Raise OverflowError
  | _ => Raise TypeError
  end.

(** [x == n] for an [int] literal [n]: numbers compare by value across
    [bool], [int] and [float]; nothing else equals an [int]. *)
Definition float_eq_int (f : spec_float) (n : Z) : bool :=
  match f with
  | S754_zero _ => n =? 0
  | S754_finite s m e =>
      let v := if s then Z.neg m else Z.pos m in
      if 0 <=? e then v * 2 ^ e =? n else v =? n * 2 ^ (- e)
  | _ => false
  end.

Definition eq_int (x : pyobj) (n : Z) : bool :=
  match x with
  | PBool b => (if b then 1 else 0) =? n
  | PInt z => z =? n
  | PFloat f => float_eq_int f n
  | _ => false
  end.

(** A [float] is a binary64; its arithmetic is the one [SpecFloat] gives
    for 53 bits of precision and exponents up to 1024, rounding to
    nearest, ties to even. *)
Definition prec : Z := 53.
Definition emax : Z := 1024.

(** [float(n)] for an [int] *)
Definition float_of_int (n : Z) : spec_float :=
  binary_normalize prec emax n 0 false.

(** [x - y] and [x * y] for floats *)
Definition float_sub : spec_float -> spec_float -> spec_float :=
  SFsub prec emax.
Definition float_mul : spec_float -> spec_float -> spec_float :=
  SFmul prec emax.

(** [x > n] for a float [x] and an [int] [n]: Python compares the two by
    value. *)
Definition float_gt_int (f : spec_float) (n : Z) : bool :=
  match f with
  | S754_zero _ => 0 >? n
  | S754_finite s m e =>
      let v := if s then Z.neg m else Z.pos m in
      if 0 <=? e then v * 2 ^ e >? n else v >? n * 2 ^ (- e)
  | S754_infinity s => negb s
  | S754_nan => false
  end.

(** Case mapping as [str.upper] and [str.lower] act on ASCII letters.  A
    character outside ASCII is left as it is: its lower-case form, where
    Python gives it one, is again outside ASCII, but for U+212A (k) and
    U+0130 (i followed by U+0307), so that [lower s] is one of low, middle,
    medium or high exactly when [s.lower()] is. *)
Definition upper_char (c : ascii) : ascii :=
  let n := Ascii.N_of_ascii c in
  if ((97 <=? n) && (n <=? 122))%N then Ascii.ascii_of_N (n - 32) else c.
Definition lower_char (c : ascii) : ascii :=
  let n := Ascii.N_of_ascii c in
  if ((65 <=? n) && (n <=? 90))%N then Ascii.ascii_of_N (n + 32) else c.

Fixpoint map_string (f : ascii -> ascii) (s : string) : string :=
  match s with
  | EmptyString => EmptyString
  | String c s' => String (f c) (map_string f s')
  end.

Definition upper : string -> string := map_string upper_char.
Definition lower : string -> string := map_string lower_char.

(** [str.isspace]: the white space of Unicode, each character by its UTF-8
    bytes.  One byte: tab, LF, VT, FF, CR, FS, GS, RS, US, space. *)
Definition isspace (c : ascii) : bool :=
  let n := Ascii.N_of_ascii c in
  (((9 <=? n) && (n <=? 13)) || ((28 <=? n) && (n <=? 32)))%N.

(** Two bytes: U+0085 (C2 85) and U+00A0 (C2 A0). *)
Definition isspace2 (c1 c2 : ascii) : bool :=
  let n1 := Ascii.N_of_ascii c1 in
  let n2 := Ascii.N_of_ascii c2 in
  ((n1 =? 194) && ((n2 =? 133) || (n2 =? 160)))%N.

(** Three bytes: U+1680 (E1 9A 80), U+2000 to U+200A (E2 80 80 to 8A),
    U+2028 and U+2029 (E2 80 A8, A9), U+202F (E2 80 AF), U+205F (E2 81 9F)
    and U+3000 (E3 80 80). *)
Definition isspace3 (c1 c2 c3 : ascii) : bool :=
  let n1 := Ascii.N_of_ascii c1 in
  let n2 := Ascii.N_of_ascii c2 in
  let n3 := Ascii.N_of_ascii c3 in
  (((n1 =? 225) && (n2 =? 154) && (n3 =? 128))
   || ((n1 =? 226) && (n2 =? 128)
       && (((128 <=? n3) && (n3 <=? 138))
           || (n3 =? 168) || (n3 =? 169) || (n3 =? 175)))
   || ((n1 =? 226) && (n2 =? 129) && (n3 =? 159))
   || ((n1 =? 227) && (n2 =? 128) && (n3 =? 128)))%N.

(** [s.lstrip()] *)
Fixpoint lstrip (s : string) : string :=
  match s with
  | String c1 s1 =>
      if isspace c1 then lstrip s1 else
      match s1 with
      | String c2 s2 =>
          if isspace2 c1 c2 then lstrip s2 else
          match s2 with
          | String c3 s3 => if isspace3 c1 c2 c3 then lstrip s3 else s
          | EmptyString => s
          end
      | EmptyString => s
      end
  | EmptyString => EmptyString
  end.

(** [s.rstrip()]: what is left when the white space that ends [s] is taken
    off.  The bytes inside a character of several bytes start no white
    space, so the test is made at the first byte of a character only. *)
Fixpoint rstrip (s : string) : string :=
  match s with
  | EmptyString => EmptyString
  | String c s' =>
      if String.eqb (lstrip s) "" then EmptyString else String c (rstrip s')
  end.

(** [s.strip()] *)
Definition strip (s : string) : string := rstrip (lstrip s).

(** [s.rstrip(chars)] for characters [chars] of one byte *)
Fixpoint rstrip_by (p : ascii -> bool) (s : string) : string :=
  match s with
  | EmptyString => EmptyString
  | String c s' =>
      match rstrip_by p s' with
      | EmptyString => if p c then EmptyString else String c EmptyString
      | r => String c r
      end
  end.

(** [s.rstrip('/')] *)
Definition rstrip_slash : string -> string :=
  rstrip_by (fun c => Ascii.eqb c "/"%char).

(** [s.startswith('/')] *)
Definition startswith_slash (s : string) : bool :=
  match s with String c _ => Ascii.eqb c "/"%char | _ => false end.

(** [str(n)] for an [int]. *)
Definition str_int (n : Z) : string := pretty n.

End Py.

Import Py.

(** ** Library calls

    [hashlib], [hmac], [json] and [repr] are not code of the bridge; the
    client is written against this interface.  Digests are over the UTF-8
    bytes of their arguments. *)

Class PyLib : Type := {
  (** [hashlib.sha256(s.encode('utf-8')).hexdigest()] *)
  sha256_hexdigest : string -> string;
  (** [hmac.new(key.encode('utf-8'), msg=msg.encode('utf-8'),
      digestmod=hashlib.sha256).hexdigest()] *)
  hmac_sha256_hexdigest : string -> string -> string;
  (** [json.dumps(x, separators=(',', ':'), ensure_ascii=False)] *)
  json_dumps : pyobj -> string;
  (** [repr(x)], which is [str(x)] for a [float], a [list] or a [dict] *)
  repr : pyobj -> string
}.

(** ** [urllib.parse.urlencode] on a list of [str] pairs *)

Module Urllib.

Definition hex_digit (n : N) : ascii :=
  match n with
  | 0 => "0" | 1 => "1" | 2 => "2" | 3 => "3" | 4 => "4" | 5 => "5"
  | 6 => "6" | 7 => "7" | 8 => "8" | 9 => "9" | 10 => "A" | 11 => "B"
  | 12 => "C" | 13 => "D" | 14 => "E" | _ => "F"
  end%N%char.

(** Letters, digits and [_.-~] are never quoted. *)
Definition always_safe (c : ascii) : bool :=
  let n := Ascii.N_of_ascii c in
  (((65 <=? n) && (n <=? 90)) || ((97 <=? n) && (n <=? 122))
   || ((48 <=? n) && (n <=? 57))
   || (n =? 95) || (n =? 46) || (n =? 45) || (n =? 126))%N.

Definition quote_char (c : ascii) : string :=
  if always_safe c then String c ""
  else if Ascii.eqb c " "%char then "+"
  else let n := Ascii.N_of_ascii c in
       String "%"%char
         (String (hex_digit (n / 16)) (String (hex_digit (n mod 16)) "")).

Fixpoint quote_plus (s : string) : string :=
  match s with
  | EmptyString => ""
  | String c s' => quote_char c +:+ quote_plus s'
  end.

Fixpoint join (sep : string) (l : list string) : string :=
  match l with
  | [] => ""
  | [x] => x
  | x :: l' => x +:+ sep +:+ join sep l'
  end.

Definition urlencode (query : list (string * string)) : string :=
  join "&" (map (fun kv => quote_plus kv.1 +:+ "=" +:+ quote_plus kv.2) query).

End Urllib.

(** ** [sorted] on a list of [(str, str)] tuples

    Tuples compare component by component, strings by code point. *)

Definition tuple_le (a b : string * string) : Prop :=
  (a.1 ≠ b.1 ∧ String.le a.1 b.1) ∨ (a.1 = b.1 ∧ String.le a.2 b.2).

#[global] Instance tuple_le_dec : RelDecision tuple_le.
Proof. intros a b. unfold tuple_le. apply _. Defined.

Definition sorted (l : list (string * string)) : list (string * string) :=
  merge_sort tuple_le l.

(** ** class TuyaOpenAPI *)

Module Client.

Record TuyaOpenAPI : Type := {
  base_url : string;
  access_id : string;
  access_key : string;
  access_token : pyobj
}.

Definition __init__ (base_url access_id access_key : string) : TuyaOpenAPI :=
  {| base_url := rstrip_slash base_url;
     access_id := access_id;
     access_key := access_key;
     access_token := PNone |}.

(** What [requests.get(url, headers=headers, timeout=15)] does: it raises
    (the text is [str(e)]), or returns a response with its [status_code],
    its [text] and what [resp.json()] gives ([None] when that raises). *)
Inductive response : Type :=
| RequestException (e : string)
| Response (status_code : Z) (text : string) (json : option pyobj).

(** The surroundings of the client.  Every invocation of [_request] reads
    the clock, draws a nonce and calls the server once, in this order; the
    [i]-th invocation gets the [i]-th element of each sequence.  A reading
    of the clock is a float. *)
Record environment : Type := {
  time_time : nat -> spec_float;
  token_hex : nat -> string;
  requests_get : nat -> response
}.

Abbreviation headers := (list (string * string)).

(** The calls a run makes, in order. *)
Inductive event : Type :=
| Enter_connect
| Enter_request (use_token retry : bool)
| Requests_get (url : string) (h : headers).

Record state : Type := {
  self : TuyaOpenAPI;
  invocations : nat
}.

(** State, exceptions and the call trace.  An exception keeps the state
    reached so far, as an assignment made before a [raise] stays made. *)
Definition M (A : Type) : Type := state -> result A * state * list event.

Definition ret {A} (a : A) : M A := fun st => (Ok a, st, []).
Definition raise {A} (e : exn) : M A := fun st => (Raise e, st, []).
Definition bind {A B} (m : M A) (k : A -> M B) : M B :=
  fun st =>
    match m st with
    | (Ok a, st1, tr1) =>
        match k a st1 with (r, st2, tr2) => (r, st2, tr1 ++ tr2) end
    | (Raise e, st1, tr1) => (Raise e, st1, tr1)
    end.
Definition lift {A} (r : result A) : M A := fun st => (r, st, []).
Definition emit (e : event) : M unit := fun st => (Ok (), st, [e]).
Definition get_self : M TuyaOpenAPI := fun st => (Ok (self st), st, []).
Definition set_access_token (tok : pyobj) : M unit :=
  fun st =>
    let s := self st in
    (Ok (),
     {| self := {| base_url := base_url s; access_id := access_id s;
                   access_key := access_key s; access_token := tok |};
        invocations := invocations st |},
     []).
Definition next_invocation : M nat :=
  fun st =>
    (Ok (invocations st),
     {| self := self st; invocations := S (invocations st) |}, []).

Declare Scope client_scope.
Delimit Scope client_scope with client.
Notation "x <- m ;; k" := (bind m (fun x => k))
  (at level 100, m at next level, right associativity) : client_scope.
Notation "m ;;; k" := (bind m (fun _ => k))
  (at level 100, right associativity) : client_scope.

Section Methods.
Context `{PyLib}.

(** [str(v)] *)
Definition str (v : pyobj) : string :=
  match v with
  | PStr s => s
  | PInt z => str_int z
  | PBool true => "True"
  | PBool false => "False"
  | PNone => "None"
  | _ => repr v
  end.

Definition LF : string := String (Ascii.ascii_of_N 10) "".

(** [_request], lines 42-43 *)
Definition normalize_path (path : string) : string :=
  if startswith_slash path then path else "/" +:+ path.

(** [_request], lines 45-46 *)
Definition query_string (params : option (list (string * pyobj))) : string :=
  match params with
  | Some ((_ :: _) as items) =>
      Urllib.urlencode (sorted (map (fun kv => (kv.1, str kv.2)) items))
  | _ => ""
  end.

Definition full_path (path : string) (params : option (list (string * pyobj)))
  : string :=
  let qs := query_string params in
  if negb (String.eqb qs "") then path +:+ "?" +:+ qs else path.

(** [_request], line 48 *)
Definition body_str (method : string) (body : option pyobj) : string :=
  match body with
  | Some b => if String.eqb method "GET" then "" else json_dumps b
  | None => ""
  end.

(** [_request], lines 49-51 *)
Definition string_to_sign (method : string) (body : option pyobj)
    (full_path : string) : string :=
  let content_sha256 := sha256_hexdigest (body_str method body) in
  method +:+ LF +:+ content_sha256 +:+ LF +:+ LF +:+ full_path.

(** [_request], line 53: [str(int(time.time() * 1000))].  [int] raises on
    a float that is not finite; the product of a clock reading and 1000 is
    finite (lemma [clock_milliseconds_finite] below), so that the second
    case does not arise. *)
Definition timestamp (now : spec_float) : string :=
  str_int match int_ (PFloat (float_mul now (float_of_int 1000))) with
          | Ok n => n
          | Raise _ => 0
          end.

(** [_request], lines 56-59.  [access_id + access_token] is a [TypeError]
    when the token held is not a [str]. *)
Definition message (self : TuyaOpenAPI) (use_token : bool)
    (t nonce string_to_sign : string) : result string :=
  if use_token && truthy (access_token self) then
    match access_token self with
    | PStr tok =>
        Ok (access_id self +:+ tok +:+ t +:+ nonce +:+ string_to_sign)
    | _ => Raise TypeError
    end
  else Ok (access_id self +:+ t +:+ nonce +:+ string_to_sign).

(** [_request], lines 61-63 *)
Definition sign_of (self : TuyaOpenAPI) (message : string) : string :=
  upper (hmac_sha256_hexdigest (access_key self) message).

(** [_request], lines 65-75 *)
Definition make_headers (self : TuyaOpenAPI) (use_token : bool)
    (sign t nonce body_str : string) : headers :=
  [("client_id", access_id self); ("sign", sign); ("t", t);
   ("nonce", nonce); ("sign_method", "HMAC-SHA256")]
  ++ (if use_token && truthy (access_token self)
      then match access_token self with
           | PStr tok => [("access_token", tok)]
           | _ => []
           end
      else [])
  ++ (if negb (String.eqb body_str "")
      then [("Content-Type", "application/json")]
      else []).

(** [_request], lines 45-77, for [method] and [path] as lines 41-43 leave
    them: the URL and the headers handed to [requests.get]. *)
Definition prepare (self : TuyaOpenAPI) (method path : string)
    (params : option (list (string * pyobj))) (body : option pyobj)
    (use_token : bool) (now : spec_float) (nonce : string)
  : result (string * headers) :=
  let fp := full_path path params in
  let sts := string_to_sign method body fp in
  let t := timestamp now in
  rbind (message self use_token t nonce sts) (fun msg =>
  let sign := sign_of self msg in
  Ok (base_url self +:+ fp,
      make_headers self use_token sign t nonce (body_str method body))).

(** [d.get(k)] on a value known to be a [dict]; [None] otherwise, always
    under an [isinstance(d, dict)] guard in the source. *)
Definition dict_get (x : pyobj) (k : string) : pyobj :=
  match x with
  | PDict d => from_option id PNone (lookup_str k d)
  | _ => PNone
  end.

(** [isinstance(x, dict) and x.get('success')] *)
Definition is_success (x : pyobj) : bool :=
  isinstance_dict x && truthy (dict_get x "success").

(** [isinstance(x, dict) and x.get('code') == 1010] *)
Definition is_token_invalid (x : pyobj) : bool :=
  isinstance_dict x && eq_int (dict_get x "code") 1010.

(** line 81 *)
Definition http_error (e : string) : pyobj :=
  PDict [(PStr "success", PBool false); (PStr "code", PInt 0);
         (PStr "msg", PStr ("HTTP error: " +:+ e))].

(** line 86 *)
Definition non_json (status_code : Z) (text : string) : pyobj :=
  PDict [(PStr "success", PBool false); (PStr "code", PInt status_code);
         (PStr "msg", PStr "non-json"); (PStr "text", PStr text)].

Local Open Scope client_scope.

(** [connect], with the method it calls as [req]: [connect] and [_request]
    call each other. *)
Definition connect_with
    (req : string -> string -> option (list (string * pyobj)) ->
           option pyobj -> bool -> bool -> M pyobj) : M pyobj :=
  emit Enter_connect ;;;
  data <- req "GET" "/v1.0/token" (Some [("grant_type", PInt 1)]) None
              false true ;;
  (if is_success data then
     result_ <- lift (get_default data "result" (PDict [])) ;;
     tok <- lift (Py.get result_ "access_token") ;;
     if truthy tok then set_access_token tok else ret ()
   else ret ()) ;;;
  ret data.

(** [_request].  [depth] bounds the nesting of [_request] frames, as the
    interpreter's recursion limit does; going past it is a
    [RecursionError]. *)
Fixpoint _request (env : environment) (depth : nat) (method path : string)
    (params : option (list (string * pyobj))) (body : option pyobj)
    (use_token retry : bool) {struct depth} : M pyobj :=
  match depth with
  | O => raise RecursionError
  | S depth' =>
      emit (Enter_request use_token retry) ;;;
      i <- next_invocation ;;
      self <- get_self ;;
      let method := upper method in
      let path := normalize_path path in
      rq <- lift (prepare self method path params body use_token
                          (time_time env i) (token_hex env i)) ;;
      emit (Requests_get rq.1 rq.2) ;;;
      match requests_get env i with
      | RequestException e => ret (http_error e)
      | Response status_code text json =>
          let data := from_option id (non_json status_code text) json in
          if use_token && is_token_invalid data && retry then
            c <- connect_with (_request env depth') ;;
            if is_success c then
              _request env depth' method path params body true false
            else ret data
          else ret data
      end
  end.

Definition connect (env : environment) (depth : nat) : M pyobj :=
  connect_with (_request env depth).

Definition get (env : environment) (depth : nat) (path : string)
    (params : option (list (string * pyobj))) : M pyobj :=
  _request env depth "GET" path params None true true.

End Methods.

End Client.

Import Client.

(** ** Configuration read from the process environment *)

Record config : Type := {
  ACCESS_ID : string;
  ACCESS_KEY : string;
  BASE_URL : string;
  DEVICE_ID : string;
  ENTITY_ID : string
}.

Definition OFFLINE_AFTER : Z := 300.

Definition AVAIL_TOPIC (cfg : config) : string :=
  "tuya/" +:+ ENTITY_ID cfg +:+ "/availability".
Definition STATE_TOPIC (cfg : config) : string :=
  "tuya/" +:+ ENTITY_ID cfg +:+ "/state".
Definition BATT_TOPIC (cfg : config) : string :=
  "tuya/" +:+ ENTITY_ID cfg +:+ "/battery".

(** ** v2 shadow fetch and the value pickers *)

Module Shadow.

(** The [for item in props] loop of [fetch_shadow_v2].  [by_code[code] = val]
    puts the binding in front, where [lookup_str] finds it first. *)
Fixpoint collect (props : list pyobj) (by_code : pydict) : result pydict :=
  match props with
  | [] => Ok by_code
  | item :: props' =>
      rbind (Py.get item "code") (fun code =>
      rbind (Py.get item "value") (fun val =>
      match code with
      | PNone => collect props' by_code
      | _ => if hashable code then collect props' ((code, val) :: by_code)
             else Raise TypeError
      end))
  end.

(** [fetch_shadow_v2] from the response [sh] on. *)
Definition by_code_of (sh : pyobj) : result pydict :=
  if is_success sh then
    rbind (get_default sh "result" (PDict [])) (fun result_ =>
    rbind (get_default result_ "properties" (PList [])) (fun props =>
    rbind (match props with
           | PList items => collect items []
           | PDict d => Ok d
           | _ => Ok []
           end) (fun by_code =>
    if truthy (PDict by_code) then Ok by_code else Ok [])))
  else Ok [].

Definition fetch_shadow_v2 `{PyLib} (env : environment) (depth : nat)
    (cfg : config) : M pydict :=
  (sh <- Client.get env depth
           ("/v2.0/cloud/thing/" +:+ DEVICE_ID cfg +:+ "/shadow/properties")
           None ;;
   lift (by_code_of sh))%client.

(** [k in by_code and isinstance(by_code[k], T)], giving [by_code[k]]. *)
Definition present (isinstance : pyobj -> bool) (k : string) (by_code : pydict)
  : option pyobj :=
  match lookup_str k by_code with
  | Some v => if isinstance v then Some v else None
  | None => None
  end.

Definition boolean_codes : list string :=
  ["doorcontact_state"; "contact_state"; "contact"; "door"; "open";
   "switch_1"; "switch"].

Fixpoint pick_boolean_in (codes : list string) (by_code : pydict)
  : option bool :=
  match codes with
  | [] => None
  | k :: codes' =>
      match present isinstance_bool_int k by_code with
      | Some v => Some (truthy v)
      | None => pick_boolean_in codes' by_code
      end
  end.

Definition pick_boolean (by_code : pydict) : option bool :=
  pick_boolean_in boolean_codes by_code.

(** The dictionary [m] of [pick_battery]. *)
Definition m : list (string * Z) :=
  [("low", 20); ("middle", 60); ("medium", 60); ("high", 100)].

Fixpoint m_get (k : string) (m : list (string * Z)) : option Z :=
  match m with
  | [] => None
  | (k', n) :: m' => if String.eqb k k' then Some n else m_get k m'
  end.

Definition pick_battery (by_code : pydict) : result (option Z) :=
  match present isinstance_int_float "battery_percentage" by_code with
  | Some v => rbind (int_ v) (fun n => Ok (Some n))
  | None =>
  match present isinstance_int_float "battery" by_code with
  | Some v => rbind (int_ v) (fun n => Ok (Some n))
  | None =>
  match present isinstance_str "battery_state" by_code with
  | Some (PStr s) => Ok (m_get (lower (strip s)) m)
  | _ => Ok None
  end end end.

End Shadow.

(** ** The loop of [main] *)

Module Bridge.

Import Shadow.

(** [mqtt.publish(topic, payload, retain=True)] *)
Record publish : Type := {
  topic : string;
  payload : string
}.

Record loop_state : Type := {
  last_ok : spec_float;
  avail_state : string
}.

(** [main] up to the loop, as far as the loop depends on it.  The discovery
    payloads go to topics of their own and are left out. *)
Definition startup (cfg : config) (now : spec_float)
  : loop_state * list publish :=
  ({| last_ok := now; avail_state := "online" |},
   [{| topic := AVAIL_TOPIC cfg; payload := "online" |}]).

(** [time.time() - last_ok > OFFLINE_AFTER] *)
Definition overdue (now last_ok : spec_float) : bool :=
  float_gt_int (float_sub now last_ok) OFFLINE_AFTER.

(** One pass through the [try] block, from the outcome of
    [fetch_shadow_v2] on; [now] is what [time.time()] returns in this
    pass.  An exception ends the pass where it is raised: what was
    assigned and published before stays. *)
Definition after_fetch (cfg : config) (fetched : result pydict)
    (now : spec_float) (st : loop_state) : loop_state * list publish :=
  match fetched with
  | Raise _ => (st, [])
  | Ok by_code =>
      if truthy (PDict by_code) then
        let avail :=
          if negb (String.eqb (avail_state st) "online")
          then [{| topic := AVAIL_TOPIC cfg; payload := "online" |}]
          else [] in
        let st' := {| last_ok := now; avail_state := "online" |} in
        let onoff := pick_boolean by_code in
        match pick_battery by_code with
        | Raise _ => (st', avail)
        | Ok batt =>
            (st',
             avail
             ++ match onoff with
                | Some b => [{| topic := STATE_TOPIC cfg;
                                payload := if b then "ON" else "OFF" |}]
                | None => []
                end
             ++ match batt with
                | Some n => [{| topic := BATT_TOPIC cfg;
                                payload := str_int n |}]
                | None => []
                end)
        end
      else
        if overdue now (last_ok st)
           && negb (String.eqb (avail_state st) "offline")
        then ({| last_ok := last_ok st; avail_state := "offline" |},
              [{| topic := AVAIL_TOPIC cfg; payload := "offline" |}])
        else (st, [])
  end.

(** The body of [while True]: fetch, then the rest. *)
Definition loop_body `{PyLib} (env : environment) (depth : nat) (cfg : config)
    (now : spec_float) (api : Client.state) (st : loop_state)
  : Client.state * loop_state * list publish :=
  match fetch_shadow_v2 env depth cfg api with
  | (fetched, api', _) =>
      let (st', pubs) := after_fetch cfg fetched now st in
      (api', st', pubs)
  end.

(** A run of the loop over the outcomes and clock readings of its passes. *)
Fixpoint run (cfg : config) (ticks : list (result pydict * spec_float))
    (st : loop_state) : loop_state * list publish :=
  match ticks with
  | [] => (st, [])
  | (fetched, now) :: ticks' =>
      let (st1, p1) := after_fetch cfg fetched now st in
      let (st2, p2) := run cfg ticks' st1 in
      (st2, p1 ++ p2)
  end.

(** [main] before the loop: the optimistic availability publish, the
    client, the first [connect] inside its own [try], the first reading
    of the clock. *)
Definition main_start `{PyLib} (env : environment) (depth : nat)
    (cfg : config) (now : spec_float)
  : Client.state * loop_state * list publish :=
  let api := {| self := __init__ (BASE_URL cfg) (ACCESS_ID cfg)
                          (ACCESS_KEY cfg);
                invocations := 0 |} in
  match connect env depth api with
  | (_, api', _) => (api', (startup cfg now).1, (startup cfg now).2)
  end.

(** The outcomes of [fetch_shadow_v2] over the passes of the loop, each
    with the clock reading of its pass. *)
Fixpoint fetches `{PyLib} (env : environment) (depth : nat) (cfg : config)
    (times : list spec_float) (api : Client.state)
  : list (result pydict * spec_float) :=
  match times with
  | [] => []
  | now :: times' =>
      match fetch_shadow_v2 env depth cfg api with
      | (fetched, api', _) =>
          (fetched, now) :: fetches env depth cfg times' api'
      end
  end.

(** The loop itself, for as many passes as there are clock readings. *)
Fixpoint main_loop `{PyLib} (env : environment) (depth : nat) (cfg : config)
    (times : list spec_float) (api : Client.state) (st : loop_state)
  : loop_state * list publish :=
  match times with
  | [] => (st, [])
  | now :: times' =>
      match loop_body env depth cfg now api st with
      | (api', st1, p1) =>
          let (st2, p2) := main_loop env depth cfg times' api' st1 in
          (st2, p1 ++ p2)
      end
  end.

End Bridge.

(** ** Reference definitions, after the specification *)

Module Spec.

Import Shadow Bridge.

(** A boolean-or-integer-like value, integers through nonzero-is-true. *)
Definition as_contact (v : pyobj) : option bool :=
  match v with
  | PBool b => Some b
  | PInt z => Some (negb (z =? 0))
  | _ => None
  end.

(** Code [k] is present in the snapshot with a value that resolves to [b]. *)
Definition resolves (by_code : pydict) (k : string) (b : bool) : Prop :=
  ∃ v, lookup_str k by_code = Some v ∧ as_contact v = Some b.

Definition candidate (by_code : pydict) (k : string) : Prop :=
  ∃ b, resolves by_code k b.

(** A float truncated to an integer: the integer part of [(-1)^s * m * 2^e],
    rounding toward zero.  There is none for [nan] and the infinities. *)
Definition truncate (f : spec_float) : option Z :=
  match f with
  | S754_zero _ => Some 0
  | S754_finite s m e =>
      let v := if s then Z.neg m else Z.pos m in
      Some (if 0 <=? e then v * 2 ^ e else Z.quot v (2 ^ (- e)))
  | _ => None
  end.

(** A numeric value as an integer.  What the code takes for numeric is an
    [int] or a [float]; Python's [bool] is an [int], 0 or 1. *)
Definition numeric (v : pyobj) : option Z :=
  match v with
  | PBool b => Some (Z.b2z b)
  | PInt z => Some z
  | PFloat f => truncate f
  | _ => None
  end.

(** The categorical battery levels. *)
Definition categorical (s : string) : option Z :=
  if String.eqb s "low" then Some 20
  else if String.eqb s "middle" || String.eqb s "medium" then Some 60
  else if String.eqb s "high" then Some 100
  else None.

Definition trim : string -> string := strip.
Definition casefold : string -> string := lower.

(** Battery resolution: (a) a numeric battery_percentage, else (b) a numeric
    battery, else (c) a string battery_state through the categorical
    levels; absent otherwise. *)
Definition battery (by_code : pydict) : option Z :=
  match lookup_str "battery_percentage" by_code ≫= numeric with
  | Some n => Some n
  | None =>
  match lookup_str "battery" by_code ≫= numeric with
  | Some n => Some n
  | None =>
  match lookup_str "battery_state" by_code with
  | Some (PStr s) => categorical (casefold (trim s))
  | _ => None
  end end end.

(** No value of the snapshot is [nan] or an infinity, which JSON has no
    notation for. *)
Definition finite (v : pyobj) : bool :=
  match v with
  | PFloat S754_nan | PFloat (S754_infinity _) => false
  | _ => true
  end.

Definition all_finite (by_code : pydict) : bool :=
  forallb (fun kv => finite kv.2) by_code.

(** What a pass publishes for the values the extractor found: contact as
    ON or OFF, battery as the decimal digits of the integer. *)
Definition contact_payload (b : bool) : string := if b then "ON" else "OFF".

Definition avail_publish (cfg : config) (state : string) : publish :=
  {| topic := AVAIL_TOPIC cfg; payload := state |}.

Definition value_publishes (cfg : config) (contact : option bool)
    (battery : option Z) : list publish :=
  match contact with
  | Some b => [{| topic := STATE_TOPIC cfg; payload := contact_payload b |}]
  | None => []
  end
  ++ match battery with
     | Some n => [{| topic := BATT_TOPIC cfg; payload := str_int n |}]
     | None => []
     end.

(** *** Availability (specification, 3 and 4.4) *)

(** The number a finite float stands for: the seconds since the epoch
    when it is a reading of the clock. *)
Definition seconds (t : spec_float) : Q :=
  match t with
  | S754_finite s m e => (inject_Z (if s then Z.neg m else Z.pos m) * 2 ^ e)%Q
  | _ => 0%Q
  end.

(** A reading of a clock that is at least 256 s and less than 2^34 s past
    the epoch, between four minutes into 1970 and the year 2514: a normal
    binary64 with an exponent from -44 to -19.  [time.time()] is below 2^34
    on any system, its value being a 64-bit count of nanoseconds. *)
Definition is_clock (t : spec_float) : bool :=
  match t with
  | S754_finite false m e =>
      (Z.pos (digits2_pos m) =? 53) && (-44 <=? e) && (e <=? -19)
  | _ => false
  end.

(** The timeout in seconds. *)
Definition timeout : Q := inject_Z OFFLINE_AFTER.

(** The clock does not run backwards: [t0], then the readings in order. *)
Fixpoint nondecreasing (t0 : spec_float) (ts : list spec_float) : bool :=
  match ts with
  | [] => true
  | t :: ts' => Qle_bool (seconds t0) (seconds t) && nondecreasing t ts'
  end.



(** A non-empty snapshot was obtained within the last [OFFLINE_AFTER]
    seconds before [now]. *)
Definition fresh_snapshot (ticks : list (result pydict * spec_float))
    (now : spec_float) : Prop :=
  ∃ d t, (Ok d, t) ∈ ticks ∧ d ≠ []
         ∧ (seconds now - seconds t <= timeout)%Q.


(** The invariant of the code: ... or no more than [OFFLINE_AFTER] seconds
    have elapsed since startup. *)
Definition expected_online (start : spec_float)
    (ticks : list (result pydict * spec_float)) (now : spec_float) : Prop :=
  fresh_snapshot ticks now ∨ (seconds now - seconds start <= timeout)%Q.




(** *** Signer (specification, 4.1) *)

Section Signer.
Context `{PyLib}.

(** Step 1: the SHA-256 digest of the body bytes in hexadecimal; the empty
    string is hashed for a GET request and for a request without body. *)
Definition content_hash (METHOD : string) (body : option pyobj) : string :=
  match body with
  | None => sha256_hexdigest ""
  | Some b =>
      if String.eqb METHOD "GET" then sha256_hexdigest ""
      else sha256_hexdigest (json_dumps b)
  end.

(** Step 2: METHOD, content hash, an empty headers line, path with query. *)
Definition string_to_sign (METHOD content_hash path_with_sorted_query : string)
  : string :=
  METHOD +:+ LF +:+ content_hash +:+ LF +:+ "" +:+ LF
         +:+ path_with_sorted_query.

(** Step 3: the token segment is there only when a token is given. *)
Definition message (client_id : string) (token : option string)
    (timestamp nonce string_to_sign : string) : string :=
  match token with
  | Some tok => client_id +:+ tok +:+ timestamp +:+ nonce +:+ string_to_sign
  | None => client_id +:+ timestamp +:+ nonce +:+ string_to_sign
  end.

(** Step 4: HMAC-SHA256 keyed by the client secret, in upper-case hex. *)
Definition signature (client_secret message : string) : string :=
  upper (hmac_sha256_hexdigest client_secret message).

(** The signature of a request description. *)
Definition sign (METHOD path_with_sorted_query : string) (body : option pyobj)
    (timestamp nonce client_id : string) (token : option string)
    (client_secret : string) : string :=
  signature client_secret
    (message client_id token timestamp nonce
       (string_to_sign METHOD (content_hash METHOD body)
          path_with_sorted_query)).

End Signer.

(** *** API client (specification, 4.2 and 9): attempt, and on an invalid
    token refresh, then retry once *)

Section TwoStep.
Context `{PyLib}.

(** What a request gives its caller when nothing is retried: the parsed
    body, or the failure dictionary of the transport. *)
Definition response_data (r : response) : pyobj :=
  match r with
  | RequestException e => http_error e
  | Response status_code text json =>
      from_option id (non_json status_code text) json
  end.

(** The state after one invocation of [_request], the client unchanged. *)
Definition bump (st : state) : state :=
  {| self := self st; invocations := S (invocations st) |}.

(** One signed request. *)
Definition attempt (env : environment) (method path : string)
    (params : option (list (string * pyobj))) (body : option pyobj)
    (use_token retry : bool) : M pyobj :=
  (emit (Enter_request use_token retry) ;;;
   i <- next_invocation ;;
   self <- get_self ;;
   rq <- lift (prepare self (upper method) (normalize_path path) params body
                       use_token (time_time env i) (token_hex env i)) ;;
   emit (Requests_get rq.1 rq.2) ;;;
   ret (response_data (requests_get env i)))%client.

Definition authenticate (env : environment) : M pyobj :=
  connect_with (attempt env).

Definition get_two_step (env : environment) (path : string)
    (params : option (list (string * pyobj))) : M pyobj :=
  (data <- attempt env "GET" path params None true true ;;
   if is_token_invalid data then
     c <- authenticate env ;;
     if is_success c then attempt env "GET" path params None true false
     else ret data
   else ret data)%client.

(** The [result] field of a response, an empty object when there is none. *)
Definition result_of (data : pyobj) : pyobj :=
  match data with
  | PDict d => from_option id (PDict []) (lookup_str "result" d)
  | _ => PDict []
  end.

(** A success response whose [result] is there and is not an object. *)
Definition result_not_object (data : pyobj) : bool :=
  is_success data && negb (isinstance_dict (result_of data)).

Definition with_token (s : TuyaOpenAPI) (tok : pyobj) : TuyaOpenAPI :=
  {| base_url := base_url s; access_id := access_id s;
     access_key := access_key s; access_token := tok |}.

(** The token a response to the token endpoint carries, if any. *)
Definition token_of (data : pyobj) : option pyobj :=
  if is_success data then
    match dict_get data "result" with
    | PDict r =>
        let tok := from_option id PNone (lookup_str "access_token" r) in
        if truthy tok then Some tok else None
    | _ => None
    end
  else None.

End TwoStep.

(** Counting the calls of a trace. *)
Definition is_connect (e : event) : bool :=
  match e with Enter_connect => true | _ => false end.
Definition is_request (e : event) : bool :=
  match e with Enter_request _ _ => true | _ => false end.
Definition is_retried (e : event) : bool :=
  match e with Enter_request true false => true | _ => false end.
Definition is_http (e : event) : bool :=
  match e with Requests_get _ _ => true | _ => false end.
Definition count (p : event -> bool) (tr : list event) : nat :=
  length (List.filter p tr).

(** A token the signer can use: falsy (then left out), or a string. *)
Definition signable (tok : pyobj) : bool :=
  negb (truthy tok) || isinstance_str tok.

(** [h[k]] for the headers of a request. *)
Fixpoint header (k : string) (h : headers) : option string :=
  match h with
  | [] => None
  | (k', v) :: h' => if String.eqb k k' then Some v else header k h'
  end.

(** The held token as the client is meant to hold it: none, or a string. *)
Definition held (token : option string) : pyobj :=
  match token with Some tok => PStr tok | None => PNone end.

End Spec.

(** ** Concrete inputs for the examples *)

Module Demo.

Definition demo_config : config :=
  {| ACCESS_ID := "id"; ACCESS_KEY := "key";
     BASE_URL := "https://openapi.tuyaeu.com";
     DEVICE_ID := "dev"; ENTITY_ID := "tuya_sensor" |}.

Definition door_87 : pydict :=
  [(PStr "doorcontact_state", PInt 1); (PStr "battery_percentage", PInt 87)].

(** A stand-in for the library that leaves the digested text readable. *)
Definition demo_lib : PyLib :=
  {| sha256_hexdigest := fun s => "sha256(" +:+ s +:+ ")";
     hmac_sha256_hexdigest :=
       fun key msg => "hmac(" +:+ key +:+ "," +:+ msg +:+ ")";
     json_dumps := fun _ => "{}";
     repr := fun _ => "" |}.

Definition demo_state : state :=
  {| self := __init__ "https://openapi.tuyaeu.com/" "id" "key";
     invocations := 0 |}.

Definition demo_clock (i : nat) : spec_float :=
  float_of_int (1700000000 + Z.of_nat i).
Definition demo_nonce (i : nat) : string := "00112233445566778899aabbccddeeff".

Definition json_response (x : pyobj) : response := Response 200 "" (Some x).

(** {"success": true, "result": null} *)
Definition null_result : pyobj :=
  PDict [(PStr "success", PBool true); (PStr "result", PNone)].

(** {"success": false, "code": 1010, "msg": "token invalid"} *)
Definition token_invalid : pyobj :=
  PDict [(PStr "success", PBool false); (PStr "code", PInt 1010);
         (PStr "msg", PStr "token invalid")].

(** {"success": true, "result": {"access_token": "tok", "expire_time": 7200}} *)
Definition token_granted : pyobj :=
  PDict [(PStr "success", PBool true);
         (PStr "result", PDict [(PStr "access_token", PStr "tok");
                                (PStr "expire_time", PInt 7200)])].

Definition env_of (answers : nat -> response) : environment :=
  {| time_time := demo_clock; token_hex := demo_nonce;
     requests_get := answers |}.

(** The token endpoint answers success with a null result. *)
Definition null_result_env : environment :=
  env_of (fun _ => json_response null_result).

(** The server is unreachable. *)
Definition timeout_env : environment :=
  env_of (fun _ => RequestException "timed out").

(** Token invalid, then a token, then token invalid again. *)
Definition refresh_env : environment :=
  env_of (fun i => match i with
                   | 1%nat => json_response token_granted
                   | _ => json_response token_invalid
                   end).

End Demo.

(** ** Notions for the properties of the remaining code *)

Module Cover.

Import Shadow Bridge.

(** What stops the [for item in props] loop at [item]: an item that is not
    a dict has no [get]; a code that is a list or a dict cannot be a key. *)
Definition item_error (item : pyobj) : option exn :=
  match item with
  | PDict _ => if hashable (dict_get item "code") then None else Some TypeError
  | _ => Some AttributeError
  end.

(** The error of the first item that has one. *)
Fixpoint first_error (items : list pyobj) : option exn :=
  match items with
  | [] => None
  | item :: items' =>
      match item_error item with
      | Some e => Some e
      | None => first_error items'
      end
  end.

(** The value of the last item of [items] whose code is the string [k]. *)
Fixpoint last_value (k : string) (items : list pyobj) : option pyobj :=
  match items with
  | [] => None
  | item :: items' =>
      match last_value k items' with
      | Some v => Some v
      | None =>
          match dict_get item "code" with
          | PStr k' => if String.eqb k k' then Some (dict_get item "value")
                       else None
          | _ => None
          end
      end
  end.

(** The [properties] field of a response whose result is an object, an
    empty list when there is none. *)
Definition properties_of (sh : pyobj) : pyobj :=
  match Spec.result_of sh with
  | PDict r => from_option id (PList []) (lookup_str "properties" r)
  | _ => PList []
  end.

(** A clock reading in units of 2^-44 s, an integer for every reading of
    256 s and more. *)
Definition clock_ticks (t : spec_float) : Z :=
  match t with
  | S754_finite s m e => (if s then Z.neg m else Z.pos m) * 2 ^ (e + 44)
  | _ => 0
  end.

(** [n] slashes. *)
Fixpoint slashes (n : nat) : string :=
  match n with
  | O => ""
  | S n' => String "/" (slashes n')
  end.

(** A call of [requests.get] goes to a URL under [base]. *)
Definition sent_under (base : string) (e : event) : Prop :=
  match e with
  | Requests_get url _ => ∃ rest, url = base +:+ rest
  | _ => True
  end.

(** What a method of the client leaves as it found it, from the state [st]
    it starts in to the outcome [out]: the base URL and the credentials;
    the token, unless it is replaced by a truthy one; one reading of the
    clock and one nonce for each frame of [_request] entered, and at most
    one call of [requests.get]; every call under the base URL. *)
Definition preserves_client {A} (st : state)
    (out : result A * state * list event) : Prop :=
  base_url (self out.1.2) = base_url (self st)
  ∧ access_id (self out.1.2) = access_id (self st)
  ∧ access_key (self out.1.2) = access_key (self st)
  ∧ (access_token (self out.1.2) = access_token (self st)
     ∨ truthy (access_token (self out.1.2)) = true)
  ∧ invocations out.1.2
    = (invocations st + Spec.count Spec.is_request out.2)%nat
  ∧ (Spec.count Spec.is_http out.2 <= Spec.count Spec.is_request out.2)%nat
  ∧ Forall (sent_under (base_url (self st))) out.2.

End Cover.

(** ** The configuration and the MQTT side of [main] *)

Module Env.

(** What stops the module while it reads its configuration:
    [os.environ[key]] for a variable that is not set, [int(text)] for a
    text the interpreter does not read as an integer. *)
Inductive error : Set :=
| KeyError (key : string)
| IntError (text : string).

Definition ebind {A B} (m : error + A) (k : A -> error + B) : error + B :=
  match m with inl e => inl e | inr a => k a end.

(** [os.environ[key]] *)
Definition item (environ : gmap string string) (key : string)
  : error + string :=
  match environ !! key with
  | Some v => inr v
  | None => inl (KeyError key)
  end.

(** [os.environ.get(key, default)] *)
Definition get (environ : gmap string string) (key default : string)
  : string :=
  from_option id default (environ !! key).

(** [int(text)], with the reading of integers by the interpreter as
    [parse]. *)
Definition int (parse : string -> option Z) (text : string) : error + Z :=
  match parse text with
  | Some n => inr n
  | None => inl (IntError text)
  end.

Definition REGION_HOSTS : gmap string string :=
  list_to_map [("eu", "https://openapi.tuyaeu.com");
               ("us", "https://openapi.tuyaus.com");
               ("cn", "https://openapi.tuyacn.com");
               ("in", "https://openapi.tuyain.com")].

(** line 124 *)
Definition BASE_URL_of (REGION : string) : string :=
  from_option id (REGION_HOSTS !!! "eu") (REGION_HOSTS !! REGION).

(** The globals of lines 98-124; [core] holds the ones the client and the
    loop use. *)
Record settings : Type := {
  core : config;
  REGION : string;
  USERNAME : string;
  COUNTRY_CODE : string;
  APP_SCHEMA : string;
  NAME : string;
  DEVICE_CLASS : string;
  POLL_INTERVAL : Z;
  MQTT_HOST : string;
  MQTT_PORT : Z;
  MQTT_USER : string;
  MQTT_PASSWORD : string;
  DPS_ACTIVE : option string;
  DPS_BATTERY : option string
}.

(** Lines 98-124, in the order they are run. *)
Definition load (parse : string -> option Z) (environ : gmap string string)
  : error + settings :=
  ebind (item environ "ACCESS_ID") (fun access_id =>
  ebind (item environ "ACCESS_KEY") (fun access_key =>
  let region := get environ "REGION" "eu" in
  let username := get environ "USERNAME" "" in
  let country_code := get environ "COUNTRY_CODE" "39" in
  let app_schema := get environ "APP_SCHEMA" "smartlife" in
  ebind (item environ "DEVICE_ID") (fun device_id =>
  let entity_id := get environ "ENTITY_ID" "tuya_sensor" in
  let name := get environ "NAME" "Tuya Sensor" in
  let device_class := get environ "DEVICE_CLASS" "opening" in
  ebind (int parse (get environ "POLL_INTERVAL" "20")) (fun poll_interval =>
  let mqtt_host := get environ "MQTT_HOST" "core-mosquitto" in
  ebind (int parse (get environ "MQTT_PORT" "1883")) (fun mqtt_port =>
  let mqtt_user := get environ "MQTT_USER" "" in
  let mqtt_password := get environ "MQTT_PASSWORD" "" in
  inr {| core := {| ACCESS_ID := access_id; ACCESS_KEY := access_key;
                    BASE_URL := BASE_URL_of region;
                    DEVICE_ID := device_id; ENTITY_ID := entity_id |};
         REGION := region; USERNAME := username;
         COUNTRY_CODE := country_code; APP_SCHEMA := app_schema;
         NAME := name; DEVICE_CLASS := device_class;
         POLL_INTERVAL := poll_interval; MQTT_HOST := mqtt_host;
         MQTT_PORT := mqtt_port; MQTT_USER := mqtt_user;
         MQTT_PASSWORD := mqtt_password;
         DPS_ACTIVE := environ !! "DPS_ACTIVE";
         DPS_BATTERY := environ !! "DPS_BATTERY" |}))))).

(** The variables the module reads with [os.environ[...]], and the ones it
    hands to [int], in the order of the lines. *)
Definition required : list string := ["ACCESS_ID"; "ACCESS_KEY"; "DEVICE_ID"].
Definition numbers : list (string * string) :=
  [("POLL_INTERVAL", "20"); ("MQTT_PORT", "1883")].

End Env.

Module Mqtt.

Import Env Bridge.

(** The calls made on the paho client. *)
Inductive call : Type :=
| Client (client_id : string) (clean_session : bool)
| username_pw_set (username : string) (password : option string)
| will_set (topic payload : string) (retain : bool)
| connect (host : string) (port keepalive : Z)
| loop_start
| publish (topic payload : string) (retain : bool).

(** [mqtt_connect]: the calls it makes, each one returning. *)
Definition mqtt_connect (s : settings) : list call :=
  [Client ("tuya-bridge-" +:+ ENTITY_ID (core s)) true]
  ++ (if negb (String.eqb (MQTT_USER s) "")
      then [username_pw_set (MQTT_USER s)
              (if negb (String.eqb (MQTT_PASSWORD s) "")
               then Some (MQTT_PASSWORD s) else None)]
      else [])
  ++ [will_set (AVAIL_TOPIC (core s)) "offline" true;
      connect (MQTT_HOST s) (MQTT_PORT s) 60;
      loop_start].

(** The dictionary [cfg] of [publish_discovery]. *)
Definition discovery_cfg (s : settings) : pyobj :=
  PDict [(PStr "name", PStr (NAME s));
         (PStr "unique_id", PStr (ENTITY_ID (core s)));
         (PStr "state_topic", PStr (STATE_TOPIC (core s)));
         (PStr "availability_topic", PStr (AVAIL_TOPIC (core s)));
         (PStr "device_class", PStr (DEVICE_CLASS s));
         (PStr "payload_on", PStr "ON");
         (PStr "payload_off", PStr "OFF");
         (PStr "device",
          PDict [(PStr "identifiers", PList [PStr (DEVICE_ID (core s))]);
                 (PStr "manufacturer", PStr "Tuya");
                 (PStr "name", PStr (NAME s));
                 (PStr "model", PStr "Cloud")])].

(** The dictionary [batt_cfg] of [publish_discovery]. *)
Definition discovery_batt_cfg (s : settings) : pyobj :=
  PDict [(PStr "name", PStr (NAME s +:+ " Battery"));
         (PStr "unique_id", PStr (ENTITY_ID (core s) +:+ "_battery"));
         (PStr "state_topic", PStr (BATT_TOPIC (core s)));
         (PStr "availability_topic", PStr (AVAIL_TOPIC (core s)));
         (PStr "unit_of_measurement", PStr "%");
         (PStr "device_class", PStr "battery");
         (PStr "entity_category", PStr "diagnostic");
         (PStr "device",
          PDict [(PStr "identifiers", PList [PStr (DEVICE_ID (core s))])])].

(** [publish_discovery], with [json.dumps] in its default setting as
    [dumps]. *)
Definition publish_discovery (dumps : pyobj -> string) (s : settings)
  : list call :=
  [publish ("homeassistant/binary_sensor/" +:+ ENTITY_ID (core s)
            +:+ "/config")
     (dumps (discovery_cfg s)) true;
   publish ("homeassistant/sensor/" +:+ ENTITY_ID (core s)
            +:+ "_battery/config")
     (dumps (discovery_batt_cfg s)) true].

(** [mqtt.publish(topic, payload, retain=True)], as the loop calls it. *)
Definition call_of (p : Bridge.publish) : call :=
  publish (topic p) (payload p) true.

(** The topics the two discovery documents announce. *)
Definition announced (s : settings) : list pyobj :=
  [dict_get (discovery_cfg s) "availability_topic";
   dict_get (discovery_cfg s) "state_topic";
   dict_get (discovery_batt_cfg s) "availability_topic";
   dict_get (discovery_batt_cfg s) "state_topic"].

End Mqtt.

(** ** More concrete inputs *)

Module Samples.

Import Demo.

(** {"success": true, "result": {"properties": [
      {"code": "doorcontact_state", "value": true},
      {"code": "battery_percentage", "value": 87}]}} *)
Definition shadow : pyobj :=
  PDict [(PStr "success", PBool true);
         (PStr "result",
          PDict [(PStr "properties",
                  PList [PDict [(PStr "code", PStr "doorcontact_state");
                                (PStr "value", PBool true)];
                         PDict [(PStr "code", PStr "battery_percentage");
                                (PStr "value", PInt 87)]])])].

(** The server answers with the shadow. *)
Definition shadow_env : environment :=
  env_of (fun _ => json_response shadow).

(** Token invalid, then a token, then the shadow. *)
Definition expiry_env : environment :=
  env_of (fun i => match i with
                   | 0%nat => json_response token_invalid
                   | 1%nat => json_response token_granted
                   | _ => json_response shadow
                   end).

(** Token invalid, then a success with a null result from the token
    endpoint. *)
Definition refresh_null_env : environment :=
  env_of (fun i => match i with
                   | 0%nat => json_response token_invalid
                   | _ => json_response null_result
                   end).

(** {"success": true, "result": {"access_token": 12345, "expire_time": 7200}} *)
Definition numeric_token_granted : pyobj :=
  PDict [(PStr "success", PBool true);
         (PStr "result", PDict [(PStr "access_token", PInt 12345);
                                (PStr "expire_time", PInt 7200)])].

(** Token invalid, then a token that is a number, then the shadow. *)
Definition numeric_token_env : environment :=
  env_of (fun i => match i with
                   | 0%nat => json_response token_invalid
                   | 1%nat => json_response numeric_token_granted
                   | _ => json_response shadow
                   end).

(** U+00A0 and U+2003 in UTF-8 *)
Definition nbsp : string :=
  String (Ascii.ascii_of_N 194) (String (Ascii.ascii_of_N 160) "").
Definition em_space : string :=
  String (Ascii.ascii_of_N 226)
    (String (Ascii.ascii_of_N 128) (String (Ascii.ascii_of_N 131) "")).

(** {"battery_percentage": 1e400, "battery": 50}, the float being what
    [json.loads] makes of 1e400. *)
Definition infinite_percentage : pydict :=
  [(PStr "battery_percentage", PFloat (S754_infinity false));
   (PStr "battery", PInt 50)].

(** {"doorcontact_state": true, "battery_percentage": 1e400} *)
Definition contact_and_infinite_percentage : pydict :=
  [(PStr "doorcontact_state", PBool true);
   (PStr "battery_percentage", PFloat (S754_infinity false))].

Definition online_since (t : spec_float) : Bridge.loop_state :=
  {| Bridge.last_ok := t; Bridge.avail_state := "online" |}.

End Samples.

(** * Properties *)

Section Topics.

Variable cfg : config.



Lemma BATT_TOPIC_not_state : BATT_TOPIC cfg ≠ STATE_TOPIC cfg.
Proof.
  unfold BATT_TOPIC, STATE_TOPIC.
  intros Heq. by do 2 apply (inj (String.app _)) in Heq.
Qed.

Lemma AVAIL_TOPIC_not_state : AVAIL_TOPIC cfg ≠ STATE_TOPIC cfg.
Proof.
  unfold AVAIL_TOPIC, STATE_TOPIC.
  intros Heq. by do 2 apply (inj (String.app _)) in Heq.
Qed.

End Topics.

Section Extractor.

Import Shadow Spec.

Lemma present_bool_int k by_code v :
  present isinstance_bool_int k by_code = Some v ->
  lookup_str k by_code = Some v ∧ as_contact v = Some (truthy v).
Proof.
  unfold present. destruct (lookup_str k by_code) as [w|]; [|done].
  destruct w; simpl; intros [= <-]; done.
Qed.

Lemma present_bool_int_None k by_code :
  present isinstance_bool_int k by_code = None -> ¬ candidate by_code k.
Proof.
  unfold present. intros Hp [b [v [Hl Hc]]]. rewrite Hl in Hp.
  destruct v; simpl in *; done.
Qed.

Lemma resolves_present by_code k b :
  resolves by_code k b ->
  ∃ v, present isinstance_bool_int k by_code = Some v ∧ truthy v = b.
Proof.
  intros [v [Hl Hc]]. exists v. unfold present. rewrite Hl.
  destruct v; simpl in *; simplify_eq; done.
Qed.

Lemma pick_boolean_in_Some codes by_code b :
  pick_boolean_in codes by_code = Some b <->
  ∃ before k after,
    codes = before ++ k :: after ∧ resolves by_code k b ∧
    ∀ k', k' ∈ before -> ¬ candidate by_code k'.
Proof.
  induction codes as [|k codes IH]; simpl.
  - split; [done|]. intros (before & k & after & Heq & _).
    by destruct before.
  - destruct (present isinstance_bool_int k by_code) as [v|] eqn:Hp.
    + apply present_bool_int in Hp as [Hl Hc]. split.
      * intros [= <-]. exists [], k, codes. split; [done|]. split.
        -- by exists v.
        -- intros k' Hin. by apply elem_of_nil in Hin.
      * intros (before & k0 & after & Heq & Hres & Hno).
        destruct before as [|k1 before]; simpl in Heq; simplify_eq.
        -- destruct Hres as [v' [Hl' Hc']]. congruence.
        -- exfalso. apply (Hno k1); [left|]. exists (truthy v), v. done.
    + rewrite IH. split.
      * intros (before & k0 & after & -> & Hres & Hno).
        exists (k :: before), k0, after. split; [done|]. split; [done|].
        intros k' [->|Hin]%elem_of_cons; [|by apply Hno].
        by apply present_bool_int_None.
      * intros (before & k0 & after & Heq & Hres & Hno).
        destruct before as [|k1 before]; simpl in Heq; simplify_eq.
        -- apply resolves_present in Hres as [v [Hv _]]. congruence.
        -- exists before, k0, after. split; [done|]. split; [done|].
           intros k' Hin. apply Hno. by right.
Qed.

Lemma pick_boolean_in_None codes by_code :
  pick_boolean_in codes by_code = None <->
  ∀ k, k ∈ codes -> ¬ candidate by_code k.
Proof.
  induction codes as [|k codes IH]; simpl.
  - split; [|done]. intros _ k Hin. by apply elem_of_nil in Hin.
  - destruct (present isinstance_bool_int k by_code) as [v|] eqn:Hp.
    + apply present_bool_int in Hp as [Hl Hc]. split; [done|].
      intros Hno. exfalso. apply (Hno k); [left|]. by exists (truthy v), v.
    + rewrite IH. split.
      * intros Hno k' [->|Hin]%elem_of_cons; [|by apply Hno].
        by apply present_bool_int_None.
      * intros Hno k' Hin. apply Hno. by right.
Qed.

(** C5.  [pick_boolean] scans the priority list doorcontact_state,
    contact_state, contact, door, open, switch_1, switch in this order: it
    returns [b] exactly when some code of the list is present with a
    boolean-or-integer value resolving to [b] (an integer through
    nonzero-is-true) and no earlier code of the list is present with such a
    value; it returns nothing exactly when no code of the list is.  The
    snapshot {doorcontact_state: true, switch_1: false} resolves to true. *)
Theorem pick_boolean_first_match :
  boolean_codes =
    ["doorcontact_state"; "contact_state"; "contact"; "door"; "open";
     "switch_1"; "switch"]
  ∧ (∀ by_code b,
       pick_boolean by_code = Some b <->
       ∃ before k after,
         boolean_codes = before ++ k :: after ∧ resolves by_code k b ∧
         ∀ k', k' ∈ before -> ¬ candidate by_code k')
  ∧ (∀ by_code,
       pick_boolean by_code = None <->
       ∀ k, k ∈ boolean_codes -> ¬ candidate by_code k)
  ∧ (∀ cfg by_code now st p,
       pick_boolean by_code = None ->
       p ∈ (Bridge.after_fetch cfg (Ok by_code) now st).2 ->
       Bridge.topic p ≠ STATE_TOPIC cfg)
  ∧ pick_boolean [(PStr "doorcontact_state", PBool true);
                  (PStr "switch_1", PBool false)] = Some true.
Proof.
  split; [done|]. split; [|split; [|split; [|done]]].
  - intros. apply pick_boolean_in_Some.
  - intros. apply pick_boolean_in_None.
  - intros cfg by_code now st p Hnone. unfold Bridge.after_fetch.
    rewrite Hnone.
    assert (∀ l : list Bridge.publish,
              p ∈ (if negb (String.eqb (Bridge.avail_state st) "online")
                   then [{| Bridge.topic := AVAIL_TOPIC cfg;
                            Bridge.payload := "online" |}]
                   else []) ++ l ->
              (p ∈ l -> Bridge.topic p ≠ STATE_TOPIC cfg) ->
              Bridge.topic p ≠ STATE_TOPIC cfg) as Havail.
    { intros l [Hin|Hin]%elem_of_app Hl; [|by apply Hl].
      destruct (negb _); [|by apply elem_of_nil in Hin].
      apply list_elem_of_singleton in Hin as ->.
      apply AVAIL_TOPIC_not_state. }
    destruct (truthy (PDict by_code)).
    + destruct (pick_battery by_code) as [[n|]|e]; simpl.
      * intros Hin. apply (Havail _ Hin).
        intros ->%list_elem_of_singleton. apply BATT_TOPIC_not_state.
      * intros Hin. apply (Havail _ Hin).
        intros Hnil. by apply elem_of_nil in Hnil.
      * intros Hin. rewrite <- (app_nil_r _) in Hin. apply (Havail _ Hin).
        intros Hnil. by apply elem_of_nil in Hnil.
    + destruct (_ && _); simpl.
      * intros ->%list_elem_of_singleton. apply AVAIL_TOPIC_not_state.
      * intros Hnil. by apply elem_of_nil in Hnil.
Qed.

Lemma lookup_str_finite k by_code v :
  all_finite by_code = true -> lookup_str k by_code = Some v ->
  finite v = true.
Proof.
  unfold all_finite. induction by_code as [|[k' w] d IH]; simpl; [done|].
  intros [Hw Hd]%andb_prop Hl.
  destruct k'; try (by apply IH).
  destruct (String.eqb k s); [by simplify_eq | by apply IH].
Qed.

Lemma trunc_float_truncate s m e :
  truncate (S754_finite s m e) = Some (trunc_float s m e).
Proof.
  unfold truncate, trunc_float. f_equal.
  destruct (Z.leb_spec 0 e) as [He|He].
  - destruct s; [|done]. change (Z.neg m) with (- Z.pos m). lia.
  - assert (0 < 2 ^ (- e)) by (apply Z.pow_pos_nonneg; lia).
    destruct s.
    + change (Z.neg m) with (- Z.pos m).
      rewrite Z.quot_opp_l by lia. f_equal.
      apply Z.quot_div_nonneg; lia.
    + apply Z.quot_div_nonneg; lia.
Qed.

(** The integer [int(f)] is the one closest to the float's value among those
    not larger in magnitude. *)
Lemma trunc_float_toward_zero s m e :
  let n := trunc_float s m e in
  (if s then n <= 0 else 0 <= n)
  ∧ if 0 <=? e then Z.abs n = Z.pos m * 2 ^ e
    else Z.abs n * 2 ^ (- e) <= Z.pos m < (Z.abs n + 1) * 2 ^ (- e).
Proof.
  unfold trunc_float. destruct (Z.leb_spec 0 e) as [He|He].
  - assert (0 <= 2 ^ e) by (apply Z.pow_nonneg; lia).
    destruct s; simpl; split; nia.
  - assert (Hd : 0 < 2 ^ (- e)) by (apply Z.pow_pos_nonneg; lia).
    pose proof (Z.div_pos (Z.pos m) _ ltac:(lia) Hd) as Hq.
    pose proof (Z.mul_div_le (Z.pos m) _ Hd) as Hlo.
    pose proof (Z.mul_succ_div_gt (Z.pos m) _ Hd) as Hhi.
    destruct s; simpl; (split; [lia|]).
    + rewrite Z.abs_opp, Z.abs_eq by lia. lia.
    + rewrite Z.abs_eq by lia. lia.
Qed.

Lemma int_numeric v :
  isinstance_int_float v = true -> finite v = true ->
  ∃ n, int_ v = Ok n ∧ numeric v = Some n.
Proof.
  destruct v as [|b|z|f|s|l|d]; simpl; try done.
  - intros _ _. exists (Z.b2z b). by destruct b.
  - intros _ _. by exists z.
  - intros _. destruct f as [s|s| |s m e]; simpl; try done.
    + intros _. by exists 0.
    + intros _. exists (trunc_float s m e). split; [done|].
      apply trunc_float_truncate.
Qed.

Lemma numeric_None_not_instance v :
  isinstance_int_float v = false -> numeric v = None.
Proof. by destruct v. Qed.

Lemma m_get_categorical s : m_get s m = categorical s.
Proof.
  unfold m, categorical; simpl.
  destruct (String.eqb s "low"); [done|].
  destruct (String.eqb s "middle"); [done|].
  destruct (String.eqb s "medium"); [done|].
  by destruct (String.eqb s "high").
Qed.

Lemma present_numeric k by_code :
  all_finite by_code = true ->
  match present isinstance_int_float k by_code with
  | Some v =>
      ∃ n, int_ v = Ok n ∧ lookup_str k by_code ≫= numeric = Some n
  | None => lookup_str k by_code ≫= numeric = None
  end.
Proof.
  intros Hfin. unfold present.
  destruct (lookup_str k by_code) as [v|] eqn:Hl; [|done]. simpl.
  destruct (isinstance_int_float v) eqn:Hi.
  - apply int_numeric; [done|]. by eapply lookup_str_finite.
  - by apply numeric_None_not_instance.
Qed.

(** The resolution on finite numbers (what C6 says, where the code does
    it).  On a snapshot of finite numbers [pick_battery] returns, and what
    it returns is the battery resolution of the specification: the numeric
    battery_percentage truncated to an integer, else the numeric battery
    truncated likewise, else the string battery_state trimmed, case-folded
    and mapped through low 20, middle 60, medium 60, high 100; absent for a
    string outside these and when none of the three codes applies.  Numeric
    is what [isinstance(v, (int, float))] accepts, a [bool] as 0 or 1.
    {battery_state: "Low "} gives 20 and {battery_state: "unknown"} gives
    no battery. *)
Theorem pick_battery_resolution :
  (∀ by_code,
     all_finite by_code = true ->
     pick_battery by_code = Ok (battery by_code))
  ∧ pick_battery [(PStr "battery_state", PStr "Low ")] = Ok (Some 20)
  ∧ pick_battery [(PStr "battery_state", PStr "unknown")] = Ok None.
Proof.
  split; [|done].
  intros by_code Hfin. unfold pick_battery, battery.
  pose proof (present_numeric "battery_percentage" by_code Hfin) as H1.
  destruct (present isinstance_int_float "battery_percentage" by_code).
  { destruct H1 as (n & -> & ->). done. }
  rewrite H1.
  pose proof (present_numeric "battery" by_code Hfin) as H2.
  destruct (present isinstance_int_float "battery" by_code).
  { destruct H2 as (n & -> & ->). done. }
  rewrite H2. unfold present.
  destruct (lookup_str "battery_state" by_code) as [v|]; [|done].
  destruct v; try done. cbn [isinstance_str].
  by rewrite m_get_categorical.
Qed.

(** -2.75 truncates to -2, and a string in a numeric code is passed over. *)
Example pick_battery_truncates :
  pick_battery [(PStr "battery_percentage", PStr "87");
                (PStr "battery", PFloat (S754_finite true 11 (-2)))]
  = Ok (Some (-2))
  ∧ pick_battery [(PStr "battery_percentage", PFloat S754_nan)]
    = Raise ValueError.
Proof. split; reflexivity. Qed.

Lemma pick_battery_resolution_witness :
  all_finite [(PStr "battery", PFloat (S754_finite false 175 (-1)));
              (PStr "battery_state", PStr "high")] = true
  ∧ pick_battery [(PStr "battery", PFloat (S754_finite false 175 (-1)));
                  (PStr "battery_state", PStr "high")] = Ok (Some 87).
Proof.
  split; [reflexivity|].
  exact (proj1 pick_battery_resolution
           [(PStr "battery", PFloat (S754_finite false 175 (-1)));
            (PStr "battery_state", PStr "high")] eq_refl).
Defined.

(** White space outside ASCII is trimmed as well: "low" followed by a
    no-break space (U+00A0) is low. *)
Example pick_battery_trims_no_break_space :
  pick_battery [(PStr "battery_state", PStr ("low" +:+ Samples.nbsp))]
  = Ok (Some 20)
  ∧ strip (Samples.nbsp +:+ " High " +:+ Samples.em_space) = "High".
Proof. split; reflexivity. Qed.

(** C6.  [pick_battery] does not resolve every snapshot: on
    {"battery_percentage": 1e400, "battery": 50}, the first value being the
    infinite float [json.loads] makes of 1e400, it raises OverflowError,
    where it is to give a battery or none: the value passes the test
    [isinstance(v, (int, float))], and [int] of it is not guarded. *)
Theorem pick_battery_raises_on_infinite_percentage :
  lookup_str "battery_percentage" Samples.infinite_percentage
  = Some (PFloat (S754_infinity false))
  ∧ isinstance_int_float (PFloat (S754_infinity false)) = true
  ∧ int_ (PFloat (S754_infinity false)) = Raise OverflowError
  ∧ pick_battery Samples.infinite_percentage = Raise OverflowError
  ∧ ∀ batt, pick_battery Samples.infinite_percentage ≠ Ok batt.
Proof. by repeat split. Qed.

End Extractor.

Section Publishing.

Import Shadow Bridge Spec Demo.

Lemma truthy_dict_nonempty (d : pydict) : d ≠ [] -> truthy (PDict d) = true.
Proof. by destruct d. Qed.

Lemma after_fetch_data cfg by_code now st batt :
  by_code ≠ [] -> pick_battery by_code = Ok batt ->
  after_fetch cfg (Ok by_code) now st =
    ({| last_ok := now; avail_state := "online" |},
     (if String.eqb (avail_state st) "online" then []
      else [avail_publish cfg "online"])
     ++ value_publishes cfg (pick_boolean by_code) batt).
Proof.
  intros Hne Hb. unfold after_fetch.
  rewrite (truthy_dict_nonempty _ Hne), Hb.
  f_equal. unfold value_publishes, contact_payload.
  by destruct (String.eqb (avail_state st) "online").
Qed.

(** What a pass publishes when the extraction completes (what C8 says,
    where the code does it).  A pass whose fetch gives a non-empty
    snapshot, and whose extraction completes, publishes after the
    availability change (if any)
    the contact found as ON or OFF and the battery found as its decimal
    digits, each whether or not the other was found, and whatever was
    published before: two such passes in a row publish the values of both,
    so equal extracted values are published twice with equal payloads. *)
Theorem successful_tick_publishes (cfg : config) (st : loop_state)
    (d1 d2 : pydict) (now1 now2 : spec_float) (batt1 batt2 : option Z) :
  d1 ≠ [] -> d2 ≠ [] ->
  pick_battery d1 = Ok batt1 -> pick_battery d2 = Ok batt2 ->
  let avail := if String.eqb (avail_state st) "online" then []
               else [avail_publish cfg "online"] in
  let pubs := (after_fetch cfg (Ok d1) now1 st).2 in
  pubs = avail ++ value_publishes cfg (pick_boolean d1) batt1
  ∧ (∀ b, pick_boolean d1 = Some b ->
          {| topic := STATE_TOPIC cfg;
             payload := if b then "ON" else "OFF" |} ∈ pubs)
  ∧ (∀ n, batt1 = Some n ->
          {| topic := BATT_TOPIC cfg; payload := str_int n |} ∈ pubs)
  ∧ (run cfg [(Ok d1, now1); (Ok d2, now2)] st).2 =
      avail ++ value_publishes cfg (pick_boolean d1) batt1
            ++ value_publishes cfg (pick_boolean d2) batt2.
Proof.
  intros Hn1 Hn2 Hb1 Hb2 avail pubs. subst pubs.
  pose proof (after_fetch_data cfg d1 now1 st batt1 Hn1 Hb1) as E1.
  fold avail in E1.
  split; [by rewrite E1|]. split; [|split].
  - intros b Hb. rewrite E1, Hb. apply elem_of_app. right. by left.
  - intros n ->. rewrite E1. apply elem_of_app. right.
    apply elem_of_app. right. by left.
  - cbn [run]. rewrite E1.
    rewrite (after_fetch_data _ _ _ _ _ Hn2 Hb2). simpl.
    by rewrite app_nil_r, app_assoc.
Qed.

Lemma successful_tick_publishes_witness :
  (after_fetch demo_config (Ok door_87) (demo_clock 20)
     (Samples.online_since (demo_clock 0))).2 =
    [{| topic := "tuya/tuya_sensor/state"; payload := "ON" |};
     {| topic := "tuya/tuya_sensor/battery"; payload := "87" |}]
  ∧ (run demo_config [(Ok door_87, demo_clock 20); (Ok door_87, demo_clock 40)]
       (Samples.online_since (demo_clock 0))).2 =
    [{| topic := "tuya/tuya_sensor/state"; payload := "ON" |};
     {| topic := "tuya/tuya_sensor/battery"; payload := "87" |};
     {| topic := "tuya/tuya_sensor/state"; payload := "ON" |};
     {| topic := "tuya/tuya_sensor/battery"; payload := "87" |}].
Proof.
  pose proof (successful_tick_publishes demo_config
                (Samples.online_since (demo_clock 0))
                door_87 door_87 (demo_clock 20) (demo_clock 40)
                (Some 87) (Some 87)
                ltac:(discriminate) ltac:(discriminate)
                eq_refl eq_refl) as (H1 & _ & _ & H2).
  split; [exact H1 | exact H2].
Defined.

(** C8.  Not every pass with a non-empty snapshot publishes the values
    found: with {"doorcontact_state": true, "battery_percentage": 1e400}
    the contact is found, the extraction of the battery raises
    OverflowError, and the pass publishes nothing, the contact state
    included, although it counts as a successful read. *)
Theorem contact_dropped_when_battery_raises :
  pick_boolean Samples.contact_and_infinite_percentage = Some true
  ∧ pick_battery Samples.contact_and_infinite_percentage
    = Raise OverflowError
  ∧ after_fetch demo_config (Ok Samples.contact_and_infinite_percentage)
      (demo_clock 20) (Samples.online_since (demo_clock 0))
    = (Samples.online_since (demo_clock 20), [])
  ∧ {| topic := STATE_TOPIC demo_config; payload := "ON" |}
    ∉ (after_fetch demo_config (Ok Samples.contact_and_infinite_percentage)
         (demo_clock 20) (Samples.online_since (demo_clock 0))).2.
Proof.
  split; [done|]. split; [done|]. split; [done|].
  intros Hin. by apply elem_of_nil in Hin.
Qed.

End Publishing.

Section Canonical.

(** [sorted] orders by a total order in which equal means identical, so
    its result depends on the items only, not on their order. *)

#[local] Instance tuple_le_total : Total tuple_le.
Proof.
  intros [k1 v1] [k2 v2]. unfold tuple_le; simpl.
  destruct (decide (k1 = k2)) as [->|Hk].
  - destruct (total String.le v1 v2); [left|right]; by right.
  - destruct (total String.le k1 k2); [left|right]; left; split; auto.
Qed.

#[local] Instance tuple_le_trans : Transitive tuple_le.
Proof.
  intros [k1 v1] [k2 v2] [k3 v3]. unfold tuple_le; simpl.
  intros [[Hn12 H12]|[-> H12]] [[Hn23 H23]|[-> H23]].
  - left. split; [|by etrans]. intros ->.
    apply Hn12. by apply (anti_symm String.le).
  - by left.
  - by left.
  - right. split; [done|]. by etrans.
Qed.

#[local] Instance tuple_le_antisym : AntiSymm (=) tuple_le.
Proof.
  intros [k1 v1] [k2 v2]. unfold tuple_le; simpl.
  intros [[Hn12 H12]|[-> H12]] [[Hn21 H21]|[Heq H21]]; try done.
  - exfalso. apply Hn12. by apply (anti_symm String.le).
  - f_equal. by apply (anti_symm String.le).
Qed.

Lemma sorted_Permutation l1 l2 : l1 ≡ₚ l2 -> sorted l1 = sorted l2.
Proof.
  intros Hl. unfold sorted.
  apply (Sorted_unique tuple_le); [apply Sorted_merge_sort, _..|].
  by rewrite !merge_sort_Permutation.
Qed.

Lemma sorted_Sorted l : Sorted tuple_le (sorted l).
Proof. apply Sorted_merge_sort, _. Qed.

Lemma sorted_items l : sorted l ≡ₚ l.
Proof. apply merge_sort_Permutation. Qed.

Lemma tuple_le_fst a b : tuple_le a b -> String.le a.1 b.1.
Proof. intros [[_ ?]|[-> _]]; [done|reflexivity]. Qed.

Lemma Sorted_keys l : Sorted tuple_le l -> Sorted String.le (map fst l).
Proof.
  induction 1 as [|a l Hl IH Hhd]; simpl; constructor; [done|].
  destruct Hhd; simpl; constructor. by apply tuple_le_fst.
Qed.

End Canonical.

Section ClientProps.

Context `{PyLib}.
Import Spec.

Local Arguments _request : simpl never.
Local Arguments prepare : simpl never.
Local Arguments upper : simpl never.
Local Arguments normalize_path : simpl never.
Local Arguments attempt : simpl never.
Local Arguments authenticate : simpl never.

Ltac count_events :=
  cbn; repeat split; try done; try lia; try (intros; discriminate).

Ltac run_client :=
  unfold bind, ret, Client.raise, lift, emit, get_self, next_invocation,
    set_access_token; simpl.

Lemma upper_char_idem c : upper_char (upper_char c) = upper_char c.
Proof. by destruct c as [[] [] [] [] [] [] [] []]. Qed.

Lemma upper_idem s : upper (upper s) = upper s.
Proof.
  unfold upper. induction s as [|c s IH]; simpl; [done|].
  by rewrite upper_char_idem, IH.
Qed.

Lemma normalize_path_idem p :
  normalize_path (normalize_path p) = normalize_path p.
Proof.
  unfold normalize_path at 2 3.
  destruct (startswith_slash p) eqn:Hp.
  - unfold normalize_path. by rewrite Hp.
  - done.
Qed.

Lemma _request_unfold env depth method path params body use_token retry :
  _request env (S depth) method path params body use_token retry =
  (emit (Enter_request use_token retry) ;;;
   i <- next_invocation ;;
   self <- get_self ;;
   rq <- lift (prepare self (upper method) (normalize_path path) params body
                       use_token (time_time env i) (token_hex env i)) ;;
   emit (Requests_get rq.1 rq.2) ;;;
   match requests_get env i with
   | RequestException e => ret (http_error e)
   | Response status_code text json =>
       let data := from_option id (non_json status_code text) json in
       if use_token && is_token_invalid data && retry then
         c <- connect env depth ;;
         if is_success c then
           _request env depth (upper method) (normalize_path path) params
             body true false
         else ret data
       else ret data
   end)%client.
Proof. reflexivity. Qed.

(** Without a token in use, or with [retry] off, [_request] is one attempt. *)
Lemma _request_attempt env depth method path params body use_token retry st :
  use_token && retry = false ->
  _request env (S depth) method path params body use_token retry st =
  attempt env method path params body use_token retry st.
Proof.
  intros Hur. rewrite _request_unfold. unfold attempt. run_client.
  destruct (prepare _ _ _ _ _ _ _ _) as [rq|e]; simpl; [|done].
  destruct (requests_get env (invocations st)) as [e|sc text js]; simpl;
    [done|].
  destruct use_token, retry; simpl in *; try done.
  all: by rewrite ?andb_false_r.
Qed.

Lemma attempt_run env method path params body use_token retry st :
  attempt env method path params body use_token retry st =
  match prepare (self st) (upper method) (normalize_path path) params body
          use_token (time_time env (invocations st))
          (token_hex env (invocations st)) with
  | Ok rq =>
      (Ok (response_data (requests_get env (invocations st))), bump st,
       [Enter_request use_token retry; Requests_get rq.1 rq.2])
  | Raise e => (Raise e, bump st, [Enter_request use_token retry])
  end.
Proof.
  unfold attempt. run_client.
  by destruct (prepare _ _ _ _ _ _ _ _) as [rq|e].
Qed.

Lemma connect_authenticate env depth st :
  connect env (S depth) st = authenticate env st.
Proof.
  unfold connect, authenticate, connect_with. run_client.
  by rewrite _request_attempt.
Qed.

(** [get] is the two-step sequence as soon as two nested frames of
    [_request] are allowed. *)
Lemma get_is_two_step env depth path params st :
  Client.get env (S (S depth)) path params st = get_two_step env path params st.
Proof.
  unfold Client.get, get_two_step. unfold bind at 1.
  rewrite attempt_run, _request_unfold. run_client.
  destruct (prepare _ _ _ _ _ _ _ _) as [rq|e]; simpl; [|done].
  destruct (requests_get env (invocations st)) as [e|sc text js]; simpl;
    [done|].
  destruct (is_token_invalid _); simpl; [|done].
  rewrite connect_authenticate.
  unfold bump.
  destruct (authenticate env _) as [[[c|e] st1] tr1]; simpl; [|done].
  destruct (is_success c); simpl; [|done].
  rewrite _request_attempt by done.
  rewrite !attempt_run, upper_idem, normalize_path_idem.
  by destruct (prepare _ _ _ _ _ _ _ _).
Qed.

Lemma prepare_unauthenticated self method path params body now nonce :
  prepare self method path params body false now nonce =
  Ok (base_url self +:+ full_path path params,
      make_headers self false
        (sign_of self
           (access_id self +:+ timestamp now +:+ nonce +:+
            Client.string_to_sign method body (full_path path params)))
        (timestamp now) nonce (body_str method body)).
Proof. reflexivity. Qed.

(** [connect] in one piece: the request sent, the token kept or replaced,
    the response returned or the exception raised. *)
Lemma authenticate_run env st :
  let i := invocations st in
  let data := response_data (requests_get env i) in
  ∃ url h,
    prepare (self st) "GET" "/v1.0/token" (Some [("grant_type", PInt 1)])
      None false (time_time env i) (token_hex env i) = Ok (url, h)
    ∧ authenticate env st =
      (if result_not_object data then Raise AttributeError else Ok data,
       {| self := match token_of data with
                  | Some tok => with_token (self st) tok
                  | None => self st
                  end;
          invocations := S i |},
       [Enter_connect; Enter_request false true; Requests_get url h]).
Proof.
  intros i data. eexists _, _. split; [apply prepare_unauthenticated|].
  unfold authenticate, connect_with. run_client. fold i. fold data.
  unfold result_not_object, token_of, result_of.
  destruct (is_success data) eqn:Hs; simpl; [|done].
  destruct data as [| | | | | |d]; try done. simpl.
  destruct (lookup_str "result" d) as [r|]; simpl; [|done].
  destruct r as [| | | | | |r]; simpl; try done.
  by destruct (truthy (default PNone (lookup_str "access_token" r))).
Qed.

Lemma prepare_signable self method path params body use_token now nonce :
  signable (access_token self) = true ->
  ∃ rq, prepare self method path params body use_token now nonce = Ok rq.
Proof.
  unfold signable, prepare, Client.message. intros Hs.
  destruct use_token; simpl; [|by eexists].
  destruct (truthy (access_token self)) eqn:Ht; simpl in *; [|by eexists].
  destruct (access_token self); try done. by eexists.
Qed.

Lemma prepare_not_signable self method path params body now nonce :
  signable (access_token self) = false ->
  prepare self method path params body true now nonce = Raise TypeError.
Proof.
  unfold signable, prepare, Client.message. intros Hs. simpl.
  destruct (truthy (access_token self)) eqn:Ht; simpl in *; [|done].
  by destruct (access_token self).
Qed.

(** A request whose response does not call for a refresh is one attempt. *)
Lemma _request_no_refresh env depth method path params body use_token retry st :
  use_token
  && is_token_invalid (response_data (requests_get env (invocations st)))
  && retry = false ->
  _request env (S depth) method path params body use_token retry st =
  attempt env method path params body use_token retry st.
Proof.
  intros Hc. rewrite _request_unfold, attempt_run. run_client.
  destruct (prepare _ _ _ _ _ _ _ _) as [rq|e]; simpl; [|done].
  destruct (requests_get env (invocations st)) as [e|sc text js]; simpl;
    [done|].
  simpl in Hc. by rewrite Hc.
Qed.

(** [get] in one piece, case by case. *)
Lemma get_run env depth path params st :
  let i := invocations st in
  let data := response_data (requests_get env i) in
  let c := response_data (requests_get env (S i)) in
  let self1 := match token_of c with
               | Some tok => with_token (self st) tok
               | None => self st
               end in
  let reauth := [Enter_connect; Enter_request false true] in
  Client.get env (S (S depth)) path params st =
  match prepare (self st) "GET" (normalize_path path) params None true
          (time_time env i) (token_hex env i) with
  | Raise e => (Raise e, bump st, [Enter_request true true])
  | Ok rq =>
      let sent := [Enter_request true true; Requests_get rq.1 rq.2] in
      if is_token_invalid data then
        match prepare (self st) "GET" "/v1.0/token"
                (Some [("grant_type", PInt 1)]) None false
                (time_time env (S i)) (token_hex env (S i)) with
        | Raise e => (Raise e, bump st, sent)
        | Ok rqc =>
            let st1 := {| self := self1; invocations := S (S i) |} in
            let tr1 := sent ++ reauth ++ [Requests_get rqc.1 rqc.2] in
            if result_not_object c then (Raise AttributeError, st1, tr1)
            else if is_success c then
              match prepare self1 "GET" (normalize_path path) params None
                      true (time_time env (S (S i)))
                      (token_hex env (S (S i))) with
              | Ok rq3 =>
                  (Ok (response_data (requests_get env (S (S i)))), bump st1,
                   tr1 ++ [Enter_request true false;
                           Requests_get rq3.1 rq3.2])
              | Raise e =>
                  (Raise e, bump st1, tr1 ++ [Enter_request true false])
              end
            else (Ok data, st1, tr1)
        end
      else (Ok data, bump st, sent)
  end.
Proof.
  intros i data c self1 reauth. rewrite get_is_two_step.
  unfold get_two_step. unfold bind. rewrite attempt_run.
  change (upper "GET") with "GET". fold i.
  destruct (prepare _ _ _ _ _ _ _ _) as [rq|e]; [|done].
  fold data. destruct (is_token_invalid data); [|done].
  destruct (authenticate_run env (bump st)) as (url & h & Hp & ->).
  cbn [bump invocations self] in *. fold i in Hp |- *. fold c self1.
  rewrite Hp.
  destruct (result_not_object c) eqn:Hr; [done|].
  destruct (is_success c).
  - rewrite attempt_run. change (upper "GET") with "GET".
    cbn [invocations self].
    destruct (prepare self1 _ _ _ _ _ _ _); reflexivity.
  - reflexivity.
Qed.

(** A request that can be signed is sent first thing. *)
Lemma _request_sends env depth method path params body use_token retry st rq :
  prepare (self st) (upper method) (normalize_path path) params body
    use_token (time_time env (invocations st))
    (token_hex env (invocations st)) = Ok rq ->
  ∃ rest,
    (_request env (S depth) method path params body use_token retry st).2 =
    Enter_request use_token retry :: Requests_get rq.1 rq.2 :: rest.
Proof.
  intros Hp. rewrite _request_unfold. run_client. rewrite Hp. simpl.
  destruct (requests_get env (invocations st)) as [e|sc text js]; simpl;
    [by eexists|].
  destruct (_ && _ && _); simpl; [|by eexists].
  destruct (connect env depth _) as [[[c|e] st1] tr1]; simpl; [|by eexists].
  destruct (is_success c); simpl; [|by eexists].
  destruct (_request env depth _ _ _ _ _ _ _) as [[r2 st2] tr2]; simpl.
  by eexists.
Qed.

Lemma content_hash_body_str METHOD body :
  sha256_hexdigest (body_str METHOD body) = content_hash METHOD body.
Proof.
  unfold body_str, content_hash. destruct body; [|done].
  by destruct (String.eqb METHOD "GET").
Qed.

Lemma message_reference self token use_token t nonce sts :
  access_token self = held token ->
  Client.message self use_token t nonce sts =
  Ok (Spec.message (access_id self) (if use_token then token else None)
        t nonce sts).
Proof.
  unfold Client.message, Spec.message. intros ->.
  destruct use_token; [|done]. destruct token as [tok|]; [|done].
  simpl. by destruct tok.
Qed.

Lemma prepare_reference self token method path params body use_token now nonce :
  access_token self = held token ->
  ∃ url h,
    prepare self method path params body use_token now nonce = Ok (url, h)
    ∧ url = base_url self +:+ full_path path params
    ∧ header "client_id" h = Some (access_id self)
    ∧ header "sign" h =
        Some (sign method (full_path path params) body (timestamp now) nonce
                (access_id self) (if use_token then token else None)
                (access_key self))
    ∧ header "t" h = Some (timestamp now)
    ∧ header "nonce" h = Some nonce
    ∧ header "sign_method" h = Some "HMAC-SHA256"
    ∧ header "access_token" h =
        (if use_token then
           match token with Some "" => None | _ => token end
         else None).
Proof.
  intros Htok. unfold prepare.
  rewrite (message_reference _ _ _ _ _ _ Htok). simpl.
  eexists _, _. split; [done|]. split; [done|]. split; [done|].
  split.
  { simpl. unfold sign, sign_of, signature, Client.string_to_sign,
      Spec.string_to_sign. by rewrite content_hash_body_str. }
  split; [done|]. split; [done|]. split; [done|].
  unfold make_headers. rewrite Htok. simpl.
  destruct use_token; simpl.
  - destruct token as [[|a tok]|]; simpl; [| |].
    + by destruct (negb (String.eqb (body_str method body) "")).
    + done.
    + by destruct (negb (String.eqb (body_str method body) "")).
  - by destruct (negb (String.eqb (body_str method body) "")).
Qed.

(** C1.  The client signs as the reference definition says.  For a client
    holding [token] (none, or a string) every call of [_request] first
    sends a request whose [sign] header is the reference signature of
    (upper-cased method, path with sorted query, body, timestamp, nonce,
    client id, token if one is in use, client secret): content hash of the
    body (of the empty string for GET or no body), string to sign with its
    blank third line, message with the token segment left out when no
    token is held or [use_token] is off, HMAC-SHA256 under the secret in
    upper-case hex.  The signature is a function of these inputs. *)
Theorem request_signature_matches_reference
    (url0 client_id client_secret : string) (token : option string)
    (env : environment) (depth i : nat) (method path : string)
    (params : option (list (string * pyobj))) (body : option pyobj)
    (use_token retry : bool) :
  let self := {| base_url := url0; access_id := client_id;
                 access_key := client_secret;
                 access_token := held token |} in
  let METHOD := upper method in
  let path_with_sorted_query := full_path (normalize_path path) params in
  let t := timestamp (time_time env i) in
  let nonce := token_hex env i in
  let sts := Spec.string_to_sign METHOD (content_hash METHOD body)
               path_with_sorted_query in
  ∃ h rest,
    (_request env (S depth) method path params body use_token retry
       {| self := self; invocations := i |}).2 =
      Enter_request use_token retry
      :: Requests_get (url0 +:+ path_with_sorted_query) h :: rest
    ∧ header "sign" h =
        Some (sign METHOD path_with_sorted_query body t nonce client_id
                (if use_token then token else None) client_secret)
    ∧ sign METHOD path_with_sorted_query body t nonce client_id
        (if use_token then token else None) client_secret =
      upper (hmac_sha256_hexdigest client_secret
               (match (if use_token then token else None) with
                | Some tok => client_id +:+ tok +:+ t +:+ nonce +:+ sts
                | None => client_id +:+ t +:+ nonce +:+ sts
                end))
    ∧ sts = METHOD +:+ LF +:+ content_hash METHOD body +:+ LF +:+ LF
                   +:+ path_with_sorted_query
    ∧ header "t" h = Some t
    ∧ header "nonce" h = Some nonce.
Proof.
  intros self METHOD pq t nonce sts.
  destruct (prepare_reference self token METHOD (normalize_path path) params
              body use_token (time_time env i) (token_hex env i) eq_refl)
    as (url & h & Hp & -> & _ & Hsign & Ht & Hn & _).
  destruct (_request_sends env depth method path params body use_token retry
              {| self := self; invocations := i |} _ Hp) as [rest Htr].
  exists h, rest. split; [exact Htr|]. split; [exact Hsign|].
  split; [done|]. split; [done|]. split; [exact Ht | exact Hn].
Qed.

Lemma token_of_Some data tok :
  token_of data = Some tok <->
  ∃ d r, data = PDict d
         ∧ truthy (from_option id PNone (lookup_str "success" d)) = true
         ∧ lookup_str "result" d = Some (PDict r)
         ∧ lookup_str "access_token" r = Some tok
         ∧ truthy tok = true.
Proof.
  unfold token_of, is_success. split.
  - destruct data as [| | | | | |d]; simpl; try done.
    destruct (truthy _) eqn:Hs; [|done].
    destruct (lookup_str "result" d) as [r|] eqn:Hr; simpl; [|done].
    destruct r as [| | | | | |r]; try done.
    destruct (lookup_str "access_token" r) as [t|] eqn:Ht; simpl; [|done].
    destruct (truthy t) eqn:Htt; [|done].
    intros [= <-]. exists d, r. auto.
  - intros (d & r & -> & Hs & Hr & Ht & Htt). simpl.
    rewrite Hs, Hr. simpl. rewrite Ht. simpl. by rewrite Htt.
Qed.

(** What [connect] does to the token, and when it returns.  It replaces
    the stored token exactly when the response is a dict with a truthy
    success and an object result holding a truthy access_token, by that
    token; on every other outcome the token held before, the absent one
    included, stays, and nothing else of the client changes.  [connect]
    returns the response, unless the response is a success whose result is
    there and is not an object: then it raises AttributeError, the token
    unchanged (the defect of C9, below). *)
Theorem connect_replaces_token_on_success env depth st :
  let data := response_data (requests_get env (invocations st)) in
  let out := connect env (S depth) st in
  (∀ tok, token_of data = Some tok ->
          self out.1.2 = with_token (self st) tok)
  ∧ (token_of data = None -> self out.1.2 = self st)
  ∧ (∀ tok, token_of data = Some tok <->
       ∃ d r, data = PDict d
              ∧ truthy (from_option id PNone (lookup_str "success" d)) = true
              ∧ lookup_str "result" d = Some (PDict r)
              ∧ lookup_str "access_token" r = Some tok
              ∧ truthy tok = true)
  ∧ out.1.1 = (if result_not_object data then Raise AttributeError
               else Ok data)
  ∧ (result_not_object data = true -> token_of data = None).
Proof.
  intros data out. subst out. rewrite connect_authenticate.
  destruct (authenticate_run env st) as (url & h & _ & ->). fold data.
  cbn [fst snd self]. split; [by intros tok ->|]. split; [by intros ->|].
  split; [apply token_of_Some|]. split; [done|].
  unfold result_not_object, token_of, result_of, dict_get.
  destruct (is_success data); [|done].
  destruct data as [| | | | | |d]; simpl; try done.
  destruct (lookup_str "result" d) as [r|]; simpl; [|done].
  by destruct r.
Qed.

Lemma prepare_raises_TypeError self method path params body use_token now
    nonce e :
  prepare self method path params body use_token now nonce = Raise e ->
  e = TypeError ∧ use_token = true ∧ signable (access_token self) = false.
Proof.
  intros Hp. destruct (signable (access_token self)) eqn:Hs.
  - destruct (prepare_signable self method path params body use_token now
                nonce Hs) as [rq Hrq]. congruence.
  - destruct use_token.
    + rewrite prepare_not_signable in Hp by done. by simplify_eq.
    + by rewrite prepare_unauthenticated in Hp.
Qed.

(** Failures of the transport.  A request that fails in transport, or
    whose response body is not JSON, gives a failure dictionary and no
    exception (the part of C4 the code delivers): [_request] returns
    {success: False, code: 0, msg: "HTTP error: ..."} when [requests.get]
    raises and {success: False, code: status, msg: "non-json", text: ...}
    when [resp.json()] raises, the client unchanged.  So for [connect],
    which holds for every token state, and for [get] and any other call
    whose token segment can be built; a status of 1010, which HTTP does not
    have, would read as a token-invalid response.  With a token that is a
    string or absent, and a token endpoint that answers with one such or
    none, [get] returns a value whatever happens to its requests. *)
Theorem transport_failure_is_tagged env depth st :
  let i := invocations st in
  (∀ method path params body use_token retry,
     (use_token = true -> signable (access_token (self st)) = true) ->
     (∀ e, requests_get env i = RequestException e ->
           (_request env (S depth) method path params body use_token retry
              st).1 = (Ok (http_error e), bump st))
     ∧ (∀ status_code text,
          requests_get env i = Response status_code text None ->
          status_code ≠ 1010 ->
          (_request env (S depth) method path params body use_token retry
             st).1 = (Ok (non_json status_code text), bump st)))
  ∧ (∀ e, requests_get env i = RequestException e ->
          (connect env (S depth) st).1 = (Ok (http_error e), bump st))
  ∧ (∀ status_code text,
       requests_get env i = Response status_code text None ->
       (connect env (S depth) st).1 = (Ok (non_json status_code text), bump st))
  ∧ (∀ path params,
       let c := response_data (requests_get env (S i)) in
       signable (access_token (self st)) = true ->
       result_not_object c = false ->
       from_option isinstance_str true (token_of c) = true ->
       ∃ data, (Client.get env (S (S depth)) path params st).1.1 = Ok data)
  ∧ (∀ e, dict_get (http_error e) "success" = PBool false
          ∧ dict_get (http_error e) "code" = PInt 0
          ∧ dict_get (http_error e) "msg" = PStr ("HTTP error: " +:+ e))
  ∧ (∀ status_code text,
       dict_get (non_json status_code text) "success" = PBool false
       ∧ dict_get (non_json status_code text) "code" = PInt status_code
       ∧ dict_get (non_json status_code text) "msg" = PStr "non-json"
       ∧ dict_get (non_json status_code text) "text" = PStr text).
Proof.
  intros i. split; [|split; [|split; [|split; [|split; [done|done]]]]].
  - intros method path params body use_token retry Hsig.
    assert (∃ rq, prepare (self st) (upper method) (normalize_path path)
                    params body use_token (time_time env i)
                    (token_hex env i) = Ok rq) as [rq Hp].
    { destruct use_token.
      - apply prepare_signable. by apply Hsig.
      - rewrite prepare_unauthenticated. by eexists. }
    split.
    + intros e He. rewrite _request_no_refresh, attempt_run.
      * fold i. by rewrite Hp, He.
      * fold i. rewrite He. simpl. by rewrite andb_false_r.
    + intros sc text Hr Hsc. rewrite _request_no_refresh, attempt_run.
      * fold i. by rewrite Hp, Hr.
      * fold i. rewrite Hr. simpl. unfold is_token_invalid. simpl.
        destruct (Z.eqb_spec sc 1010); [done|]. by rewrite andb_false_r.
  - intros e He. rewrite connect_authenticate.
    destruct (authenticate_run env st) as (url & h & _ & ->).
    fold i. by rewrite He.
  - intros sc text Hr. rewrite connect_authenticate.
    destruct (authenticate_run env st) as (url & h & _ & ->).
    fold i. by rewrite Hr.
  - intros path params c Hsig Hobj Htok. rewrite get_run. fold i c.
    destruct (prepare_signable (self st) "GET" (normalize_path path) params
                None true (time_time env i) (token_hex env i) Hsig)
      as [rq ->].
    destruct (is_token_invalid _); [|by eexists].
    rewrite prepare_unauthenticated, Hobj.
    destruct (is_success c); [|by eexists].
    destruct (prepare_signable
                (match token_of c with
                 | Some tok => with_token (self st) tok
                 | None => self st
                 end) "GET" (normalize_path path) params None true
                (time_time env (S (S i))) (token_hex env (S (S i))))
      as [rq3 ->]; [|by eexists].
    destruct (token_of c) as [tok|]; [|done].
    unfold signable. simpl in *. by rewrite Htok, orb_true_r.
Qed.

(** Whatever the responses, [get] never overflows two frames of
    [_request], sends at most three requests and calls [connect] at most
    once, and only after a token-invalid response. *)
Lemma get_bounded env depth path params st :
  let data := response_data (requests_get env (invocations st)) in
  let out := Client.get env (S (S depth)) path params st in
  out.1.1 ≠ Raise RecursionError
  ∧ (count is_request out.2 <= 3)%nat
  ∧ (count is_http out.2 <= 3)%nat
  ∧ (count is_connect out.2 <= 1)%nat
  ∧ (is_token_invalid data = false -> count is_connect out.2 = 0%nat).
Proof.
  intros data out. subst out. rewrite get_run. fold data.
  destruct (prepare (self st) _ _ _ _ _ _ _) as [rq|e] eqn:Hp.
  2:{ apply prepare_raises_TypeError in Hp as (-> & _). count_events. }
  clear Hp.
  destruct (is_token_invalid data); [|count_events].
  rewrite prepare_unauthenticated.
  destruct (result_not_object _); [count_events|].
  destruct (is_success _); [|count_events].
  destruct (prepare _ "GET" (normalize_path path) params None true _ _)
    as [rq3|e] eqn:Hp3.
  - count_events.
  - apply prepare_raises_TypeError in Hp3 as (-> & _). count_events.
Qed.

(** The refresh after a token-invalid response (the part of C2 the code
    delivers, and what it does where [connect] raises).  When the response
    to an authenticated [get] is a dictionary with
    code 1010, the client calls [connect] exactly once.  The original
    request is made again, once and with [retry] off, exactly when
    [connect] returns a success response; what that second request gives,
    a 1010 included, goes to the caller.  When [connect] returns a failure
    the first, token-invalid response goes to the caller.  For any
    responses no run makes more than three requests, none nests
    [_request] deeper than two frames: a depth of two never overflows, and
    more depth changes nothing. *)
Theorem token_invalid_refresh_once env depth path params st :
  let i := invocations st in
  let data := response_data (requests_get env i) in
  let c := response_data (requests_get env (S i)) in
  let retried := response_data (requests_get env (S (S i))) in
  let out := Client.get env (S (S depth)) path params st in
  (out = Client.get env 2 path params st
   ∧ out.1.1 ≠ Raise RecursionError
   ∧ (count is_request out.2 <= 3)%nat
   ∧ (count is_connect out.2 <= 1)%nat)
  ∧ (signable (access_token (self st)) = true ->
     is_token_invalid data = true ->
     count is_connect out.2 = 1%nat
     ∧ (connect env (S depth) (bump st)).1.1 =
         (if result_not_object c then Raise AttributeError else Ok c)
     ∧ count is_retried out.2 =
         (if is_success c && negb (result_not_object c) then 1 else 0)%nat
     ∧ (is_success c = false ->
          out.1.1 = Ok data ∧ count is_request out.2 = 2%nat)
     ∧ (is_success c = true -> result_not_object c = false ->
          count is_request out.2 = 3%nat
          ∧ out.1.1 = match token_of c with
                      | Some tok => if isinstance_str tok then Ok retried
                                    else Raise TypeError
                      | None => Ok retried
                      end)).
Proof.
  intros i data c retried out. subst out. split.
  { split; [by rewrite !get_is_two_step|].
    destruct (get_bounded env depth path params st) as (? & ? & _ & ? & _).
    done. }
  intros Hsig Hinv.
  rewrite connect_authenticate.
  destruct (authenticate_run env (bump st)) as (url & h & _ & ->).
  cbn [bump invocations self fst snd]. fold i c.
  rewrite get_run. fold i data c.
  destruct (prepare_signable (self st) "GET" (normalize_path path) params
              None true (time_time env i) (token_hex env i) Hsig)
    as [rq ->].
  rewrite Hinv, prepare_unauthenticated.
  destruct (result_not_object c) eqn:Hobj.
  { cbn. rewrite andb_false_r. unfold result_not_object in Hobj.
    apply andb_prop in Hobj as [Hs _]. rewrite Hs.
    repeat split; try done; lia. }
  destruct (is_success c) eqn:Hs.
  - destruct (token_of c) as [tok|] eqn:Htok.
    + apply token_of_Some in Htok as (d & r & _ & _ & _ & _ & Htt).
      destruct (isinstance_str tok) eqn:Hstr.
      * destruct (prepare_signable (with_token (self st) tok) "GET"
                    (normalize_path path) params None true
                    (time_time env (S (S i))) (token_hex env (S (S i))))
          as [rq3 ->].
        { unfold signable. simpl. by rewrite Hstr, orb_true_r. }
        cbn. repeat split; try done; lia.
      * rewrite prepare_not_signable.
        2:{ unfold signable. simpl. by rewrite Htt, Hstr. }
        cbn. repeat split; try done; lia.
    + destruct (prepare_signable (self st) "GET" (normalize_path path)
                  params None true (time_time env (S (S i)))
                  (token_hex env (S (S i))) Hsig) as [rq3 ->].
      cbn. repeat split; try done; lia.
  - cbn. repeat split; try done; lia.
Qed.

Lemma prepare_tokenless self method path params body now nonce :
  truthy (access_token self) = false ->
  prepare self method path params body true now nonce =
  prepare self method path params body false now nonce.
Proof.
  intros Ht. unfold prepare, Client.message, make_headers. by rewrite Ht.
Qed.

(** C10.  A [get] issued while no token is held is sent at once: the first
    thing the client does is the request, with the URL and the headers of
    an unauthenticated request, so without token segment under the HMAC
    and without access_token header; no [connect] comes before it.  A
    response with code 1010 to it still makes the client call [connect]
    once and, when that returns a success, repeat the request once. *)
Theorem tokenless_get_is_sent_unauthenticated env depth path params st :
  access_token (self st) = PNone ->
  let i := invocations st in
  let data := response_data (requests_get env i) in
  let c := response_data (requests_get env (S i)) in
  let out := Client.get env (S (S depth)) path params st in
  ∃ url h rest,
    out.2 = Enter_request true true :: Requests_get url h :: rest
    ∧ prepare (self st) "GET" (normalize_path path) params None false
        (time_time env i) (token_hex env i) = Ok (url, h)
    ∧ header "access_token" h = None
    ∧ header "sign" h =
        Some (sign "GET" (full_path (normalize_path path) params) None
                (timestamp (time_time env i)) (token_hex env i)
                (access_id (self st)) None (access_key (self st)))
    ∧ (is_token_invalid data = false -> rest = [] ∧ out.1.1 = Ok data)
    ∧ (is_token_invalid data = true ->
         (∃ rest', rest = Enter_connect :: rest')
         ∧ count is_connect out.2 = 1%nat
         ∧ count is_retried out.2 =
             (if is_success c && negb (result_not_object c) then 1 else 0)%nat).
Proof.
  intros Htok i data c out. subst out.
  destruct (prepare_reference (self st) None "GET" (normalize_path path)
              params None false (time_time env i) (token_hex env i) Htok)
    as (url & h & Hp & _ & _ & Hsign & _ & _ & _ & Hnotok).
  exists url, h. rewrite get_run. fold i data c.
  rewrite prepare_tokenless by (by rewrite Htok). rewrite Hp.
  rewrite prepare_unauthenticated.
  destruct (is_token_invalid data).
  - destruct (result_not_object c) eqn:Hobj.
    { eexists. split; [reflexivity|]. repeat split; try done.
      - by eexists.
      - cbn. by rewrite andb_false_r. }
    destruct (is_success c) eqn:Hs.
    + destruct (prepare _ "GET" (normalize_path path) params None true _ _);
        (eexists; split; [reflexivity|]; repeat split; try done;
         by eexists).
    + eexists. split; [reflexivity|]. repeat split; try done. by eexists.
  - exists []. repeat split; done.
Qed.

Lemma _request_params env depth method path params1 params2 body use_token
    retry st :
  (∀ self method path body use_token now nonce,
     prepare self method path params1 body use_token now nonce =
     prepare self method path params2 body use_token now nonce) ->
  _request env depth method path params1 body use_token retry st =
  _request env depth method path params2 body use_token retry st.
Proof.
  intros Hp. revert method path body use_token retry st.
  induction depth as [|depth IH]; intros; [done|].
  rewrite !_request_unfold. run_client. rewrite Hp.
  destruct (prepare _ _ _ _ _ _ _ _) as [rq|e]; simpl; [|done].
  destruct (requests_get env (invocations st)) as [e|sc text js]; simpl;
    [done|].
  destruct (_ && _ && _); simpl; [|done].
  destruct (connect env depth _) as [[[c|e] st1] tr1]; simpl; [|done].
  destruct (is_success c); simpl; [|done].
  by rewrite IH.
Qed.

Lemma join_nonempty x l : x ≠ "" -> Urllib.join "&" (x :: l) ≠ "".
Proof. destruct x; [done|]. by destruct l. Qed.

Lemma query_string_cons kv items : query_string (Some (kv :: items)) ≠ "".
Proof.
  unfold query_string, Urllib.urlencode.
  pose proof (sorted_items (map (fun kv => (kv.1, str kv.2)) (kv :: items)))
    as Hperm.
  destruct (sorted _) as [|x l].
  - by apply Permutation_nil_cons in Hperm.
  - cbn [map]. apply join_nonempty.
    by destruct (Urllib.quote_plus x.1).
Qed.

Lemma full_path_query path kv items :
  full_path path (Some (kv :: items))
  = path +:+ "?" +:+ query_string (Some (kv :: items)).
Proof.
  unfold full_path. pose proof (query_string_cons kv items) as Hne.
  by destruct (String.eqb_spec (query_string (Some (kv :: items))) "").
Qed.

(** C7.  The query string does not depend on the order of the parameters:
    for two parameter lists that are permutations of each other the client
    builds the same query string, [key=value] pairs joined by [&], the
    values through [str], both percent-quoted, the pairs in ascending order
    of their keys; so the same path with query, which is the path, a
    question mark and that query string when there are parameters; the
    same string to sign, which ends in the path with query; the same URL,
    the base URL followed by the path with query, and the same headers,
    the signature, taken over the path with query, included; and the same
    run of [_request] for the same timestamps, nonces and token. *)
Theorem query_string_order_independent
    (params1 params2 : list (string * pyobj)) :
  params1 ≡ₚ params2 ->
  query_string (Some params1) = query_string (Some params2)
  ∧ (∃ l, l ≡ₚ map (fun kv => (kv.1, str kv.2)) params1
          ∧ Sorted String.le (map fst l)
          ∧ query_string (Some params1) =
            Urllib.join "&"
              (map (fun kv => Urllib.quote_plus kv.1 +:+ "="
                              +:+ Urllib.quote_plus kv.2) l))
  ∧ (∀ path, full_path path (Some params1) = full_path path (Some params2))
  ∧ (∀ method body path,
       Client.string_to_sign method body (full_path path (Some params1)) =
       Client.string_to_sign method body (full_path path (Some params2)))
  ∧ (∀ self method path body use_token now nonce,
       prepare self method path (Some params1) body use_token now nonce =
       prepare self method path (Some params2) body use_token now nonce)
  ∧ (∀ env depth method path body use_token retry st,
       _request env depth method path (Some params1) body use_token retry st
       = _request env depth method path (Some params2) body use_token retry
           st)
  ∧ (params1 ≠ [] ->
     ∀ path,
       let path_with_query := path +:+ "?" +:+ query_string (Some params2) in
       full_path path (Some params1) = path_with_query
       ∧ (∀ method body,
            Client.string_to_sign method body (full_path path (Some params1))
            = method +:+ LF +:+ sha256_hexdigest (body_str method body)
              +:+ LF +:+ LF +:+ path_with_query)
       ∧ (∀ self token method body use_token now nonce,
            access_token self = held token ->
            ∃ h, prepare self method path (Some params1) body use_token now
                   nonce = Ok (base_url self +:+ path_with_query, h)
                 ∧ header "sign" h =
                     Some (sign method path_with_query body (timestamp now)
                             nonce (access_id self)
                             (if use_token then token else None)
                             (access_key self)))).
Proof.
  intros Hperm.
  assert (query_string (Some params1) = query_string (Some params2)) as Hq.
  { unfold query_string.
    destruct params1 as [|x1 p1], params2 as [|x2 p2]; [done| | |].
    - by apply Permutation_nil_cons in Hperm.
    - symmetry in Hperm. by apply Permutation_nil_cons in Hperm.
    - apply (f_equal Urllib.urlencode), sorted_Permutation.
      exact (Permutation_map (fun kv => (kv.1, str kv.2)) Hperm). }
  assert (∀ path, full_path path (Some params1) = full_path path (Some params2))
    as Hf by (intros; unfold full_path; by rewrite Hq).
  assert (∀ self method path body use_token now nonce,
       prepare self method path (Some params1) body use_token now nonce =
       prepare self method path (Some params2) body use_token now nonce)
    as Hp by (intros; unfold prepare; by rewrite Hf).
  split; [done|].
  split; [|split; [done|split; [|split; [done|split]]]].
  - exists (sorted (map (fun kv => (kv.1, str kv.2)) params1)).
    split; [apply sorted_items|].
    split; [apply Sorted_keys, sorted_Sorted|].
    unfold query_string. by destruct params1.
  - intros. by rewrite Hf.
  - intros. by apply _request_params.
  - intros Hne path path_with_query.
    destruct params1 as [|kv items]; [done|].
    assert (full_path path (Some (kv :: items)) = path_with_query) as Hfull.
    { rewrite full_path_query. unfold path_with_query. by rewrite Hq. }
    split; [done|]. split.
    + intros method body. by rewrite Hfull.
    + intros self token method body use_token now nonce Htok.
      destruct (prepare_reference self token method path
                  (Some (kv :: items)) body use_token now nonce Htok)
        as (url & h & Hprep & -> & _ & Hsign & _).
      rewrite Hfull in Hprep, Hsign. by exists h.
Qed.

End ClientProps.

Section ClientExamples.

Import Spec Demo.

(** C9.  On the success response {"success": true, "result": null}, which
    carries no token, [connect] raises [AttributeError] where it is to
    return the response: the default of [data.get('result', {})] stands
    in for a result that is missing, not for one that is null. *)
Theorem connect_raises_on_null_result :
  @token_of null_result = None
  ∧ requests_get null_result_env (invocations demo_state)
    = json_response null_result
  ∧ (@connect demo_lib null_result_env 1 demo_state).1.1
    = Raise AttributeError.
Proof. split; [|split]; reflexivity. Qed.

Example query_string_b2_a1 :
  @query_string demo_lib (Some [("b", PInt 2); ("a", PInt 1)]) = "a=1&b=2"
  ∧ @query_string demo_lib (Some [("a", PInt 1); ("b", PInt 2)]) = "a=1&b=2"
  ∧ @query_string demo_lib (Some [("a b", PStr "x/y~z._-*"); ("a", PBool true)])
    = "a=True&a+b=x%2Fy~z._-%2A"
  ∧ @query_string demo_lib (Some []) = ""
  ∧ @query_string demo_lib None = "".
Proof. repeat split; reflexivity. Qed.

Example token_request_url :
  rbind (@prepare demo_lib (self demo_state) "GET" "/v1.0/token"
           (Some [("grant_type", PInt 1)]) None false (demo_clock 0)
           (demo_nonce 0)) (fun rq => Ok (rq.1, header "t" rq.2))
  = Ok ("https://openapi.tuyaeu.com/v1.0/token?grant_type=1",
        Some "1700000000000").
Proof. reflexivity. Qed.

Example shadow_properties_by_code :
  Shadow.by_code_of
    (PDict [(PStr "success", PBool true);
            (PStr "result",
             PDict [(PStr "properties",
                     PList [PDict [(PStr "code", PStr "doorcontact_state");
                                   (PStr "value", PBool true)];
                            PDict [(PStr "code", PStr "battery_percentage");
                                   (PStr "value", PInt 87)]])])])
  = Ok [(PStr "battery_percentage", PInt 87);
        (PStr "doorcontact_state", PBool true)]
  ∧ Shadow.by_code_of (PDict [(PStr "success", PBool true);
                              (PStr "result", PNone)])
    = Raise AttributeError
  ∧ Shadow.by_code_of token_invalid = Ok [].
Proof. repeat split; reflexivity. Qed.

(** Depth two is needed: with one frame only the refresh overflows. *)
Example refresh_needs_two_frames :
  (@Client.get demo_lib refresh_env 1 "/v2.0/cloud/thing/dev/shadow/properties"
     None demo_state).1.1 = Raise RecursionError.
Proof. reflexivity. Qed.

Lemma query_string_order_independent_witness :
  [("b", PInt 2); ("a", PInt 1)] ≡ₚ [("a", PInt 1); ("b", PInt 2)]
  ∧ @full_path demo_lib "/x" (Some [("b", PInt 2); ("a", PInt 1)])
    = @full_path demo_lib "/x" (Some [("a", PInt 1); ("b", PInt 2)])
  ∧ @full_path demo_lib "/x" (Some [("b", PInt 2); ("a", PInt 1)])
    = "/x" +:+ "?"
      +:+ @query_string demo_lib (Some [("a", PInt 1); ("b", PInt 2)]).
Proof.
  assert ([("b", PInt 2); ("a", PInt 1)] ≡ₚ [("a", PInt 1); ("b", PInt 2)])
    as Hperm by apply perm_swap.
  pose proof (@query_string_order_independent demo_lib _ _ Hperm)
    as (_ & _ & Hfull & _ & _ & _ & Hquery).
  split; [exact Hperm|]. split; [exact (Hfull "/x")|].
  assert ([("b", PInt 2); ("a", PInt 1)] ≠ []) as Hne by discriminate.
  pose proof (Hquery Hne "/x") as [Hq _]. exact Hq.
Defined.

Lemma transport_failure_is_tagged_witness :
  requests_get timeout_env 0 = RequestException "timed out"
  ∧ (@Client.get demo_lib timeout_env 2 "/v2.0/cloud/thing/dev/shadow/properties"
       None demo_state).1
    = (Ok (http_error "timed out"), bump demo_state).
Proof.
  split; [reflexivity|].
  exact (proj1 (proj1 (@transport_failure_is_tagged demo_lib timeout_env 1
                         demo_state)
                  "GET" "/v2.0/cloud/thing/dev/shadow/properties" None None
                  true true (fun _ => eq_refl))
           "timed out" eq_refl).
Defined.

Lemma token_invalid_refresh_once_witness :
  let out := @Client.get demo_lib refresh_env 2
               "/v2.0/cloud/thing/dev/shadow/properties" None demo_state in
  signable (access_token (self demo_state)) = true
  ∧ is_token_invalid (response_data (requests_get refresh_env 0)) = true
  ∧ count is_connect out.2 = 1%nat
  ∧ count is_retried out.2 = 1%nat
  ∧ count is_request out.2 = 3%nat
  ∧ out.1.1 = Ok token_invalid.
Proof.
  intros out. split; [reflexivity|]. split; [reflexivity|].
  destruct (proj2 (@token_invalid_refresh_once demo_lib refresh_env 0
                     "/v2.0/cloud/thing/dev/shadow/properties" None
                     demo_state) eq_refl eq_refl)
    as (Hc & _ & Hr & _ & Hs).
  destruct (Hs eq_refl eq_refl) as [Hn Hout].
  split; [exact Hc|]. split; [exact Hr|]. split; [exact Hn | exact Hout].
Defined.

Lemma tokenless_get_is_sent_unauthenticated_witness :
  access_token (self demo_state) = PNone
  ∧ ∃ url h rest,
      (@Client.get demo_lib refresh_env 2 "/v2.0/cloud/thing/dev/shadow/properties"
         None demo_state).2
      = Enter_request true true :: Requests_get url h :: rest
      ∧ header "access_token" h = None.
Proof.
  split; [reflexivity|].
  destruct (@tokenless_get_is_sent_unauthenticated demo_lib refresh_env 0
              "/v2.0/cloud/thing/dev/shadow/properties" None demo_state
              eq_refl) as (url & h & rest & Htr & _ & Hh & _).
  exists url, h, rest. split; [exact Htr | exact Hh].
Defined.

End ClientExamples.


Section Floats.

Import Spec Cover.

(** The arithmetic of [SpecFloat] on readings of the clock: what
    [time.time() - last_ok > OFFLINE_AFTER] and [time.time() * 1000]
    compute. *)

Lemma digits2_pos_bounds m :
  2 ^ (Z.pos (digits2_pos m) - 1) <= Z.pos m < 2 ^ Z.pos (digits2_pos m).
Proof.
  induction m as [m IH|m IH|]; cbn [digits2_pos]; [| |done].
  all: rewrite Pos2Z.inj_succ;
    replace (Z.succ (Z.pos (digits2_pos m)) - 1) with (Z.pos (digits2_pos m))
      by lia;
    rewrite Z.pow_succ_r by lia;
    replace (2 ^ Z.pos (digits2_pos m))
      with (2 * 2 ^ (Z.pos (digits2_pos m) - 1)) in *
      by (rewrite <- Z.pow_succ_r by lia; f_equal; lia);
    lia.
Qed.

Lemma digits2_pos_unique m k :
  2 ^ (k - 1) <= Z.pos m < 2 ^ k -> Z.pos (digits2_pos m) = k.
Proof.
  intros [Hlo Hhi]. pose proof (digits2_pos_bounds m) as [Hlo' Hhi'].
  assert (0 <= k).
  { destruct (Z.le_gt_cases 0 k); [done|].
    rewrite (Z.pow_neg_r 2 k) in Hhi by lia. lia. }
  assert (k - 1 < Z.pos (digits2_pos m)).
  { apply (Z.pow_lt_mono_r_iff 2); lia. }
  assert (Z.pos (digits2_pos m) - 1 < k).
  { apply (Z.pow_lt_mono_r_iff 2); lia. }
  lia.
Qed.

Lemma shr_1_m r : 0 <= shr_m r -> shr_m (shr_1 r) = Z.div2 (shr_m r).
Proof. destruct r as [[|[m|m|]|m] b s]; simpl; try done; lia. Qed.

Lemma iter_pos_shr_1 p :
  ∀ r, 0 <= shr_m r ->
       shr_m (SpecFloat.iter_pos shr_1 p r) = Z.shiftr (shr_m r) (Z.pos p).
Proof.
  assert (∀ r, 0 <= shr_m r -> 0 <= shr_m (shr_1 r)) as Hnn.
  { intros r Hr. rewrite shr_1_m by done. by apply Z.div2_nonneg. }
  induction p as [p IH|p IH|]; intros r Hr; cbn [SpecFloat.iter_pos].
  - rewrite IH, IH, shr_1_m by (rewrite ?IH; try apply Z.shiftr_nonneg; auto).
    rewrite Z.div2_spec, !Z.shiftr_shiftr by lia. f_equal. lia.
  - rewrite IH, IH by (rewrite ?IH; try apply Z.shiftr_nonneg; auto).
    rewrite !Z.shiftr_shiftr by lia. f_equal. lia.
  - rewrite shr_1_m by done. by rewrite Z.div2_spec.
Qed.

Lemma shr_fexp_normal (M : positive) E l :
  53 <= Z.pos (digits2_pos M) -> -1074 <= E ->
  ∃ r, shr_fexp prec emax (Z.pos M) E l
       = (r, E + (Z.pos (digits2_pos M) - 53))
       ∧ shr_m r = Z.pos M / 2 ^ (Z.pos (digits2_pos M) - 53)
       ∧ (Z.pos (digits2_pos M) = 53 -> r = shr_record_of_loc (Z.pos M) l).
Proof.
  intros Hd HE. unfold shr_fexp, fexp, emin, prec, emax. cbn [Zdigits2].
  set (d := Z.pos (digits2_pos M)) in *.
  replace (Z.max (d + E - 53) (3 - 1024 - 53) - E) with (d - 53) by lia.
  destruct (d - 53) as [|p|p] eqn:Hp; [| |lia].
  - eexists. split; [cbn [shr]; f_equal; lia|]. split; [|done].
    rewrite Z.pow_0_r, Z.div_1_r. by destruct l as [|[]].
  - eexists. split; [cbn [shr]; reflexivity|]. split; [|lia].
    rewrite iter_pos_shr_1 by (by destruct l as [|[]]).
    rewrite Z.shiftr_div_pow2 by lia. by destruct l as [|[]].
Qed.

Lemma round_nearest_even_bounds m l :
  m <= round_nearest_even m l <= m + 1.
Proof. destruct l as [|[]]; simpl; [lia| |lia|lia]. destruct (Z.even m); lia. Qed.

Lemma binary_round_aux_normal sx (M : positive) E :
  53 <= Z.pos (digits2_pos M) -> -1074 <= E ->
  ∃ m e,
    binary_round_aux prec emax sx (Z.pos M) E loc_Exact
    = (if e <=? 971 then S754_finite sx m e else S754_infinity sx)
    ∧ 2 ^ 52 <= Z.pos m < 2 ^ 53
    ∧ E + (Z.pos (digits2_pos M) - 53) <= e
      <= E + (Z.pos (digits2_pos M) - 53) + 1
    ∧ (Z.pos (digits2_pos M) = 53 -> m = M ∧ e = E).
Proof.
  intros Hd HE. unfold binary_round_aux.
  pose proof (eq_refl : 2 ^ 52 = 4503599627370496) as H52.
  pose proof (eq_refl : 2 ^ 53 = 9007199254740992) as H53.
  destruct (shr_fexp_normal M E loc_Exact Hd HE) as (r1 & -> & Hm1 & Hr1).
  set (d := Z.pos (digits2_pos M)) in *.
  pose proof (digits2_pos_bounds M) as [Hlo Hhi]. fold d in Hlo, Hhi.
  set (m1 := shr_m r1) in *.
  assert (2 ^ 52 <= m1 < 2 ^ 53) as Hb1.
  { rewrite Hm1.
    assert (0 < 2 ^ (d - 53)) by (apply Z.pow_pos_nonneg; lia).
    assert (2 ^ (d - 1) = 2 ^ 52 * 2 ^ (d - 53)) as Hp1
      by (rewrite <- Z.pow_add_r by lia; f_equal; lia).
    assert (2 ^ d = 2 ^ 53 * 2 ^ (d - 53)) as Hp2
      by (rewrite <- Z.pow_add_r by lia; f_equal; lia).
    split.
    - apply Z.div_le_lower_bound; [done|]. rewrite Z.mul_comm. lia.
    - apply Z.div_lt_upper_bound; [done|]. rewrite Z.mul_comm. lia. }
  pose proof (round_nearest_even_bounds m1 (loc_of_shr_record r1)) as Hb2.
  remember (round_nearest_even m1 (loc_of_shr_record r1)) as m2 eqn:Hq.
  symmetry in Hq.
  assert (0 < m2) as Hpos by (clear -H52 Hb1 Hb2; lia).
  destruct m2 as [|q|q]; [lia| |lia].
  assert (Z.pos (digits2_pos q) = 53 ∨ (Z.pos q = 2 ^ 53)) as [Hd2|Hd2].
  { destruct (Z.eq_dec (Z.pos q) (2 ^ 53)) as [?|Hne]; [by right|left].
    apply digits2_pos_unique. change (53 - 1) with 52. lia. }
  - destruct (shr_fexp_normal q (E + (d - 53)) loc_Exact) as (r2 & -> & Hm2 & Hr2);
      [lia..|].
    rewrite (Hr2 Hd2). cbn [shr_record_of_loc shr_m]. rewrite Hd2.
    exists q, (E + (d - 53)). unfold emax, prec.
    replace (E + (d - 53) + (53 - 53)) with (E + (d - 53)) by lia.
    change (1024 - 53) with 971.
    pose proof (digits2_pos_bounds q) as Hbq. rewrite Hd2 in Hbq.
    change (53 - 1) with 52 in Hbq.
    split; [done|]. split; [lia|]. split; [lia|].
    intros Hd53. split; [|lia].
    specialize (Hr1 Hd53). subst r1. cbn in Hq. by injection Hq.
  - assert (Z.pos (digits2_pos q) = 54) as Hd54.
    { apply digits2_pos_unique. rewrite Hd2. change (54 - 1) with 53. lia. }
    destruct (shr_fexp_normal q (E + (d - 53)) loc_Exact) as (r2 & -> & Hm2 & _);
      [lia..|].
    rewrite Hm2, Hd54, Hd2. change (2 ^ 53 / 2 ^ (54 - 53)) with (2 ^ 52).
    change (2 ^ 52) with (Z.pos 4503599627370496).
    exists 4503599627370496%positive, (E + (d - 53) + 1). unfold emax, prec.
    replace (E + (d - 53) + (54 - 53)) with (E + (d - 53) + 1) by lia.
    change (1024 - 53) with 971.
    split; [done|]. split; [done|]. split; [lia|].
    intros Hd53. exfalso.
    specialize (Hr1 Hd53). subst r1. cbn in Hq. injection Hq as <-.
    unfold d in Hd53. lia.
Qed.

Lemma shl_align_le m e e' :
  e' <= e ->
  ∃ m', shl_align m e e' = (m', e') ∧ Z.pos m' = Z.pos m * 2 ^ (e - e').
Proof.
  intros Hle. unfold shl_align.
  destruct (e' - e) as [|d|d] eqn:Hd; [|lia|].
  - assert (e' = e) as -> by lia. exists m. split; [done|].
    rewrite Z.sub_diag. simpl. lia.
  - exists (Pos.iter xO m d). split; [done|].
    rewrite (Pos.iter_swap_gen _ _ Z.pos xO (Z.mul 2)) by done.
    change (Pos.iter (Z.mul 2) (Z.pos m) d) with (Z.shiftl (Z.pos m) (Z.pos d)).
    rewrite Z.shiftl_mul_pow2 by lia. f_equal. f_equal. lia.
Qed.

Lemma shl_align_gt m e e' : e < e' -> shl_align m e e' = (m, e).
Proof. intros Hlt. unfold shl_align. by destruct (e' - e) eqn:Hd; [| |lia]. Qed.

Lemma binary_round_clock sx (D : positive) ez :
  -96 <= ez <= 971 ->
  ∃ m e,
    binary_round prec emax sx D ez
    = (if e <=? 971 then S754_finite sx m e else S754_infinity sx)
    ∧ 2 ^ 52 <= Z.pos m < 2 ^ 53
    ∧ (Z.pos D < 2 ^ 53 -> e <= ez ∧ Z.pos m = Z.pos D * 2 ^ (ez - e))
    ∧ (2 ^ 53 <= Z.pos D -> ez < e).
Proof.
  intros Hez. unfold binary_round, fexp, emin.
  pose proof (digits2_pos_bounds D) as [Hlo Hhi].
  set (d := Z.pos (digits2_pos D)) in *.
  assert (0 < d) by (unfold d; lia).
  replace (Z.max (d + ez - prec) (3 - emax - prec)) with (d + ez - 53)
    by (unfold prec, emax; lia).
  destruct (Z.le_gt_cases d 53) as [Hd|Hd].
  - destruct (shl_align_le D ez (d + ez - 53)) as (mz & -> & Hmz); [lia|].
    replace (ez - (d + ez - 53)) with (53 - d) in Hmz by lia.
    assert (Z.pos (digits2_pos mz) = 53) as Hdz.
    { apply digits2_pos_unique. rewrite Hmz. change (53 - 1) with 52.
      assert (2 ^ 52 = 2 ^ (d - 1) * 2 ^ (53 - d)) as ->
        by (rewrite <- Z.pow_add_r by lia; f_equal; lia).
      assert (2 ^ 53 = 2 ^ d * 2 ^ (53 - d)) as ->
        by (rewrite <- Z.pow_add_r by lia; f_equal; lia).
      assert (0 < 2 ^ (53 - d)) by (apply Z.pow_pos_nonneg; lia).
      nia. }
    destruct (binary_round_aux_normal sx mz (d + ez - 53))
      as (m & e & -> & Hm & He & Hex); [lia..|].
    destruct (Hex Hdz) as [-> ->].
    exists mz, (d + ez - 53). split; [done|]. split; [done|]. split.
    + intros _. split; [lia|]. rewrite Hmz. f_equal. f_equal. lia.
    + intros Hbig. exfalso.
      assert (2 ^ d <= 2 ^ 53) by (apply Z.pow_le_mono_r; lia). lia.
  - rewrite shl_align_gt by lia.
    destruct (binary_round_aux_normal sx D ez)
      as (m & e & -> & Hm & He & Hex); [unfold d in *; lia..|].
    fold d in He. exists m, e. split; [done|]. split; [done|]. split.
    + intros Hsmall. exfalso.
      assert (2 ^ 53 <= 2 ^ (d - 1)) by (apply Z.pow_le_mono_r; lia). lia.
    + intros _. lia.
Qed.

Lemma is_clock_inv t :
  is_clock t = true ->
  ∃ m e, t = S754_finite false m e ∧ Z.pos (digits2_pos m) = 53
         ∧ -44 <= e <= -19.
Proof.
  destruct t as [| | |[] m e]; try done. cbn [is_clock].
  intros [[Hd Hlo%Z.leb_le]%andb_prop Hhi%Z.leb_le]%andb_prop.
  apply Z.eqb_eq in Hd. by exists m, e.
Qed.

Lemma float_gt_int_negative m e n :
  0 <= n -> float_gt_int (S754_finite true m e) n = false.
Proof.
  intros Hn. unfold float_gt_int.
  destruct (0 <=? e) eqn:He.
  - apply Z.leb_le in He. rewrite Z.gtb_ltb. apply Z.ltb_ge.
    assert (0 < 2 ^ e) by (apply Z.pow_pos_nonneg; lia). nia.
  - apply Z.leb_gt in He. rewrite Z.gtb_ltb. apply Z.ltb_ge.
    assert (0 < 2 ^ (- e)) by (apply Z.pow_pos_nonneg; lia). nia.
Qed.

Lemma float_sub_gt_300 a b :
  is_clock a = true -> is_clock b = true ->
  float_gt_int (float_sub a b) 300 = true <-> 300 * 2 ^ 44 < clock_ticks a - clock_ticks b.
Proof.
  intros (ma & ea & -> & Hda & Hea)%is_clock_inv
         (mb & eb & -> & Hdb & Heb)%is_clock_inv.
  unfold float_sub, SFsub, clock_ticks. cbn [cond_Zopp].
  set (ez := Z.min ea eb).
  destruct (shl_align_le ma ea ez) as (ma' & -> & Hma); [lia|].
  destruct (shl_align_le mb eb ez) as (mb' & -> & Hmb); [lia|].
  cbn [fst].
  assert (0 < 2 ^ (ez + 44)) as HK by (apply Z.pow_pos_nonneg; lia).
  assert (2 ^ (ea + 44) = 2 ^ (ea - ez) * 2 ^ (ez + 44)) as ->
    by (rewrite <- Z.pow_add_r by lia; f_equal; lia).
  assert (2 ^ (eb + 44) = 2 ^ (eb - ez) * 2 ^ (ez + 44)) as ->
    by (rewrite <- Z.pow_add_r by lia; f_equal; lia).
  rewrite !Z.mul_assoc, <- Hma, <- Hmb, <- Z.mul_sub_distr_r.
  assert (2 ^ 44 = 2 ^ (- ez) * 2 ^ (ez + 44)) as H44
    by (rewrite <- Z.pow_add_r by lia; f_equal; lia).
  assert (0 < 2 ^ (- ez)) as HN by (apply Z.pow_pos_nonneg; lia).
  pose proof (eq_refl : 2 ^ 52 = 4503599627370496) as H52.
  pose proof (eq_refl : 2 ^ 53 = 9007199254740992) as H53.
  destruct (Z.pos ma' - Z.pos mb') as [|p|p] eqn:HD; cbn [binary_normalize].
  - split; [done|]. lia.
  - destruct (binary_round_clock false p ez) as (m & e & -> & Hm & Hsmall & Hbig);
      [lia|].
    destruct (Z.lt_ge_cases (Z.pos p) (2 ^ 53)) as [Hp|Hp].
    + destruct (Hsmall Hp) as [He Hme].
      assert ((e <=? 971) = true) as -> by (apply Z.leb_le; lia).
      unfold float_gt_int.
      assert ((0 <=? e) = false) as -> by (apply Z.leb_gt; lia).
      assert (0 < 2 ^ (ez - e)) as HJ by (apply Z.pow_pos_nonneg; lia).
      assert (2 ^ (- e) = 2 ^ (- ez) * 2 ^ (ez - e)) as ->
        by (rewrite <- Z.pow_add_r by lia; f_equal; lia).
      rewrite Hme, H44, Z.gtb_ltb, Z.ltb_lt. nia.
    + specialize (Hbig Hp).
      assert (300 * 2 ^ 44 < Z.pos p * 2 ^ (ez + 44)).
      { assert (2 ^ 44 = 17592186044416) as -> by done. nia. }
      split; [done|]. intros _.
      destruct (e <=? 971) eqn:He971; [|done].
      unfold float_gt_int. destruct (0 <=? e) eqn:He0.
      * apply Z.leb_le in He0.
        assert (0 < 2 ^ e) by (apply Z.pow_pos_nonneg; lia).
        rewrite Z.gtb_ltb. apply Z.ltb_lt. nia.
      * apply Z.leb_gt in He0.
        assert (2 ^ (- e) <= 2 ^ 43) by (apply Z.pow_le_mono_r; lia).
        assert (2 ^ 43 = 8796093022208) as H43 by done.
        rewrite Z.gtb_ltb. apply Z.ltb_lt. nia.
  - destruct (binary_round_clock true p ez) as (m & e & -> & _); [lia|].
    split; [|lia].
    destruct (e <=? 971); [|done].
    by rewrite float_gt_int_negative.
Qed.

Lemma float_mul_1000 t :
  is_clock t = true ->
  ∃ m e, float_mul t (float_of_int 1000) = S754_finite false m e.
Proof.
  intros (mt & et & -> & Hd & He)%is_clock_inv.
  change (float_of_int 1000) with (S754_finite false 8796093022208000 (-43)).
  unfold float_mul, SFmul. cbn [xorb].
  pose proof (digits2_pos_bounds mt) as [Hlo Hhi]. rewrite Hd in Hlo, Hhi.
  pose proof (digits2_pos_bounds (mt * 8796093022208000)) as [Hlo' Hhi'].
  rewrite Pos2Z.inj_mul in Hlo', Hhi'.
  set (d := Z.pos (digits2_pos (mt * 8796093022208000))) in *.
  assert (53 <= d <= 106) as Hd'.
  { change (53 - 1) with 52 in Hlo.
    assert (2 ^ 52 = 4503599627370496) as H52 by done.
    assert (2 ^ 53 = 9007199254740992) as H53 by done.
    split.
    - assert (52 < d); [|lia].
      apply (Z.pow_lt_mono_r_iff 2); [lia|unfold d; lia|]. nia.
    - assert (d - 1 < 106); [|lia].
      apply (Z.pow_lt_mono_r_iff 2); [lia|lia|].
      assert (2 ^ 106 = 9007199254740992 * 9007199254740992) as -> by done.
      nia. }
  destruct (binary_round_aux_normal false (mt * 8796093022208000) (et + -43))
    as (m & e & -> & Hm & Hb & _); [by fold d; lia|lia|].
  fold d in Hb. exists m, e.
  by assert ((e <=? 971) = true) as -> by (apply Z.leb_le; lia).
Qed.

Lemma seconds_ticks t :
  is_clock t = true ->
  (seconds t * inject_Z (2 ^ 44) == inject_Z (clock_ticks t))%Q.
Proof.
  intros (m & e & -> & _ & He)%is_clock_inv. unfold seconds, clock_ticks.
  rewrite inject_Z_mult, (Zpower_Qpower 2 (e + 44)) by lia.
  rewrite Qpower_plus by done. rewrite (Zpower_Qpower 2 44) by lia.
  change (inject_Z 2) with 2%Q. ring.
Qed.

(** On readings of the clock the test of the loop is exact: the difference
    of two readings of 256 s and more is a multiple of 2^-44 s, which the
    subtraction gives without rounding when it is below 512 s, and rounds
    to 512 s or more when it is not. *)
Lemma overdue_spec now lo :
  is_clock now = true -> is_clock lo = true ->
  Bridge.overdue now lo = true <-> (timeout < seconds now - seconds lo)%Q.
Proof.
  intros Hn Hl. unfold Bridge.overdue, OFFLINE_AFTER.
  rewrite (float_sub_gt_300 now lo Hn Hl), Zlt_Qlt.
  rewrite <- Z.add_opp_r, inject_Z_plus, inject_Z_opp, inject_Z_mult.
  pose proof (seconds_ticks now Hn) as Hsn.
  pose proof (seconds_ticks lo Hl) as Hsl.
  unfold timeout, OFFLINE_AFTER.
  change (inject_Z (2 ^ 44)) with 17592186044416%Q in *.
  change (inject_Z 300) with 300%Q. lra.
Qed.


(** The product of a reading of the clock and 1000 is finite: [int] of it
    does not raise. *)
Lemma clock_milliseconds_finite t :
  is_clock t = true ->
  ∃ n, int_ (PFloat (float_mul t (float_of_int 1000))) = Ok n.
Proof.
  intros Ht. destruct (float_mul_1000 t Ht) as (m & e & ->). by eexists.
Qed.

(** 1700000000.123 s is 1700000000123 ms: the product is a float product. *)
Example timestamp_of_a_reading :
  timestamp (S754_finite false 7130316800515899 (-22)) = "1700000000123".
Proof. reflexivity. Qed.

(** Below 256 s the subtraction rounds: from 0.1 to 300.1 it gives 300.0,
    which is not more than 300, though the readings are further apart. *)
Example subtraction_rounds_near_the_epoch :
  Bridge.overdue (S754_finite false 5279415031929242 (-44))
    (S754_finite false 7205759403792794 (-56)) = false
  ∧ (timeout < seconds (S754_finite false 5279415031929242 (-44))
               - seconds (S754_finite false 7205759403792794 (-56)))%Q.
Proof. split; reflexivity. Qed.

End Floats.

Section Availability.

Import Shadow Bridge Spec.

Variable cfg : config.
















(** The loop is a run over what its fetches give. *)
Lemma main_loop_run `{PyLib} env depth times api st :
  main_loop env depth cfg times api st =
  run cfg (fetches env depth cfg times api) st.
Proof.
  revert api st. induction times as [|now times IH]; intros api st; [done|].
  cbn [main_loop fetches]. unfold loop_body.
  destruct (fetch_shadow_v2 env depth cfg api) as [[fetched api'] tr].
  cbn [run]. destruct (after_fetch cfg fetched now st) as [st1 p1].
  by rewrite IH.
Qed.




End Availability.

Section AvailabilityExamples.

Import Bridge Spec Demo.


(** One second later the same pass takes the state offline, once. *)
Example offline_after_301 :
  run demo_config [(Ok [], demo_clock 301); (Ok [], demo_clock 321)]
    (startup demo_config (demo_clock 0)).1
  = ({| last_ok := demo_clock 0; avail_state := "offline" |},
     [avail_publish demo_config "offline"]).
Proof. reflexivity. Qed.

(** A clock set back breaks the invariant: the state went offline at 301
    and stays offline at a reading of 100, within the timeout. *)
Example clock_set_back :
  nondecreasing (demo_clock 0)
    (map snd [(Ok ([] : pydict), demo_clock 301); (Ok [], demo_clock 100)])
  = false
  ∧ avail_state (run demo_config
                   [(Ok [], demo_clock 301); (Ok [], demo_clock 100)]
                   (startup demo_config (demo_clock 0)).1).1 = "offline"
  ∧ expected_online (demo_clock 0)
      [(Ok [], demo_clock 301); (Ok [], demo_clock 100)] (demo_clock 100).
Proof.
  split; [reflexivity|]. split; [reflexivity|].
  right. by vm_compute.
Qed.

(** A pass whose fetch raises does not reach the test of the timeout:
    availability stays as it was, however late it is. *)
Example raising_fetch_keeps_state :
  run demo_config [(Raise AttributeError, demo_clock 1000)]
    (startup demo_config (demo_clock 0)).1
  = ({| last_ok := demo_clock 0; avail_state := "online" |}, []).
Proof. reflexivity. Qed.


End AvailabilityExamples.

(** * Further properties of the code *)

Section ShadowFetch.

Import Shadow Spec Cover.

Lemma collect_first_error items acc e :
  first_error items = Some e -> collect items acc = Raise e.
Proof.
  revert acc. induction items as [|item items IH]; intros acc; [done|].
  simpl. unfold item_error.
  destruct item as [| | | | | |d]; try (by intros [= <-]).
  cbn [Py.get get_default rbind dict_get].
  destruct (default PNone (lookup_str "code" d)) as [| | | | |l|d'] eqn:Hc;
    cbn [hashable]; try (by apply IH); by intros [= <-].
Qed.

Lemma collect_no_error items acc :
  first_error items = None -> ∃ d, collect items acc = Ok d.
Proof.
  revert acc. induction items as [|item items IH]; intros acc; [by eexists|].
  simpl. unfold item_error.
  destruct item as [| | | | | |d]; try done.
  cbn [Py.get get_default rbind dict_get].
  destruct (default PNone (lookup_str "code" d)) as [| | | | |l|d'] eqn:Hc;
    cbn [hashable]; try done; by apply IH.
Qed.

Lemma collect_errors_aux items acc :
  (∀ e, collect items acc = Raise e <-> first_error items = Some e)
  ∧ (first_error items = None -> ∃ d, collect items acc = Ok d).
Proof.
  destruct (first_error items) as [e0|] eqn:Hfe.
  - pose proof (collect_first_error items acc e0 Hfe) as Hc. split; [|done].
    intros e. rewrite Hc. split; congruence.
  - destruct (collect_no_error items acc Hfe) as [d Hc]. split; [|by eauto].
    intros e. rewrite Hc. split; done.
Qed.

(** X1.  The loop over the property items of [fetch_shadow_v2] stops at the
    first item it cannot take, with AttributeError for an item that is not
    a dict and TypeError for an item whose code is a list or a dict; it
    completes exactly when there is no such item. *)
Theorem collect_stops_at_first_bad_item (items : list pyobj) (acc : pydict) :
  (∀ e, collect items acc = Raise e <-> first_error items = Some e)
  ∧ ((∃ d, collect items acc = Ok d) <->
     Forall (fun item => isinstance_dict item = true
                         ∧ hashable (dict_get item "code") = true) items).
Proof.
  assert (first_error items = None <->
          Forall (fun item => isinstance_dict item = true
                              ∧ hashable (dict_get item "code") = true) items)
    as Hall.
  { induction items as [|item items IH]; simpl.
    - split; [constructor|done].
    - unfold item_error. destruct item as [| | | | | |d];
        try (split; [done|by intros [[? _] _]%Forall_cons]).
      destruct (hashable (dict_get (PDict d) "code")) eqn:Hh.
      + rewrite IH. split; [by constructor|by intros [_ ?]%Forall_cons].
      + split; [done|]. intros [[_ ?] _]%Forall_cons. congruence. }
  destruct (first_error items) as [e0|] eqn:Hfe.
  - pose proof (collect_first_error items acc e0 Hfe) as Hc. split.
    + intros e. rewrite Hc. split; congruence.
    + rewrite <- Hall. rewrite Hc. split; [by intros [d ?]|done].
  - destruct (collect_no_error items acc Hfe) as [d Hc]. split.
    + intros e. rewrite Hc. split; done.
    + rewrite <- Hall. split; [done|]. intros _. by exists d.
Qed.

(** X2.  When the loop completes, the snapshot maps each string code to the
    value of the last item carrying it (None when that item has no value),
    keeps what it held for the other codes, and is empty exactly when it
    started empty and no item had a code. *)
Theorem collect_last_item_wins (items : list pyobj) (acc d : pydict) :
  collect items acc = Ok d ->
  (∀ k, lookup_str k d = match last_value k items with
                         | Some v => Some v
                         | None => lookup_str k acc
                         end)
  ∧ (d = [] <->
     acc = [] ∧ Forall (fun item => dict_get item "code" = PNone) items).
Proof.
  revert acc. induction items as [|item items IH]; intros acc.
  - simpl. intros [= ->]. split; [done|]. split; [done|by intros [? _]].
  - simpl. destruct item as [| | | | | |di]; try done.
    cbn [Py.get get_default rbind dict_get].
    destruct (default PNone (lookup_str "code" di)) as [|b|z|f|k'|l|d']
      eqn:Hc; cbn [hashable]; try done.
    all: intros Hcol; destruct (IH _ Hcol) as [Hl He]; split;
      [intros k; rewrite Hl; cbn [last_value dict_get lookup_str];
       destruct (last_value k items); try done;
       by destruct (String.eqb _ _)|].
    all: rewrite He; split; intros [Hacc Hall]; try done.
    { split; [done|]. by constructor. }
    all: apply Forall_cons in Hall as [Hn Hall]; cbn [dict_get] in Hn;
      try congruence.
    done.
Qed.

Lemma collect_last_item_wins_witness :
  collect [PDict [(PStr "code", PStr "battery"); (PStr "value", PInt 10)];
           PDict [(PStr "value", PInt 5)];
           PDict [(PStr "code", PStr "battery"); (PStr "value", PInt 90)]] []
  = Ok [(PStr "battery", PInt 90); (PStr "battery", PInt 10)]
  ∧ lookup_str "battery"
      [(PStr "battery", PInt 90); (PStr "battery", PInt 10)]
    = Some (PInt 90).
Proof.
  split; [reflexivity|].
  exact (proj1 (collect_last_item_wins
                  [PDict [(PStr "code", PStr "battery");
                          (PStr "value", PInt 10)];
                   PDict [(PStr "value", PInt 5)];
                   PDict [(PStr "code", PStr "battery");
                          (PStr "value", PInt 90)]] [] _ eq_refl)
           "battery").
Defined.

Lemma by_code_of_success sh :
  is_success sh = true ->
  by_code_of sh =
  match result_of sh with
  | PDict _ =>
      match properties_of sh with
      | PList items => collect items []
      | PDict d => Ok d
      | _ => Ok []
      end
  | _ => Raise AttributeError
  end.
Proof.
  intros Hs. unfold by_code_of, properties_of. rewrite Hs.
  destruct sh as [| | | | | |d]; try done. unfold result_of.
  cbn [get_default rbind].
  destruct (default (PDict []) (lookup_str "result" d)) as [| | | | | |r];
    try done.
  cbn [get_default rbind].
  destruct (default (PList []) (lookup_str "properties" r))
    as [| | | | |items|props]; try done.
  - destruct (collect items []) as [[|x by_code]|e]; done.
  - by destruct props.
Qed.

(** X3.  What [fetch_shadow_v2] makes of a response: it raises exactly on a
    success response whose result is not an object (AttributeError) or
    whose property list holds an item the loop cannot take (that item's
    error); a response that is not a success gives the empty snapshot; and
    a non-empty snapshot is always the [properties] object itself, or what
    the loop collected from the [properties] list, of a success
    response. *)
Theorem by_code_of_outcomes (sh : pyobj) :
  (∀ e, by_code_of sh = Raise e <->
        is_success sh = true
        ∧ ((isinstance_dict (result_of sh) = false ∧ e = AttributeError)
           ∨ (isinstance_dict (result_of sh) = true
              ∧ ∃ items, properties_of sh = PList items
                         ∧ first_error items = Some e)))
  ∧ (is_success sh = false -> by_code_of sh = Ok [])
  ∧ (∀ d, by_code_of sh = Ok d -> d ≠ [] ->
          is_success sh = true
          ∧ (properties_of sh = PDict d
             ∨ ∃ items, properties_of sh = PList items
                        ∧ collect items [] = Ok d)).
Proof.
  destruct (is_success sh) eqn:Hs.
  2:{ unfold by_code_of. rewrite Hs. split; [|split; [done|]].
      - intros e. split; [done|by intros [? _]].
      - by intros d [= <-] Hne. }
  rewrite (by_code_of_success sh Hs).
  destruct (result_of sh) as [| | | | | |r] eqn:Hr; simpl.
  1-6: split; [|split; [done|done]]; intros e;
       (split; [intros [= <-]; split; [done|]; by left
               |by intros [_ [[_ ->]|[? _]]]]).
  split; [|split; [done|]].
  - intros e. destruct (properties_of sh) as [| | | | |items|d] eqn:Hp.
    1-5,7: split; [done|];
           by intros [_ [[? _]|[_ (items' & ? & ?)]]].
    split.
    + intros Hc. split; [done|]. right. split; [done|]. exists items.
      split; [done|].
      by apply (proj1 (proj1 (collect_errors_aux items [])
                         e)).
    + intros [_ [[? _]|[_ (items' & [= <-] & Hfe)]]]; [done|].
      by apply collect_first_error.
  - intros d Hd Hne. split; [done|].
    destruct (properties_of sh) as [| | | | |items|d'] eqn:Hp;
      try (by simplify_eq).
    + right. by exists items.
    + left. by simplify_eq.
Qed.

End ShadowFetch.

Section ClientMore.

Context `{PyLib}.
Import Shadow Bridge Spec Cover.

Ltac run_monad :=
  unfold bind, ret, Client.raise, lift, emit, get_self, next_invocation,
    set_access_token; simpl.

Lemma token_of_not_success c : is_success c = false -> token_of c = None.
Proof. unfold token_of. by intros ->. Qed.

Lemma result_not_object_not_success c :
  is_success c = false -> result_not_object c = false.
Proof. unfold result_not_object. by intros ->. Qed.

Lemma fetch_shadow_v2_run env depth cfg st :
  fetch_shadow_v2 env depth cfg st =
  match Client.get env depth
          ("/v2.0/cloud/thing/" +:+ DEVICE_ID cfg +:+ "/shadow/properties")
          None st with
  | (Ok sh, st', tr) => (by_code_of sh, st', tr)
  | (Raise e, st', tr) => (Raise e, st', tr)
  end.
Proof.
  unfold fetch_shadow_v2. run_monad.
  destruct (Client.get env depth _ None st) as [[[sh|e] st'] tr]; [|done].
  by rewrite app_nil_r.
Qed.

(** X4.  A poll that meets a failure yields the empty snapshot and no
    exception: when the response to the shadow request is not a success
    (transport failure, body that is not JSON, error response) and not
    token-invalid, after one request; when it is token-invalid and the
    re-authentication returns a failure, after two.  The client keeps its
    token in both cases. *)
Theorem fetch_failure_gives_empty env depth cfg st :
  let i := invocations st in
  let data := response_data (requests_get env i) in
  let c := response_data (requests_get env (S i)) in
  signable (access_token (self st)) = true ->
  is_success data = false ->
  (is_token_invalid data = false ->
   (fetch_shadow_v2 env (S (S depth)) cfg st).1 = (Ok [], bump st))
  ∧ (is_token_invalid data = true -> is_success c = false ->
     (fetch_shadow_v2 env (S (S depth)) cfg st).1 = (Ok [], bump (bump st))).
Proof.
  intros i data c Hsig Hfail. rewrite fetch_shadow_v2_run, get_run.
  fold i data c.
  destruct (prepare_signable (self st) "GET"
              (normalize_path ("/v2.0/cloud/thing/" +:+ DEVICE_ID cfg
                               +:+ "/shadow/properties")) None None true
              (time_time env i) (token_hex env i) Hsig) as [rq ->].
  assert (by_code_of data = Ok []) as Hempty
    by (unfold by_code_of; by rewrite Hfail).
  split.
  - intros ->. lazy beta iota zeta. by rewrite Hempty.
  - intros -> Hc. rewrite prepare_unauthenticated.
    rewrite (result_not_object_not_success c Hc), Hc,
      (token_of_not_success c Hc). lazy beta iota zeta. by rewrite Hempty.
Qed.

Lemma prepare_url self method path params body use_token now nonce rq :
  prepare self method path params body use_token now nonce = Ok rq ->
  rq.1 = base_url self +:+ full_path path params.
Proof.
  unfold prepare. destruct (Client.message _ _ _ _ _); simpl; [|done].
  by intros [= <-].
Qed.

Lemma count_app p tr1 tr2 :
  count p (tr1 ++ tr2) = (count p tr1 + count p tr2)%nat.
Proof. unfold count. by rewrite List.filter_app, length_app. Qed.

Lemma preserves_client_trans {A B} st (o1 : result A * state * list event)
    (o2 : result B * state * list event) :
  preserves_client st o1 -> preserves_client o1.1.2 o2 ->
  preserves_client st (o2.1.1, o2.1.2, o1.2 ++ o2.2).
Proof.
  intros (Hb1 & Hi1 & Hk1 & Ht1 & Hn1 & Hh1 & Hu1)
         (Hb2 & Hi2 & Hk2 & Ht2 & Hn2 & Hh2 & Hu2).
  unfold preserves_client. cbn [fst snd]. rewrite !count_app.
  repeat split; try congruence; try lia.
  - destruct Ht2 as [Ht2|Ht2]; [|by right].
    destruct Ht1 as [Ht1|Ht1]; [left; congruence|right; congruence].
  - apply Forall_app. split; [done|]. by rewrite <- Hb1.
Qed.

Lemma connect_with_preserves req st :
  (∀ method path params body use_token retry st',
     preserves_client st' (req method path params body use_token retry st')) ->
  preserves_client st (connect_with req st).
Proof.
  intros Hreq. unfold connect_with. run_monad.
  pose proof (Hreq "GET" "/v1.0/token" (Some [("grant_type", PInt 1)]) None
                false true st) as Hr.
  destruct (req _ _ _ _ _ _ st) as [[[data|e] st1] tr1]; simpl in *.
  - assert (∀ (r : result pyobj) tok,
              tok = access_token (self st1) ∨ truthy tok = true ->
              preserves_client st
                (r, {| self := with_token (self st1) tok;
                       invocations := invocations st1 |},
                 Enter_connect :: tr1 ++ [])) as Hset.
    { intros r tok Htok.
      destruct Hr as (Hb1 & Hi1 & Hk1 & Ht1 & Hn1 & Hh1 & Hu1).
      unfold preserves_client. cbn [fst snd self invocations with_token
        base_url access_id access_key access_token]. rewrite app_nil_r.
      repeat split; try done.
      - destruct Htok as [->|Htok]; [done|by right].
      - by constructor. }
    assert (∀ r : result pyobj,
              preserves_client st (r, st1, Enter_connect :: tr1 ++ [])) as Hid.
    { intros r. destruct st1 as [[b i k t] n].
      apply (Hset r t). by left. }
    destruct (is_success data); simpl; [|apply Hid].
    destruct (get_default data "result" (PDict [])) as [r|e]; simpl;
      [|apply Hid].
    destruct (Py.get r "access_token") as [tok|e]; simpl; [|apply Hid].
    destruct (truthy tok) eqn:Htok; simpl; [|apply Hid].
    apply Hset. by right.
  - destruct Hr as (Hb1 & Hi1 & Hk1 & Ht1 & Hn1 & Hh1 & Hu1).
    unfold preserves_client. cbn [fst snd].
    repeat split; try done. by constructor.
Qed.

Lemma request_preserves env depth :
  ∀ method path params body use_token retry st,
    preserves_client st
      (_request env depth method path params body use_token retry st).
Proof.
  induction depth as [|depth IH]; intros method path params body use_token
    retry st.
  { unfold preserves_client. cbn.
    repeat split; try done; try lia; by left. }
  rewrite _request_unfold.
  assert (∀ r : result pyobj,
            preserves_client st (r, bump st, [Enter_request use_token retry]))
    as Hraise.
  { intros r. unfold preserves_client. cbn.
    repeat split; try done; try lia; [by left|]. by repeat constructor. }
  assert (∀ (r : result pyobj) rq,
            prepare (self st) (upper method) (normalize_path path) params
              body use_token (time_time env (invocations st))
              (token_hex env (invocations st)) = Ok rq ->
            preserves_client st
              (r, bump st,
               [Enter_request use_token retry; Requests_get rq.1 rq.2]))
    as Hsent.
  { intros r rq Hp. unfold preserves_client. cbn.
    repeat split; try done; try lia; [by left|].
    repeat constructor. simpl. rewrite (prepare_url _ _ _ _ _ _ _ _ _ Hp).
    by eexists. }
  run_monad.
  destruct (prepare _ _ _ _ _ _ _ _) as [rq|e] eqn:Hp; simpl;
    [|apply Hraise].
  destruct (requests_get env (invocations st)) as [e|sc text js]; simpl;
    [by apply Hsent|].
  destruct (_ && _ && _); simpl; [|by apply Hsent].
  pose proof (connect_with_preserves (_request env depth) (bump st) IH) as Hc.
  unfold connect. unfold bump in *.
  destruct (connect_with (_request env depth) _) as [[[c|e] st1] tr1]; simpl.
  - destruct (is_success c); simpl.
    + pose proof (IH (upper method) (normalize_path path) params body true
                    false st1) as Hr.
      destruct (_request env depth _ _ _ _ _ _ st1) as [[r2 st2] tr2].
      pose proof (preserves_client_trans _ _ _
                    (preserves_client_trans _ _ _
                       (Hsent (Ok PNone) rq eq_refl) Hc) Hr) as Hall.
      by simpl in Hall.
    + pose proof (preserves_client_trans _ _ _
                    (Hsent (Ok PNone) rq eq_refl) Hc) as Hall.
      simpl in Hall. by rewrite app_nil_r.
  - pose proof (preserves_client_trans _ _ _
                  (Hsent (Ok PNone) rq eq_refl) Hc) as Hall.
    by simpl in Hall.
Qed.

(** X5.  Whatever the server answers and however deep the calls nest,
    [get] and [connect] leave the base URL, the access id and the access
    key of the client as they are, and the token is either the one held
    before or a truthy one: a token, once held, is never dropped. *)
Theorem client_keeps_credentials env depth path params st :
  let kept (out : result pyobj * state * list event) :=
    base_url (self out.1.2) = base_url (self st)
    ∧ access_id (self out.1.2) = access_id (self st)
    ∧ access_key (self out.1.2) = access_key (self st)
    ∧ (access_token (self out.1.2) = access_token (self st)
       ∨ truthy (access_token (self out.1.2)) = true) in
  kept (Client.get env depth path params st) ∧ kept (connect env depth st).
Proof.
  intros kept. split.
  - destruct (request_preserves env depth "GET" path params None true true st)
      as (? & ? & ? & ? & _). by repeat split.
  - destruct (connect_with_preserves (_request env depth) st
                (request_preserves env depth)) as (? & ? & ? & ? & _).
    by repeat split.
Qed.

(** X6.  Every frame of [_request] that is entered reads the clock and
    draws a nonce once, and calls [requests.get] at most once; every call
    goes to a URL that starts with the base URL of the client.  This holds
    of [get] and of [connect], whatever the server answers. *)
Theorem requests_stay_under_base_url env depth path params st :
  let confined (out : result pyobj * state * list event) :=
    invocations out.1.2 = (invocations st + count is_request out.2)%nat
    ∧ (count is_http out.2 <= count is_request out.2)%nat
    ∧ ∀ url h, Requests_get url h ∈ out.2 ->
               ∃ rest, url = base_url (self st) +:+ rest in
  confined (Client.get env depth path params st)
  ∧ confined (connect env depth st).
Proof.
  intros confined.
  assert (∀ out : result pyobj * state * list event,
            preserves_client st out -> confined out) as Hc.
  { intros out (_ & _ & _ & _ & Hn & Hh & Hu). repeat split; [done..|].
    intros url h Hin. rewrite Forall_forall in Hu. apply (Hu _ Hin). }
  split; apply Hc.
  - apply request_preserves.
  - apply connect_with_preserves, request_preserves.
Qed.

(** X7.  [_request] first puts the method in upper case and the path
    behind a leading slash, and works with these from then on: a call with
    a lower-case method or a path without the slash is the call with the
    normalised ones.  The normalised path starts with a slash, and a path
    that starts with one is kept. *)
Theorem request_normalises_method_and_path env depth method path params body
    use_token retry :
  _request env depth method path params body use_token retry
  = _request env depth (upper method) (normalize_path path) params body
      use_token retry
  ∧ startswith_slash (normalize_path path) = true
  ∧ upper (upper method) = upper method.
Proof.
  split; [|split].
  - destruct depth as [|depth]; [done|].
    by rewrite !_request_unfold, upper_idem, normalize_path_idem.
  - unfold normalize_path. by destruct (startswith_slash path) eqn:Hp.
  - apply upper_idem.
Qed.

Lemma token_of_success c tok :
  token_of c = Some tok ->
  is_success c = true ∧ result_not_object c = false ∧ truthy tok = true.
Proof.
  unfold token_of, result_not_object, result_of.
  destruct (is_success c) eqn:Hs; [|done].
  destruct c as [| | | | | |d]; try done. simpl.
  destruct (lookup_str "result" d) as [r|]; simpl; [|done].
  destruct r as [| | | | | |r]; simpl; try done.
  destruct (truthy _) eqn:Ht; [|done]. by intros [= <-].
Qed.

(** [get] when the token has expired and the token endpoint grants a new
    one: three requests, the last one made by the client that holds the
    new token. *)
Lemma get_refreshed env depth path params st tok :
  let i := invocations st in
  signable (access_token (self st)) = true ->
  is_token_invalid (response_data (requests_get env i)) = true ->
  token_of (response_data (requests_get env (S i))) = Some (PStr tok) ->
  ∃ tr rq,
    prepare (with_token (self st) (PStr tok)) "GET" (normalize_path path)
      params None true (time_time env (S (S i))) (token_hex env (S (S i)))
    = Ok rq
    ∧ Client.get env (S (S depth)) path params st
      = (Ok (response_data (requests_get env (S (S i)))),
         {| self := with_token (self st) (PStr tok);
            invocations := S (S (S i)) |},
         tr ++ [Enter_request true false; Requests_get rq.1 rq.2]).
Proof.
  intros i Hsig Hinv Htok. rewrite get_run. fold i.
  destruct (prepare_signable (self st) "GET" (normalize_path path) params
              None true (time_time env i) (token_hex env i) Hsig) as [rq ->].
  rewrite Hinv, prepare_unauthenticated, Htok.
  destruct (token_of_success _ _ Htok) as (-> & -> & _).
  destruct (prepare_signable (with_token (self st) (PStr tok)) "GET"
              (normalize_path path) params None true
              (time_time env (S (S i))) (token_hex env (S (S i)))
              (orb_true_r _))
    as [rq3 Hp3].
  eexists _, rq3. split; [done|]. lazy beta iota zeta. by rewrite Hp3.
Qed.

(** X8.  When the token has expired and the token endpoint grants a new
    one, the request is made again by the client that holds the new token:
    the retried request goes to the same URL, carries the new token in its
    [access_token] header, the clock reading and the nonce of its own
    invocation, and a signature over the new token with these; what the
    server answers to it is what [get] returns. *)
Theorem retry_is_signed_with_new_token env depth path params st tok :
  let i := invocations st in
  let fp := full_path (normalize_path path) params in
  let t := timestamp (time_time env (S (S i))) in
  let nonce := token_hex env (S (S i)) in
  signable (access_token (self st)) = true ->
  is_token_invalid (response_data (requests_get env i)) = true ->
  token_of (response_data (requests_get env (S i))) = Some (PStr tok) ->
  ∃ tr h,
    Client.get env (S (S depth)) path params st
    = (Ok (response_data (requests_get env (S (S i)))),
       {| self := with_token (self st) (PStr tok);
          invocations := S (S (S i)) |},
       tr ++ [Enter_request true false;
              Requests_get (base_url (self st) +:+ fp) h])
    ∧ header "access_token" h = Some tok
    ∧ header "t" h = Some t
    ∧ header "nonce" h = Some nonce
    ∧ header "sign" h
      = Some (sign "GET" fp None t nonce (access_id (self st)) (Some tok)
                (access_key (self st))).
Proof.
  intros i fp t nonce Hsig Hinv Htok.
  destruct (get_refreshed env depth path params st tok Hsig Hinv Htok)
    as (tr & rq & Hp & ->).
  destruct (prepare_reference (with_token (self st) (PStr tok)) (Some tok)
              "GET" (normalize_path path) params None true
              (time_time env (S (S i))) (token_hex env (S (S i))) eq_refl)
    as (url & h & Hp' & -> & _ & Hsign & Ht & Hn & _ & Hat).
  fold i in Hp. rewrite Hp in Hp'. injection Hp' as ->.
  exists tr, h. repeat split; try done.
  destruct (token_of_success _ _ Htok) as (_ & _ & Htr).
  rewrite Hat. simpl in Htr. by destruct tok.
Qed.

(** X9.  An expired token does not show downstream: the pass of the loop
    in which the token is refreshed treats the answer to the retried
    request as it would have treated a first answer, and the client goes
    on with the new token. *)
Theorem pass_survives_token_expiry env depth cfg now api st tok :
  let i := invocations api in
  signable (access_token (self api)) = true ->
  is_token_invalid (response_data (requests_get env i)) = true ->
  token_of (response_data (requests_get env (S i))) = Some (PStr tok) ->
  let fetched := by_code_of (response_data (requests_get env (S (S i)))) in
  loop_body env (S (S depth)) cfg now api st
  = ({| self := with_token (self api) (PStr tok);
        invocations := S (S (S i)) |},
     (after_fetch cfg fetched now st).1,
     (after_fetch cfg fetched now st).2).
Proof.
  intros i Hsig Hinv Htok fetched. unfold loop_body.
  rewrite fetch_shadow_v2_run.
  destruct (get_refreshed env depth
              ("/v2.0/cloud/thing/" +:+ DEVICE_ID cfg +:+ "/shadow/properties")
              None api tok Hsig Hinv Htok) as (tr & rq & _ & ->).
  fold i fetched.
  destruct fetched as [d|e]; by destruct (after_fetch _ _ _ _).
Qed.

End ClientMore.

Section ClientMoreExamples.

Import Shadow Bridge Spec Cover.

Lemma fetch_failure_gives_empty_witness :
  signable (access_token (self Demo.demo_state)) = true
  ∧ is_success (response_data (requests_get Demo.timeout_env 0)) = false
  ∧ (@fetch_shadow_v2 Demo.demo_lib Demo.timeout_env 2 Demo.demo_config
       Demo.demo_state).1 = (Ok [], bump Demo.demo_state).
Proof.
  split; [reflexivity|]. split; [reflexivity|].
  exact (proj1 (@fetch_failure_gives_empty Demo.demo_lib Demo.timeout_env 0
                  Demo.demo_config Demo.demo_state eq_refl eq_refl)
           eq_refl).
Defined.

End ClientMoreExamples.

Section LoopMore.

Context `{PyLib}.
Import Shadow Bridge Spec Cover.

Variable cfg : config.

(** Passes that get no data, one after the other. *)
Lemma run_empty times st :
  run cfg (map (fun t => (Ok [], t)) times) st
  = if negb (String.eqb (avail_state st) "offline")
       && existsb (fun t => overdue t (last_ok st)) times
    then ({| last_ok := last_ok st; avail_state := "offline" |},
          [avail_publish cfg "offline"])
    else (st, []).
Proof.
  revert st. induction times as [|t times IH]; intros st.
  { simpl. by rewrite andb_false_r. }
  cbn [map run]. unfold after_fetch. cbn [truthy].
  destruct (String.eqb (avail_state st) "offline") eqn:Hoff.
  - rewrite andb_false_r, IH, Hoff. by destruct st.
  - rewrite andb_true_r. cbn [negb andb existsb].
    destruct (overdue t (last_ok st)) eqn:Hov.
    + by rewrite IH.
    + rewrite IH, Hoff. cbn [negb andb orb].
      by destruct (existsb _ times).
Qed.

Lemma existsb_overdue times lo :
  is_clock lo = true -> forallb is_clock times = true ->
  existsb (fun t => overdue t lo) times = true
  <-> Exists (fun t => (timeout < seconds t - seconds lo)%Q) times.
Proof.
  intros Hlo Hclk. rewrite forallb_forall in Hclk.
  rewrite existsb_exists, Exists_exists.
  split; intros (t & Hin & Ht); exists t.
  - split; [by apply list_elem_of_In|]. apply overdue_spec; auto.
  - apply list_elem_of_In in Hin. split; [done|]. apply overdue_spec; auto.
Qed.

(** A fetch that meets a failure leaves the client as it is. *)
Lemma fetch_failure_state env depth st :
  signable (access_token (self st)) = true ->
  is_success (response_data (requests_get env (invocations st))) = false ->
  is_success (response_data (requests_get env (S (invocations st)))) = false ->
  ∃ st', (fetch_shadow_v2 env (S (S depth)) cfg st).1 = (Ok [], st')
         ∧ self st' = self st
         ∧ (invocations st <= invocations st')%nat.
Proof.
  intros Hsig Hfail Hc. rewrite fetch_shadow_v2_run, get_run.
  destruct (prepare_signable (self st) "GET"
              (normalize_path ("/v2.0/cloud/thing/" +:+ DEVICE_ID cfg
                               +:+ "/shadow/properties")) None None true
              (time_time env (invocations st))
              (token_hex env (invocations st)) Hsig) as [rq ->].
  assert (by_code_of (response_data (requests_get env (invocations st)))
          = Ok []) as Hempty by (unfold by_code_of; by rewrite Hfail).
  destruct (is_token_invalid _).
  - rewrite prepare_unauthenticated.
    rewrite (result_not_object_not_success _ Hc), Hc,
      (token_of_not_success _ Hc). lazy beta iota zeta. rewrite Hempty.
    eexists. split; [done|]. simpl. split; [done|lia].
  - lazy beta iota zeta. rewrite Hempty.
    eexists. split; [done|]. simpl. split; [done|lia].
Qed.

Lemma fetches_failing env depth times :
  ∀ api,
    signable (access_token (self api)) = true ->
    (∀ j, (invocations api <= j)%nat ->
          is_success (response_data (requests_get env j)) = false) ->
    fetches env (S (S depth)) cfg times api
    = map (fun t => (Ok [], t)) times.
Proof.
  induction times as [|t times IH]; intros api Hsig Hfail; [done|].
  cbn [fetches map].
  destruct (fetch_failure_state env depth api Hsig) as (api' & Hf & Hs & Hn).
  { apply Hfail. lia. }
  { apply Hfail. lia. }
  destruct (fetch_shadow_v2 env (S (S depth)) cfg api) as [[f a] tr].
  simpl in Hf. injection Hf as -> ->. f_equal.
  apply IH; [by rewrite Hs|]. intros j Hj. apply Hfail. lia.
Qed.

(** X10.  While the cloud cannot be reached (every response is a failure:
    the transport failed, the body is not JSON, or the API reports an
    error), the bridge, started online, publishes no value and leaves the
    time of the last successful read as it was; it publishes offline once
    if in some pass the test [time.time() - last_ok > OFFLINE_AFTER] holds
    of the floats, and nothing if in no pass it does.  For clock readings
    of 256 s and more past the epoch the test is exact: offline is
    published once if some pass reads the clock more than [OFFLINE_AFTER]
    seconds after the last successful read, and nothing if no pass does. *)
Theorem unreachable_cloud_goes_offline_once env depth times api st :
  signable (access_token (self api)) = true ->
  (∀ j, (invocations api <= j)%nat ->
        is_success (response_data (requests_get env j)) = false) ->
  avail_state st = "online" ->
  main_loop env (S (S depth)) cfg times api st
  = (if existsb (fun t => overdue t (last_ok st)) times
     then ({| last_ok := last_ok st; avail_state := "offline" |},
           [avail_publish cfg "offline"])
     else (st, []))
  ∧ (is_clock (last_ok st) = true -> forallb is_clock times = true ->
     (Exists (fun t => (timeout < seconds t - seconds (last_ok st))%Q) times ->
      main_loop env (S (S depth)) cfg times api st
      = ({| last_ok := last_ok st; avail_state := "offline" |},
         [avail_publish cfg "offline"]))
     ∧ (Forall (fun t => (seconds t - seconds (last_ok st) <= timeout)%Q)
          times ->
        main_loop env (S (S depth)) cfg times api st = (st, []))).
Proof.
  intros Hsig Hfail Hon.
  rewrite main_loop_run, (fetches_failing env depth times api Hsig Hfail).
  rewrite run_empty, Hon. cbn [String.eqb Ascii.eqb Bool.eqb negb andb].
  split; [done|]. intros Hlo Hclk. split.
  - intros Hex. apply existsb_overdue in Hex; [|done|done]. by rewrite Hex.
  - intros Hall.
    destruct (existsb _ times) eqn:Hex; [|done].
    apply existsb_overdue in Hex; [|done|done].
    apply Exists_exists in Hex as (t & Hin & Ht).
    rewrite Forall_forall in Hall. specialize (Hall t Hin). lra.
Qed.

Lemma fetch_raises env depth st e :
  signable (access_token (self st)) = true ->
  is_token_invalid (response_data (requests_get env (invocations st)))
  = false ->
  by_code_of (response_data (requests_get env (invocations st))) = Raise e ->
  (fetch_shadow_v2 env (S (S depth)) cfg st).1 = (Raise e, bump st).
Proof.
  intros Hsig Hinv He. rewrite fetch_shadow_v2_run, get_run.
  destruct (prepare_signable (self st) "GET"
              (normalize_path ("/v2.0/cloud/thing/" +:+ DEVICE_ID cfg
                               +:+ "/shadow/properties")) None None true
              (time_time env (invocations st))
              (token_hex env (invocations st)) Hsig) as [rq ->].
  rewrite Hinv. lazy beta iota zeta. by rewrite He.
Qed.

(** X11.  A pass whose fetch raises publishes nothing and does not look at
    the clock: as long as the responses are ones [fetch_shadow_v2] raises
    on (a success whose result is not an object, or whose properties hold
    an item that is not an object), the loop publishes nothing and its
    state stays as it is, however much time goes by; a bridge that is
    online is not taken offline. *)
Theorem raising_fetch_skips_the_timeout env depth times :
  ∀ api st,
    signable (access_token (self api)) = true ->
    (∀ j, (invocations api <= j)%nat ->
          is_token_invalid (response_data (requests_get env j)) = false
          ∧ ∃ e, by_code_of (response_data (requests_get env j)) = Raise e) ->
    main_loop env (S (S depth)) cfg times api st = (st, []).
Proof.
  induction times as [|t times IH]; intros api st Hsig Hbad; [done|].
  cbn [main_loop]. unfold loop_body.
  destruct (Hbad (invocations api) ltac:(lia)) as [Hinv [e He]].
  pose proof (fetch_raises env depth api e Hsig Hinv He) as Hf.
  destruct (fetch_shadow_v2 env (S (S depth)) cfg api) as [[f a] tr].
  simpl in Hf. injection Hf as -> ->. cbn [after_fetch].
  rewrite IH; [done|done|].
  intros j Hj. apply Hbad. simpl in Hj. lia.
Qed.

Lemma after_fetch_vocabulary fetched now st :
  Forall (fun p =>
            (topic p = AVAIL_TOPIC cfg
             ∧ (payload p = "online" ∨ payload p = "offline"))
            ∨ (topic p = STATE_TOPIC cfg
               ∧ (payload p = "ON" ∨ payload p = "OFF"))
            ∨ (topic p = BATT_TOPIC cfg ∧ ∃ n, payload p = str_int n))
    (after_fetch cfg fetched now st).2.
Proof.
  unfold after_fetch. destruct fetched as [by_code|e]; [|by constructor].
  destruct (truthy (PDict by_code)).
  - assert (Forall (fun p =>
              (topic p = AVAIL_TOPIC cfg
               ∧ (payload p = "online" ∨ payload p = "offline"))
              ∨ (topic p = STATE_TOPIC cfg
                 ∧ (payload p = "ON" ∨ payload p = "OFF"))
              ∨ (topic p = BATT_TOPIC cfg ∧ ∃ n, payload p = str_int n))
              (if negb (String.eqb (avail_state st) "online")
               then [{| topic := AVAIL_TOPIC cfg; payload := "online" |}]
               else [])) as Havail.
    { destruct (negb _); [|by constructor].
      constructor; [|by constructor]. left. simpl. auto. }
    destruct (pick_battery by_code) as [batt|e]; [|done].
    cbn [snd]. apply Forall_app. split; [done|]. apply Forall_app. split.
    + destruct (pick_boolean by_code) as [[]|]; [| |by constructor].
      all: constructor; [|by constructor]; right; left; simpl; auto.
    + destruct batt as [n|]; [|by constructor].
      constructor; [|by constructor]. right; right. simpl. eauto.
  - destruct (_ && _); [|by constructor].
    constructor; [|by constructor]. left. simpl. auto.
Qed.

(** X12.  The loop publishes on three topics and nothing else: online or
    offline on the availability topic, ON or OFF on the state topic, the
    decimal digits of an integer on the battery topic.  This holds of any
    run of passes, and of the loop run against any server. *)
Theorem loop_publishes_three_topics :
  let allowed p :=
    (topic p = AVAIL_TOPIC cfg
     ∧ (payload p = "online" ∨ payload p = "offline"))
    ∨ (topic p = STATE_TOPIC cfg ∧ (payload p = "ON" ∨ payload p = "OFF"))
    ∨ (topic p = BATT_TOPIC cfg ∧ ∃ n, payload p = str_int n) in
  (∀ ticks st, Forall allowed (run cfg ticks st).2)
  ∧ (∀ env depth times api st,
       Forall allowed (main_loop env depth cfg times api st).2).
Proof.
  intros allowed.
  assert (∀ ticks st, Forall allowed (run cfg ticks st).2) as Hrun.
  { induction ticks as [|[fetched now] ticks IH]; intros st; [by constructor|].
    cbn [run]. pose proof (after_fetch_vocabulary fetched now st) as Hp.
    destruct (after_fetch cfg fetched now st) as [st1 p1].
    specialize (IH st1). destruct (run cfg ticks st1) as [st2 p2].
    apply Forall_app. by split. }
  split; [done|]. intros. rewrite main_loop_run. apply Hrun.
Qed.

Lemma present_instance isinstance k by_code v :
  present isinstance k by_code = Some v -> isinstance v = true.
Proof.
  unfold present. destruct (lookup_str k by_code) as [w|]; [|done].
  destruct (isinstance w) eqn:Hw; [|done]. by intros [= <-].
Qed.

Lemma int_raises v e :
  isinstance_int_float v = true ->
  int_ v = Raise e
  <-> (Some v = Some (PFloat S754_nan) ∧ e = ValueError)
      ∨ (∃ s, Some v = Some (PFloat (S754_infinity s)) ∧ e = OverflowError).
Proof.
  destruct v as [|b|z|f|s|l|d]; try done; intros _; simpl.
  - split; [done|]. by intros [[? _]|[? [? _]]].
  - split; [done|]. by intros [[? _]|[? [? _]]].
  - destruct f as [s|s| |s m x]; simpl.
    + split; [done|]. by intros [[? _]|[? [? _]]].
    + split.
      * intros [= <-]. right. by exists s.
      * by intros [[? _]|[? [_ ->]]].
    + split.
      * intros [= <-]. by left.
      * by intros [[_ ->]|[? [? _]]].
    + split; [done|]. by intros [[? _]|[? [? _]]].
Qed.

Lemma rbind_int_raises v e :
  rbind (int_ v) (fun n => Ok (Some n)) = Raise e <-> int_ v = Raise e.
Proof. destruct (int_ v); simpl; split; by intros [= ->]. Qed.

(** X13.  [pick_battery] raises exactly when the first numeric battery
    code (battery_percentage, else battery) holds a float that is not a
    number ([ValueError]) or is infinite ([OverflowError]).  The pass in
    which it does has read data: the time of the last successful read is
    updated and the bridge is online; but nothing is published on the
    state topic or on the battery topic in that pass, whatever the contact
    code holds. *)
Theorem non_finite_battery_drops_the_values by_code now st :
  let numeric :=
    match present isinstance_int_float "battery_percentage" by_code with
    | Some v => Some v
    | None => present isinstance_int_float "battery" by_code
    end in
  (∀ e, pick_battery by_code = Raise e <->
        (numeric = Some (PFloat S754_nan) ∧ e = ValueError)
        ∨ (∃ s, numeric = Some (PFloat (S754_infinity s))
                ∧ e = OverflowError))
  ∧ (∀ e, by_code ≠ [] -> pick_battery by_code = Raise e ->
          after_fetch cfg (Ok by_code) now st
          = ({| last_ok := now; avail_state := "online" |},
             if String.eqb (avail_state st) "online" then []
             else [avail_publish cfg "online"])).
Proof.
  intros numeric. split.
  - intros e. unfold pick_battery, numeric.
    destruct (present isinstance_int_float "battery_percentage" by_code)
      as [v|] eqn:Hp.
    { rewrite rbind_int_raises.
      apply int_raises, (present_instance _ _ _ _ Hp). }
    destruct (present isinstance_int_float "battery" by_code) as [v|] eqn:Hb.
    { rewrite rbind_int_raises.
      apply int_raises, (present_instance _ _ _ _ Hb). }
    destruct (present isinstance_str "battery_state" by_code) as [[]|];
      (split; [done|]; by intros [[? _]|[? [? _]]]).
  - intros e Hne He. unfold after_fetch.
    rewrite (truthy_dict_nonempty _ Hne), He.
    by destruct (String.eqb (avail_state st) "online").
Qed.

(** X14.  [main] goes into the loop online whatever the first [connect]
    does, an exception included: the client then holds the token the
    response carries, or none.  The request of that [connect] goes to the
    token endpoint under the base URL without its trailing slashes, with
    the grant type in the query string and without an [access_token]
    header. *)
Theorem main_starts_online_whatever_connect_does env depth now :
  let api0 := {| self := __init__ (BASE_URL cfg) (ACCESS_ID cfg)
                           (ACCESS_KEY cfg);
                 invocations := 0 |} in
  let data := response_data (requests_get env 0) in
  main_start env (S depth) cfg now
  = ({| self := match token_of data with
                | Some tok => with_token (self api0) tok
                | None => self api0
                end;
        invocations := 1 |},
     {| last_ok := now; avail_state := "online" |},
     [avail_publish cfg "online"])
  ∧ ∃ h,
      (connect env (S depth) api0).2
      = [Enter_connect; Enter_request false true;
         Requests_get (rstrip_slash (BASE_URL cfg)
                       +:+ "/v1.0/token?grant_type=1") h]
      ∧ header "access_token" h = None
      ∧ header "client_id" h = Some (ACCESS_ID cfg).
Proof.
  intros api0 data. unfold main_start. fold api0.
  rewrite connect_authenticate.
  destruct (authenticate_run env api0) as (url & h & Hp & ->).
  split; [done|].
  rewrite prepare_unauthenticated in Hp. injection Hp as <- <-.
  eexists. split; [reflexivity|]. by split.
Qed.

End LoopMore.

Section Paths.

Context `{PyLib}.
Import Cover.

Lemma rstrip_slash_cons c s :
  rstrip_slash (String c s)
  = match rstrip_slash s with
    | EmptyString => if Ascii.eqb c "/" then EmptyString
                     else String c EmptyString
    | r => String c r
    end.
Proof. reflexivity. Qed.

Lemma rstrip_slash_slashes s : ∃ n, s = rstrip_slash s +:+ slashes n.
Proof.
  induction s as [|c s [n IH]]; [by exists 0%nat|].
  rewrite rstrip_slash_cons.
  destruct (rstrip_slash s) as [|d r].
  - change (s = slashes n) in IH.
    destruct (Ascii.eqb_spec c "/") as [->|Hc].
    + exists (S n). change (String "/" s = String "/" (slashes n)).
      by f_equal.
    + exists n. change (String c s = String c (slashes n)). by f_equal.
  - exists n. change (String c s = String c (String d r +:+ slashes n)).
    by f_equal.
Qed.

Lemma rstrip_slash_no_slash s : ∀ t, rstrip_slash s ≠ t +:+ "/".
Proof.
  induction s as [|c s IH]; intros t.
  { by destruct t. }
  rewrite rstrip_slash_cons.
  destruct (rstrip_slash s) as [|d r].
  - destruct (Ascii.eqb_spec c "/") as [->|Hc]; [by destruct t|].
    destruct t as [|c' t]; [by intros [= ->]|].
    intros [= _ Ht]. by destruct t.
  - destruct t as [|c' t]; [by intros [= _ ?]|].
    intros [= _ Ht]. by apply (IH t).
Qed.

Lemma slashes_snoc n : slashes (S n) = slashes n +:+ "/".
Proof.
  induction n as [|n IH]; [done|].
  change (String "/" (slashes (S n)) = String "/" (slashes n +:+ "/")).
  by f_equal.
Qed.

Lemma append_assoc (a b c : string) : (a +:+ b) +:+ c = a +:+ (b +:+ c).
Proof.
  induction a as [|x a IH]; [done|].
  change (String x ((a +:+ b) +:+ c) = String x (a +:+ (b +:+ c))).
  by f_equal.
Qed.

Lemma append_nil_r (a : string) : a +:+ "" = a.
Proof.
  induction a as [|x a IH]; [done|].
  change (String x (a +:+ "") = String x a). by f_equal.
Qed.

Lemma full_path_cons c path params :
  full_path (String c path) params
  = String c EmptyString +:+ full_path path params.
Proof. unfold full_path. by destruct (negb _). Qed.

(** X15.  [__init__] takes the trailing slashes off the base URL and
    nothing else: the URL given is the one kept followed by slashes only,
    and the one kept does not end in a slash; a URL that has been through
    it is kept as it is.  The URL of a request is the base URL kept, a
    slash, and the path with its query string, the path taken without its
    first character when that is a slash: [_request] adds a slash to a
    path that does not start with one and removes none, so that a path
    that starts with two slashes gives two. *)
Theorem init_strips_trailing_slashes (url id key : string) :
  let api := __init__ url id key in
  (∃ n, url = base_url api +:+ slashes n)
  ∧ (∀ s, base_url api ≠ s +:+ "/")
  ∧ base_url (__init__ (base_url api) id key) = base_url api
  ∧ (∀ path params,
       base_url api +:+ full_path (normalize_path path) params
       = base_url api +:+ "/"
         +:+ full_path (match path with
                        | String "/" rest => rest
                        | _ => path
                        end) params)
  ∧ base_url (__init__ "https://host//" id key)
    +:+ full_path (normalize_path "//x") None = "https://host//x".
Proof.
  intros api. cbn [api __init__ base_url].
  split; [apply rstrip_slash_slashes|].
  split; [apply rstrip_slash_no_slash|]. split; [|split; [|done]].
  - destruct (rstrip_slash_slashes (rstrip_slash url)) as [[|n] Hn].
    + simpl in Hn. by rewrite append_nil_r in Hn.
    + rewrite slashes_snoc, <- append_assoc in Hn.
      by apply rstrip_slash_no_slash in Hn.
  - intros path params. f_equal. unfold normalize_path.
    destruct (startswith_slash path) eqn:Hp.
    + destruct path as [|c path]; [done|]. simpl in Hp.
      apply Ascii.eqb_eq in Hp as ->. apply full_path_cons.
    + change ("/" +:+ path) with (String "/" path).
      rewrite full_path_cons.
      destruct path as [|c path]; [done|].
      destruct (Ascii.eqb_spec c "/") as [->|Hc]; [done|].
      f_equal. destruct c as [[] [] [] [] [] [] [] []]; try done.
Qed.

(** X16.  The path of a request has a query string exactly when there are
    parameters: without parameters, or with an empty dictionary of them,
    it is the path itself; with at least one it is the path, a question
    mark and a query string that is not empty.  The test on the query
    string in [_request] never decides otherwise than the test on the
    parameters before it. *)
Theorem query_string_iff_parameters (path : string)
    (params : option (list (string * pyobj))) :
  (query_string params = "" <-> params = None ∨ params = Some [])
  ∧ full_path path params
    = match params with
      | Some (_ :: _) => path +:+ "?" +:+ query_string params
      | _ => path
      end.
Proof.
  assert (∀ kv items, query_string (Some (kv :: items)) ≠ "") as Hne.
  { intros kv items. unfold query_string, Urllib.urlencode.
    pose proof (sorted_items (map (fun kv => (kv.1, str kv.2)) (kv :: items)))
      as Hperm.
    destruct (sorted _) as [|x l].
    - by apply Permutation_nil_cons in Hperm.
    - cbn [map]. apply join_nonempty.
      by destruct (Urllib.quote_plus x.1). }
  split.
  - destruct params as [[|kv items]|]; [by split; auto| |by split; auto].
    split; [by intros ?%Hne|by intros [|]].
  - unfold full_path. destruct params as [[|kv items]|]; [done| |done].
    specialize (Hne kv items).
    by destruct (String.eqb_spec (query_string (Some (kv :: items))) "").
Qed.

End Paths.

Section Configuration.

Import Env.

Lemma REGION_HOSTS_other r :
  r ∉ ["eu"; "us"; "cn"; "in"] -> REGION_HOSTS !! r = None.
Proof.
  intros Hr. unfold REGION_HOSTS. cbn [list_to_map foldr].
  rewrite !lookup_insert_ne, lookup_empty; [done|..];
    intros <-; apply Hr; set_solver.
Qed.

(** X17.  The base URL is always one of the four region hosts: the host of
    the region for the regions eu, us, cn and in, spelled this way, and the
    eu host for any other text and when REGION is not set.  None of them
    ends in a slash, so the client keeps it as it is; [load] puts it in the
    configuration. *)
Theorem base_url_is_a_region_host (parse : string -> option Z)
    (environ : gmap string string) :
  let url := BASE_URL_of (Env.get environ "REGION" "eu") in
  url ∈ ["https://openapi.tuyaeu.com"; "https://openapi.tuyaus.com";
         "https://openapi.tuyacn.com"; "https://openapi.tuyain.com"]
  ∧ (∀ r, environ !! "REGION" = Some r ->
          url = if bool_decide (r ∈ ["eu"; "us"; "cn"; "in"])
                then "https://openapi.tuya" +:+ r +:+ ".com"
                else "https://openapi.tuyaeu.com")
  ∧ (environ !! "REGION" = None -> url = "https://openapi.tuyaeu.com")
  ∧ (∀ id key, base_url (__init__ url id key) = url)
  ∧ (∀ s, load parse environ = inr s -> BASE_URL (core s) = url).
Proof.
  intros url.
  assert (∀ r, BASE_URL_of r
               = if bool_decide (r ∈ ["eu"; "us"; "cn"; "in"])
                 then "https://openapi.tuya" +:+ r +:+ ".com"
                 else "https://openapi.tuyaeu.com") as Hurl.
  { intros r. case_bool_decide as Hr.
    - repeat (apply elem_of_cons in Hr as [->|Hr]; [by vm_compute|]).
      by apply elem_of_nil in Hr.
    - unfold BASE_URL_of. by rewrite (REGION_HOSTS_other r Hr). }
  assert (url ∈ ["https://openapi.tuyaeu.com"; "https://openapi.tuyaus.com";
                 "https://openapi.tuyacn.com"; "https://openapi.tuyain.com"])
    as Hin.
  { unfold url. rewrite Hurl. case_bool_decide as Hr; [|set_solver].
    repeat (apply elem_of_cons in Hr as [->|Hr]; [set_solver|]).
    by apply elem_of_nil in Hr. }
  split; [done|]. split; [|split; [|split]].
  - intros r Hr. unfold url, Env.get. rewrite Hr. apply Hurl.
  - intros Hr. unfold url, Env.get. by rewrite Hr.
  - intros id key.
    repeat (apply elem_of_cons in Hin as [->|Hin]; [by vm_compute|]).
    by apply elem_of_nil in Hin.
  - intros s. unfold load, ebind.
    destruct (item environ "ACCESS_ID"); [done|].
    destruct (item environ "ACCESS_KEY"); [done|].
    destruct (item environ "DEVICE_ID"); [done|].
    destruct (int parse (Env.get environ "POLL_INTERVAL" "20")); [done|].
    destruct (int parse (Env.get environ "MQTT_PORT" "1883")); [done|].
    by intros [= <-].
Qed.

(** X18.  The module stops on a variable that is not set exactly for
    ACCESS_ID, ACCESS_KEY and DEVICE_ID, and names the first of them, in
    this order, that is missing; every other variable has a default.  With
    the three set, the configuration is read exactly when POLL_INTERVAL
    and MQTT_PORT, or their defaults 20 and 1883, read as integers. *)
Theorem load_requires_three_variables (parse : string -> option Z)
    (environ : gmap string string) :
  let text kv := Env.get environ kv.1 kv.2 in
  (∀ k, load parse environ = inl (KeyError k) <->
        ∃ before after,
          required = before ++ k :: after
          ∧ environ !! k = None
          ∧ Forall (fun k' => is_Some (environ !! k')) before)
  ∧ ((∃ s, load parse environ = inr s) <->
     Forall (fun k => is_Some (environ !! k)) required
     ∧ Forall (fun kv => is_Some (parse (text kv))) numbers)
  ∧ (∀ t, load parse environ = inl (IntError t) ->
          Forall (fun k => is_Some (environ !! k)) required
          ∧ parse t = None ∧ t ∈ map text numbers).
Proof.
  intros text. unfold load, ebind, item, int, required, numbers, text.
  cbn [map fst snd].
  assert (∀ k, (∃ before after,
                  ["ACCESS_ID"; "ACCESS_KEY"; "DEVICE_ID"]
                  = before ++ k :: after
                  ∧ environ !! k = None
                  ∧ Forall (fun k' => is_Some (environ !! k')) before)
               <-> (k = "ACCESS_ID" ∧ environ !! "ACCESS_ID" = None)
                   ∨ (k = "ACCESS_KEY" ∧ is_Some (environ !! "ACCESS_ID")
                      ∧ environ !! "ACCESS_KEY" = None)
                   ∨ (k = "DEVICE_ID" ∧ is_Some (environ !! "ACCESS_ID")
                      ∧ is_Some (environ !! "ACCESS_KEY")
                      ∧ environ !! "DEVICE_ID" = None)) as Hfirst.
  { intros k. split.
    - intros (before & after & Hl & Hk & Hbf).
      destruct before as [|k1 before]; simpl in Hl.
      { injection Hl as <- _. by left. }
      apply Forall_cons in Hbf as [H1 Hbf]. injection Hl as <- Hl.
      destruct before as [|k2 before]; simpl in Hl.
      { injection Hl as <- _. right; left. by repeat split. }
      apply Forall_cons in Hbf as [H2 Hbf]. injection Hl as <- Hl.
      destruct before as [|k3 before]; simpl in Hl.
      { injection Hl as <- _. right; right. by repeat split. }
      injection Hl as <- Hl. by destruct before.
    - intros [[-> Hk]|[(-> & H1 & Hk)|(-> & H1 & H2 & Hk)]].
      + by exists [], ["ACCESS_KEY"; "DEVICE_ID"].
      + exists ["ACCESS_ID"], ["DEVICE_ID"]. repeat split; [done|].
        by repeat constructor.
      + exists ["ACCESS_ID"; "ACCESS_KEY"], []. repeat split; [done|].
        by repeat constructor. }
  assert (Forall (fun k => is_Some (environ !! k))
            ["ACCESS_ID"; "ACCESS_KEY"; "DEVICE_ID"]
          <-> is_Some (environ !! "ACCESS_ID")
              ∧ is_Some (environ !! "ACCESS_KEY")
              ∧ is_Some (environ !! "DEVICE_ID")) as Hreq.
  { rewrite !Forall_cons. split; [by intros (? & ? & ? & _)|].
    intros (? & ? & ?). by repeat split. }
  assert (Forall (fun kv => is_Some (parse (Env.get environ kv.1 kv.2)))
            [("POLL_INTERVAL", "20"); ("MQTT_PORT", "1883")]
          <-> is_Some (parse (Env.get environ "POLL_INTERVAL" "20"))
              ∧ is_Some (parse (Env.get environ "MQTT_PORT" "1883")))
    as Hnum.
  { rewrite !Forall_cons. split; [by intros (? & ? & _)|].
    intros (? & ?). by repeat split. }
  setoid_rewrite Hfirst. setoid_rewrite Hreq. rewrite Hnum.
  clear Hfirst Hreq Hnum.
  destruct (environ !! "ACCESS_ID") as [a|].
  2:{ split; [|split]; [|split|done].
      - intros k. split; [intros [= <-]; by left|].
        by intros [[-> _]|[(_ & [? ?] & _)|(_ & [? ?] & _)]].
      - by intros [? ?].
      - by intros [([? ?] & _) _]. }
  destruct (environ !! "ACCESS_KEY") as [b|].
  2:{ split; [|split]; [|split|done].
      - intros k. split; [intros [= <-]; right; left; by eauto|].
        by intros [[_ ?]|[(-> & _)|(_ & _ & [? ?] & _)]].
      - by intros [? ?].
      - by intros [(_ & [? ?] & _) _]. }
  destruct (environ !! "DEVICE_ID") as [d|].
  2:{ split; [|split]; [|split|done].
      - intros k. split; [intros [= <-]; right; right; by eauto|].
        by intros [[_ ?]|[(_ & _ & ?)|(-> & _)]].
      - by intros [? ?].
      - by intros [(_ & _ & [? ?]) _]. }
  assert (∀ k, ¬ ((k = "ACCESS_ID" ∧ Some a = None)
                  ∨ (k = "ACCESS_KEY" ∧ is_Some (Some a) ∧ Some b = None)
                  ∨ (k = "DEVICE_ID" ∧ is_Some (Some a) ∧ is_Some (Some b)
                     ∧ Some d = None))) as Hno.
  { by intros k [[_ ?]|[(_ & _ & ?)|(_ & _ & _ & ?)]]. }
  destruct (parse (Env.get environ "POLL_INTERVAL" "20")) as [n|] eqn:Hn.
  2:{ split; [|split].
      - intros k. split; [done|]. intros Hk. by destruct (Hno k).
      - split; [by intros [? ?]|]. by intros [_ [[? ?] _]].
      - intros t [= <-].
        split; [rewrite <- !not_eq_None_Some; by repeat split|].
        split; [done|]. set_solver. }
  destruct (parse (Env.get environ "MQTT_PORT" "1883")) as [m|] eqn:Hm.
  2:{ split; [|split].
      - intros k. split; [done|]. intros Hk. by destruct (Hno k).
      - split; [by intros [? ?]|]. by intros [_ [_ [? ?]]].
      - intros t [= <-].
        split; [rewrite <- !not_eq_None_Some; by repeat split|].
        split; [done|]. set_solver. }
  split; [|split].
  - intros k. split; [done|]. intros Hk. by destruct (Hno k).
  - split; [|by eexists]. intros _.
    rewrite <- !not_eq_None_Some. by repeat split.
  - done.
Qed.

End Configuration.

Section Session.

Import Env Mqtt Shadow Bridge Spec.

Lemma append_neq_self (a b : string) : b ≠ "" -> a ≠ a +:+ b.
Proof.
  intros Hb. induction a as [|x a IH]; [by destruct b|].
  intros [= Ha]. by apply IH.
Qed.

(** X19.  What the loop publishes is what the discovery documents and the
    last will announce.  Every message of the loop goes to a topic that one
    of the two documents names as its availability topic or its state
    topic, and a message on the state topic of the contact sensor carries
    the payload the document declares for on or for off.  The will that
    [mqtt_connect] registers is the very message the loop publishes when
    the timeout is exceeded: the availability topic of both documents,
    offline, retained.  The two documents have different unique ids and go
    to different topics. *)
Theorem loop_publishes_what_discovery_announces (dumps : pyobj -> string)
    (s : settings) :
  let cfg := core s in
  (∀ ticks st,
     Forall (fun p =>
               PStr (topic p) ∈ announced s
               ∧ (topic p = STATE_TOPIC cfg ->
                  PStr (payload p) = dict_get (discovery_cfg s) "payload_on"
                  ∨ (PStr (payload p)
                     = dict_get (discovery_cfg s) "payload_off")))
       (run cfg ticks st).2)
  ∧ (∀ t pl retain,
       will_set t pl retain ∈ mqtt_connect s ->
       Mqtt.publish t pl retain = call_of (avail_publish cfg "offline"))
  ∧ (∃ t pl retain, will_set t pl retain ∈ mqtt_connect s)
  ∧ dict_get (discovery_cfg s) "unique_id"
    ≠ dict_get (discovery_batt_cfg s) "unique_id"
  ∧ (∀ t1 p1 r1 t2 p2 r2,
       publish_discovery dumps s
       = [Mqtt.publish t1 p1 r1; Mqtt.publish t2 p2 r2] ->
       t1 ≠ t2 ∧ (PStr t1 ∉ announced s) ∧ (PStr t2 ∉ announced s)).
Proof.
  intros cfg. split; [|split; [|split; [|split]]].
  - intros ticks. induction ticks as [|[fetched now] ticks IH]; intros st;
      [by constructor|].
    cbn [run].
    assert (Forall (fun p =>
              PStr (topic p) ∈ announced s
              ∧ (topic p = STATE_TOPIC cfg ->
                 PStr (payload p) = dict_get (discovery_cfg s) "payload_on"
                 ∨ (PStr (payload p)
                    = dict_get (discovery_cfg s) "payload_off")))
              (after_fetch cfg fetched now st).2) as Hp.
    { unfold after_fetch. destruct fetched as [by_code|e]; [|by constructor].
      assert (∀ payload,
                PStr (topic {| topic := AVAIL_TOPIC cfg; payload := payload |})
                ∈ announced s
                ∧ (topic {| topic := AVAIL_TOPIC cfg; payload := payload |}
                   = STATE_TOPIC cfg ->
                   PStr payload = dict_get (discovery_cfg s) "payload_on"
                   ∨ PStr payload = dict_get (discovery_cfg s) "payload_off"))
        as Havail.
      { intros pl. split; [unfold announced; cbn; rewrite !elem_of_cons; auto 6|].
        intros Ht. by apply AVAIL_TOPIC_not_state in Ht. }
      destruct (truthy (PDict by_code)).
      - destruct (pick_battery by_code) as [batt|e]; cbn [snd].
        + apply Forall_app. split.
          { destruct (negb _); [|by constructor].
            constructor; [apply Havail|by constructor]. }
          apply Forall_app. split.
          * destruct (pick_boolean by_code) as [[]|]; [| |by constructor].
            all: constructor; [|by constructor].
            all: split; [unfold announced; cbn; rewrite !elem_of_cons; auto 6|].
            all: intros _; cbn; auto.
          * destruct batt as [n|]; [|by constructor].
            constructor; [|by constructor].
            split; [unfold announced; cbn; rewrite !elem_of_cons; auto 6|].
            intros Ht. by apply BATT_TOPIC_not_state in Ht.
        + destruct (negb _); [|by constructor].
          constructor; [apply Havail|by constructor].
      - destruct (_ && _); cbn [snd]; [|by constructor].
        constructor; [apply Havail|by constructor]. }
    destruct (after_fetch cfg fetched now st) as [st1 p1].
    specialize (IH st1). destruct (run cfg ticks st1) as [st2 p2].
    apply Forall_app. by split.
  - intros t pl r. unfold mqtt_connect.
    destruct (negb (String.eqb (MQTT_USER s) "")); cbn [app].
    all: rewrite !elem_of_cons, elem_of_nil.
    all: intros Hin; repeat destruct Hin as [Hin|Hin]; try done.
    all: by injection Hin as -> -> ->.
  - exists (AVAIL_TOPIC cfg), "offline", true. unfold mqtt_connect.
    destruct (negb (String.eqb (MQTT_USER s) "")); set_solver.
  - cbn. intros [= Hu]. by apply append_neq_self in Hu.
  - intros t1 p1 r1 t2 p2 r2 [= <- _ _ <- _ _].
    split; [done|]. unfold announced, AVAIL_TOPIC, STATE_TOPIC, BATT_TOPIC.
    cbn. split; intros Hin; repeat (apply elem_of_cons in Hin as [Hin|Hin];
      [done|]); by apply elem_of_nil in Hin.
Qed.

End Session.

Section ClientErrors.

Context `{PyLib}.
Import Shadow Bridge Spec Cover.

(** X20.  The exceptions of [get] where every [str] it handles has a UTF-8
    encoding, as every [str] of this model has (one with a lone surrogate,
    on which [encode] raises, is not represented).  It raises [TypeError]
    when the token it holds is truthy and not a string, before anything is
    sent, and when the token endpoint, asked after a token-invalid
    response, grants a token that is not a string; it raises
    [AttributeError] when the token endpoint answers success with a result
    that is not an object.  In every other case of the model it returns. *)
Theorem get_raises_exactly env depth path params st (e : exn) :
  let i := invocations st in
  let data := response_data (requests_get env i) in
  let c := response_data (requests_get env (S i)) in
  (Client.get env (S (S depth)) path params st).1.1 = Raise e
  <-> (signable (access_token (self st)) = false ∧ e = TypeError)
      ∨ (signable (access_token (self st)) = true
         ∧ is_token_invalid data = true
         ∧ ((result_not_object c = true ∧ e = AttributeError)
            ∨ (∃ tok, token_of c = Some tok ∧ isinstance_str tok = false
                      ∧ e = TypeError))).
Proof.
  intros i data c. rewrite get_run. fold i data c.
  destruct (signable (access_token (self st))) eqn:Hsig.
  2:{ rewrite (prepare_not_signable _ _ _ _ _ _ _ Hsig). cbn [fst].
      split; [intros [= <-]; by left|].
      by intros [[_ ->]|[? _]]. }
  destruct (prepare_signable (self st) "GET" (normalize_path path) params
              None true (time_time env i) (token_hex env i) Hsig) as [rq ->].
  lazy beta iota zeta.
  destruct (is_token_invalid data).
  2:{ cbn [fst]. split; [done|]. by intros [[? _]|(_ & ? & _)]. }
  rewrite prepare_unauthenticated. lazy beta iota zeta.
  destruct (result_not_object c) eqn:Hr.
  { cbn [fst]. split.
    - intros [= <-]. right. repeat split. by left.
    - intros [[? _]|(_ & _ & [[_ ->]|(tok & Htok & _)])]; [done..|].
      apply token_of_success in Htok as (_ & ? & _). congruence. }
  destruct (token_of c) as [tok|] eqn:Htok.
  - destruct (token_of_success _ _ Htok) as (-> & _ & Htr).
    destruct (isinstance_str tok) eqn:Hstr.
    + destruct (prepare_signable (with_token (self st) tok) "GET"
                  (normalize_path path) params None true
                  (time_time env (S (S i))) (token_hex env (S (S i))))
        as [rq3 ->].
      { unfold signable. cbn. by rewrite Hstr, orb_true_r. }
      cbn [fst]. split; [done|].
      intros [[? _]|(_ & _ & [[? _]|(tok' & [= <-] & ? & _)])]; congruence.
    + rewrite prepare_not_signable.
      2:{ unfold signable. cbn. by rewrite Hstr, Htr. }
      cbn [fst]. split.
      * intros [= <-]. right. repeat split. right. by exists tok.
      * by intros [[? _]|(_ & _ & [[? _]|(tok' & _ & _ & ->)])].
  - destruct (is_success c).
    + destruct (prepare_signable (self st) "GET" (normalize_path path)
                  params None true (time_time env (S (S i)))
                  (token_hex env (S (S i))) Hsig) as [rq3 ->].
      cbn [fst]. split; [done|].
      by intros [[? _]|(_ & _ & [[? _]|(tok' & ? & _)])].
    + cbn [fst]. split; [done|].
      by intros [[? _]|(_ & _ & [[? _]|(tok' & ? & _)])].
Qed.

(** X21.  A pass with a valid token costs one request: when the response
    is not token-invalid, the pass makes of it what [fetch_shadow_v2] and
    the rest of the loop body make of a response, and the client is as it
    was but for the one clock reading and nonce it has used. *)
Theorem pass_with_valid_token env depth cfg now api st :
  let data := response_data (requests_get env (invocations api)) in
  signable (access_token (self api)) = true ->
  is_token_invalid data = false ->
  loop_body env (S (S depth)) cfg now api st
  = (bump api, (after_fetch cfg (by_code_of data) now st).1,
     (after_fetch cfg (by_code_of data) now st).2)
  ∧ count is_http (Client.get env (S (S depth))
                     ("/v2.0/cloud/thing/" +:+ DEVICE_ID cfg
                      +:+ "/shadow/properties") None api).2 = 1%nat.
Proof.
  intros data Hsig Hinv. unfold loop_body.
  rewrite fetch_shadow_v2_run, get_run. fold data.
  destruct (prepare_signable (self api) "GET"
              (normalize_path ("/v2.0/cloud/thing/" +:+ DEVICE_ID cfg
                               +:+ "/shadow/properties")) None None true
              (time_time env (invocations api))
              (token_hex env (invocations api)) Hsig) as [rq ->].
  rewrite Hinv. lazy beta iota zeta. split; [|done].
  destruct (by_code_of data) as [d|e]; by destruct (after_fetch _ _ _ _).
Qed.

End ClientErrors.

Section MoreExamples.

Import Shadow Bridge Spec Cover Demo Samples.

(** C2.  The response to a [get] has code 1010 and the token endpoint then
    answers {"success": true, "result": null}: [connect] is called once
    and raises, so that it returns no success response and nothing is
    retried; but the token-invalid response does not go to the caller,
    [get] raises [AttributeError]. *)
Theorem refresh_raises_on_null_result :
  let out := @Client.get demo_lib refresh_null_env 2
               "/v2.0/cloud/thing/dev/shadow/properties" None demo_state in
  response_data (requests_get refresh_null_env 0) = token_invalid
  ∧ is_token_invalid token_invalid = true
  ∧ response_data (requests_get refresh_null_env 1) = null_result
  ∧ (@connect demo_lib refresh_null_env 1 (bump demo_state)).1.1
    = Raise AttributeError
  ∧ out.1.1 = Raise AttributeError
  ∧ count is_connect out.2 = 1%nat
  ∧ count is_retried out.2 = 0%nat
  ∧ count is_http out.2 = 2%nat.
Proof. repeat split; reflexivity. Qed.

(** C4.  Not every outcome of [get] is a result: when the token endpoint,
    asked after a response with code 1010, grants the token 12345, a
    number, [connect] stores it, and the request made again raises
    [TypeError] where [_request] puts the token into the message to sign,
    before it is sent.  The exception reaches the caller of
    [fetch_shadow_v2]; and the client keeps the token, so that every later
    [get] raises likewise, without sending anything. *)
Theorem get_raises_on_numeric_token :
  let path := "/v2.0/cloud/thing/dev/shadow/properties" in
  let out := @Client.get demo_lib numeric_token_env 2 path None demo_state in
  let again := @Client.get demo_lib numeric_token_env 2 path None out.1.2 in
  response_data (requests_get numeric_token_env 1) = numeric_token_granted
  ∧ out.1.1 = Raise TypeError
  ∧ access_token (self out.1.2) = PInt 12345
  ∧ count is_http out.2 = 2%nat
  ∧ again.1.1 = Raise TypeError
  ∧ count is_http again.2 = 0%nat
  ∧ (@fetch_shadow_v2 demo_lib numeric_token_env 2 demo_config demo_state).1.1
    = Raise TypeError.
Proof. repeat split; reflexivity. Qed.

Lemma retry_is_signed_with_new_token_witness :
  ∃ tr h,
    @Client.get demo_lib expiry_env 2 "/v2.0/cloud/thing/dev/shadow/properties"
      None demo_state
    = (Ok shadow,
       {| self := with_token (self demo_state) (PStr "tok");
          invocations := 3 |},
       tr ++ [Enter_request true false;
              Requests_get
                ("https://openapi.tuyaeu.com"
                 +:+ "/v2.0/cloud/thing/dev/shadow/properties") h])
    ∧ header "access_token" h = Some "tok".
Proof.
  destruct (@retry_is_signed_with_new_token demo_lib expiry_env 0
              "/v2.0/cloud/thing/dev/shadow/properties" None demo_state "tok"
              eq_refl eq_refl eq_refl) as (tr & h & Hget & Hat & _).
  by exists tr, h.
Defined.

Lemma pass_survives_token_expiry_witness :
  @loop_body demo_lib expiry_env 2 demo_config (demo_clock 2) demo_state
    (online_since (demo_clock 0))
  = ({| self := with_token (self demo_state) (PStr "tok");
        invocations := 3 |},
     online_since (demo_clock 2),
     [{| topic := "tuya/tuya_sensor/state"; payload := "ON" |};
      {| topic := "tuya/tuya_sensor/battery"; payload := "87" |}]).
Proof.
  exact (@pass_survives_token_expiry demo_lib expiry_env 0 demo_config
           (demo_clock 2) demo_state (online_since (demo_clock 0)) "tok"
           eq_refl eq_refl eq_refl).
Defined.

Lemma unreachable_cloud_goes_offline_once_witness :
  @main_loop demo_lib timeout_env 2 demo_config
    [demo_clock 100; demo_clock 301; demo_clock 400] demo_state
    (online_since (demo_clock 0))
  = ({| last_ok := demo_clock 0; avail_state := "offline" |},
     [avail_publish demo_config "offline"]).
Proof.
  apply (proj2 (@unreachable_cloud_goes_offline_once demo_lib demo_config
                  timeout_env 0
                  [demo_clock 100; demo_clock 301; demo_clock 400]
                  demo_state (online_since (demo_clock 0))
                  eq_refl (fun j _ => eq_refl) eq_refl) eq_refl eq_refl).
  apply Exists_cons_tl, Exists_cons_hd. reflexivity.
Defined.

Lemma raising_fetch_skips_the_timeout_witness :
  @main_loop demo_lib null_result_env 2 demo_config
    [demo_clock 100; demo_clock 301; demo_clock 400]
    demo_state (online_since (demo_clock 0))
  = (online_since (demo_clock 0), []).
Proof.
  apply (@raising_fetch_skips_the_timeout demo_lib demo_config
           null_result_env 0 [demo_clock 100; demo_clock 301; demo_clock 400]
           demo_state (online_since (demo_clock 0)) eq_refl).
  intros j _. split; [reflexivity|]. by exists AttributeError.
Defined.

Lemma pass_with_valid_token_witness :
  @loop_body demo_lib shadow_env 2 demo_config (demo_clock 2) demo_state
    (online_since (demo_clock 0))
  = (bump demo_state, online_since (demo_clock 2),
     [{| topic := "tuya/tuya_sensor/state"; payload := "ON" |};
      {| topic := "tuya/tuya_sensor/battery"; payload := "87" |}]).
Proof.
  exact (proj1 (@pass_with_valid_token demo_lib shadow_env 0 demo_config
                  (demo_clock 2) demo_state (online_since (demo_clock 0))
                  eq_refl eq_refl)).
Defined.

End MoreExamples.
